(** * The streaming relay of the chat service

    A shallow embedding of [src/lib/streaming.ts] (the frame encoder
    [createStreamResponse] and the frame decoder
    [StreamProcessor.processStream]) and of the decode loop of
    [useGenAI.chatStream] in [src/hooks/useGenAI.ts], together with the
    platform pieces they call: JavaScript strings, [TextEncoder],
    [TextDecoder], [String.prototype.split], [JSON.stringify] and
    [JSON.parse]. *)

From Stdlib Require Import String Ascii DecimalString.
From Stdlib Require Import List NArith ZArith Lia Bool.
Import ListNotations.
Local Open Scope N_scope.

Set Implicit Arguments.

(** Division and remainder by a constant, for [lia]. *)
Ltac Zify.zify_post_hook ::= Z.to_euclidean_division_equations.

(** ** JavaScript strings and byte chunks

    A JavaScript string is a sequence of 16-bit code units; a chunk read
    from the transport ([Uint8Array]) is a sequence of octets.  Both are
    kept as [N] with the range written out where it matters. *)

Abbreviation code_unit := N (only parsing).
Abbreviation jsstring := (list N) (only parsing).
Abbreviation octet := N (only parsing).
Abbreviation chunk := (list N) (only parsing).

Definition wf_string (s : jsstring) : Prop := Forall (fun c => c < 65536) s.

(** String literals of the source, written in ASCII. *)
Definition js (s : string) : jsstring :=
  map N_of_ascii (list_ascii_of_string s).

Definition is_high_surrogate (c : code_unit) : bool :=
  (55296 <=? c) && (c <=? 56319).
Definition is_low_surrogate (c : code_unit) : bool :=
  (56320 <=? c) && (c <=? 57343).

(** [line.startsWith(p)] and [line.slice(n)]. *)
Fixpoint startsWith (p s : jsstring) : bool :=
  match p, s with
  | [], _ => true
  | _ :: _, [] => false
  | a :: p', b :: s' => (a =? b) && startsWith p' s'
  end.

Definition slice (n : nat) (s : jsstring) : jsstring := skipn n s.

(** [s.split('\n')]: the segments between line feeds; never empty. *)
Definition LF : code_unit := 10.

Fixpoint split_lines (s : jsstring) : list jsstring :=
  match s with
  | [] => [[]]
  | c :: r =>
      if c =? LF then [] :: split_lines r
      else match split_lines r with
           | l :: ls => (c :: l) :: ls
           | [] => [[c]]
           end
  end.

(** ** UTF-8, as the Encoding standard defines it *)

Module UTF8.

(** *** The encoder behind [TextEncoder.encode] *)

Definition REPLACEMENT : N := 65533.

(** Bytes of one scalar value. *)
Definition encode_code_point (cp : N) : chunk :=
  if cp <=? 127 then [cp]
  else if cp <=? 2047 then
    [N.shiftr cp 6 + 192; N.lor 128 (N.land cp 63)]
  else if cp <=? 65535 then
    [N.shiftr cp 12 + 224;
     N.lor 128 (N.land (N.shiftr cp 6) 63);
     N.lor 128 (N.land cp 63)]
  else
    [N.shiftr cp 18 + 240;
     N.lor 128 (N.land (N.shiftr cp 12) 63);
     N.lor 128 (N.land (N.shiftr cp 6) 63);
     N.lor 128 (N.land cp 63)].

Definition pair_code_point (hi lo : code_unit) : N :=
  65536 + (hi - 55296) * 1024 + (lo - 56320).

(** The string is first read as scalar values: a surrogate pair is one
    code point, a surrogate on its own becomes U+FFFD. *)
Fixpoint code_points (s : jsstring) : list N :=
  match s with
  | [] => []
  | c :: r =>
      if is_high_surrogate c then
        match r with
        | l :: r' =>
            if is_low_surrogate l then pair_code_point c l :: code_points r'
            else REPLACEMENT :: code_points r
        | [] => [REPLACEMENT]
        end
      else if is_low_surrogate c then REPLACEMENT :: code_points r
      else c :: code_points r
  end.

Definition encode (s : jsstring) : chunk :=
  flat_map encode_code_point (code_points s).

(** *** The decoder behind [TextDecoder.decode] *)

Record state := mkState {
  code_point : N;
  bytes_seen : N;
  bytes_needed : N;
  lower_boundary : N;
  upper_boundary : N
}.

Definition initial : state := mkState 0 0 0 128 191.

(** The handler when no sequence is open. *)
Definition lead (b : octet) : state * list N :=
  if b <=? 127 then (initial, [b])
  else if (194 <=? b) && (b <=? 223) then
    (mkState (N.land b 31) 0 1 128 191, [])
  else if (224 <=? b) && (b <=? 239) then
    (mkState (N.land b 15) 0 2
       (if b =? 224 then 160 else 128)
       (if b =? 237 then 159 else 191), [])
  else if (240 <=? b) && (b <=? 244) then
    (mkState (N.land b 7) 0 3
       (if b =? 240 then 144 else 128)
       (if b =? 244 then 143 else 191), [])
  else (initial, [REPLACEMENT]).

(** One byte through the handler, in replacement mode.  A byte that
    cannot continue the open sequence ends it with U+FFFD and is then
    handled again from the initial state. *)
Definition step (st : state) (b : octet) : state * list N :=
  if bytes_needed st =? 0 then lead b
  else if (lower_boundary st <=? b) && (b <=? upper_boundary st) then
    let cp := N.lor (N.shiftl (code_point st) 6) (N.land b 63) in
    let seen := bytes_seen st + 1 in
    if seen =? bytes_needed st then (initial, [cp])
    else (mkState cp seen (bytes_needed st) 128 191, [])
  else
    let '(st', out) := lead b in (st', REPLACEMENT :: out).

Fixpoint run (st : state) (bs : chunk) : state * list N :=
  match bs with
  | [] => (st, [])
  | b :: r =>
      let '(st1, out1) := step st b in
      let '(st2, out2) := run st1 r in
      (st2, out1 ++ out2)
  end.

(** End of queue: an open sequence yields one U+FFFD. *)
Definition flush (st : state) : list N :=
  if bytes_needed st =? 0 then [] else [REPLACEMENT].

(** A code point as code units of the resulting string. *)
Definition code_units (cp : N) : jsstring :=
  if cp <? 65536 then [cp]
  else [55296 + N.shiftr (cp - 65536) 10; 56320 + N.land (cp - 65536) 1023].

End UTF8.

(** ** [TextDecoder]

    The decoder object keeps the UTF-8 state and the "BOM seen" flag.
    With [{stream: true}] neither is reset between calls and the end of
    the chunk is not an end of queue. *)

Record TextDecoder := mkDecoder {
  utf8 : UTF8.state;
  BOM_seen : bool
}.

Definition new_TextDecoder : TextDecoder := mkDecoder UTF8.initial false.

Definition BOM : N := 65279.

(** Serialising the decoded code points: the very first one is dropped
    when it is U+FEFF. *)
Fixpoint serialize (seen : bool) (cps : list N) : bool * jsstring :=
  match cps with
  | [] => (seen, [])
  | cp :: r =>
      if seen then
        let '(f, out) := serialize true r in (f, UTF8.code_units cp ++ out)
      else if cp =? BOM then serialize true r
      else let '(f, out) := serialize true r in (f, UTF8.code_units cp ++ out)
  end.

(** [decoder.decode(value, {stream: true})] *)
Definition decode_stream (d : TextDecoder) (value : chunk)
  : TextDecoder * jsstring :=
  let '(st, cps) := UTF8.run (utf8 d) value in
  let '(seen, text) := serialize (BOM_seen d) cps in
  (mkDecoder st seen, text).

(** [decoder.decode(value)]: the decoder starts afresh on every call and
    the end of [value] is the end of the queue. *)
Definition decode (value : chunk) : jsstring :=
  let '(st, cps) := UTF8.run UTF8.initial value in
  snd (serialize false (cps ++ UTF8.flush st)).

(** ** JSON *)

Module JSON.

(** *** [JSON.stringify] on the object literals the encoder builds

    Their properties hold strings and booleans only. *)

Inductive field_value :=
| Str (s : jsstring)
| Bool (b : bool).

Definition object_literal := list (jsstring * field_value).

Definition hex_digit (n : N) : code_unit :=
  if n <? 10 then 48 + n else 87 + n.

(** A backslash, [u] and four lower-case hexadecimal digits. *)
Definition unicode_escape (c : code_unit) : jsstring :=
  [92; 117;
   hex_digit (N.shiftr c 12);
   hex_digit (N.land (N.shiftr c 8) 15);
   hex_digit (N.land (N.shiftr c 4) 15);
   hex_digit (N.land c 15)].

Definition quote_unit (c : code_unit) : jsstring :=
  if c =? 8 then [92; 98]
  else if c =? 9 then [92; 116]
  else if c =? 10 then [92; 110]
  else if c =? 12 then [92; 102]
  else if c =? 13 then [92; 114]
  else if c =? 34 then [92; 34]
  else if c =? 92 then [92; 92]
  else if c <? 32 then unicode_escape c
  else [c].

(** QuoteJSONString walks the code points of the string: a surrogate
    pair is copied, a surrogate on its own is escaped. *)
Fixpoint quote_chars (s : jsstring) : jsstring :=
  match s with
  | [] => []
  | c :: r =>
      if is_high_surrogate c then
        match r with
        | l :: r' =>
            if is_low_surrogate l then c :: l :: quote_chars r'
            else unicode_escape c ++ quote_chars r
        | [] => unicode_escape c
        end
      else if is_low_surrogate c then unicode_escape c ++ quote_chars r
      else quote_unit c ++ quote_chars r
  end.

Definition quote (s : jsstring) : jsstring := 34 :: quote_chars s ++ [34].

Definition stringify_value (v : field_value) : jsstring :=
  match v with
  | Str s => quote s
  | Bool true => js "true"
  | Bool false => js "false"
  end.

Fixpoint stringify_members (o : object_literal) : jsstring :=
  match o with
  | [] => []
  | [(k, v)] => quote k ++ 58 :: stringify_value v
  | (k, v) :: r => quote k ++ 58 :: stringify_value v ++ 44 :: stringify_members r
  end.

Definition stringify (o : object_literal) : jsstring :=
  123 :: stringify_members o ++ [125].

(** *** [JSON.parse] *)

(** A number keeps the literal it was read from: what the literal
    denotes as an IEEE double is left to the platform. *)
#[warnings="-register-all"]
Inductive json :=
| JNull
| JBool (b : bool)
| JNumber (literal : jsstring)
| JString (s : jsstring)
| JArray (items : list json)
| JObject (members : list (jsstring * json)).

Definition is_ws (c : code_unit) : bool :=
  (c =? 32) || (c =? 9) || (c =? 10) || (c =? 13).

Fixpoint skip_ws (s : jsstring) : jsstring :=
  match s with
  | c :: r => if is_ws c then skip_ws r else s
  | [] => []
  end.

Definition is_digit (c : code_unit) : bool := (48 <=? c) && (c <=? 57).

Definition hex_value (c : code_unit) : option N :=
  if is_digit c then Some (c - 48)
  else if (97 <=? c) && (c <=? 102) then Some (c - 87)
  else if (65 <=? c) && (c <=? 70) then Some (c - 55)
  else None.

Definition hex4 (a b c d : code_unit) : option code_unit :=
  match hex_value a, hex_value b, hex_value c, hex_value d with
  | Some x, Some y, Some z, Some w => Some (((x * 16 + y) * 16 + z) * 16 + w)
  | _, _, _, _ => None
  end.

Definition unescape (e : code_unit) : option code_unit :=
  if e =? 34 then Some 34
  else if e =? 92 then Some 92
  else if e =? 47 then Some 47
  else if e =? 98 then Some 8
  else if e =? 102 then Some 12
  else if e =? 110 then Some 10
  else if e =? 114 then Some 13
  else if e =? 116 then Some 9
  else None.

Definition push (c : code_unit) (r : option (jsstring * jsstring))
  : option (jsstring * jsstring) :=
  match r with
  | Some (str, rest) => Some (c :: str, rest)
  | None => None
  end.

(** The characters of a string literal after its opening quote, and
    what follows the closing quote. *)
Fixpoint parse_string_chars (s : jsstring) : option (jsstring * jsstring) :=
  match s with
  | [] => None
  | c :: r =>
      if c =? 34 then Some ([], r)
      else if c =? 92 then
        match r with
        | [] => None
        | e :: r1 =>
            if e =? 117 then
              match r1 with
              | h1 :: h2 :: h3 :: h4 :: r2 =>
                  match hex4 h1 h2 h3 h4 with
                  | Some u => push u (parse_string_chars r2)
                  | None => None
                  end
              | _ => None
              end
            else
              match unescape e with
              | Some u => push u (parse_string_chars r1)
              | None => None
              end
        end
      else if c <? 32 then None
      else push c (parse_string_chars r)
  end.

Fixpoint digits (s : jsstring) : jsstring * jsstring :=
  match s with
  | c :: r =>
      if is_digit c then let '(ds, rest) := digits r in (c :: ds, rest)
      else ([], s)
  | [] => ([], [])
  end.

(** A numeric literal: an optional minus sign, then a zero or a digit
    from 1 to 9 followed by digits, then optionally a point and at least
    one digit, then optionally an exponent mark, a sign and at least one
    digit. *)
Definition parse_number (s : jsstring) : option (jsstring * jsstring) :=
  let '(sign, s1) :=
    match s with
    | c :: r => if c =? 45 then ([c], r) else ([], s)
    | [] => ([], s)
    end in
  match s1 with
  | [] => None
  | d :: r1 =>
      if negb (is_digit d) then None
      else
        let '(int, s2) :=
          if d =? 48 then ([d], r1)
          else let '(ds, rest) := digits r1 in (d :: ds, rest) in
        let frac :=
          match s2 with
          | p :: r2 =>
              if p =? 46 then
                match digits r2 with
                | ([], _) => None
                | (ds, rest) => Some (p :: ds, rest)
                end
              else Some ([], s2)
          | [] => Some ([], s2)
          end in
        match frac with
        | None => None
        | Some (fr, s3) =>
            let exp :=
              match s3 with
              | e :: r3 =>
                  if (e =? 101) || (e =? 69) then
                    let '(sg, r4) :=
                      match r3 with
                      | g :: r' =>
                          if (g =? 43) || (g =? 45) then ([g], r') else ([], r3)
                      | [] => ([], r3)
                      end in
                    match digits r4 with
                    | ([], _) => None
                    | (ds, rest) => Some (e :: sg ++ ds, rest)
                    end
                  else Some ([], s3)
              | [] => Some ([], s3)
              end in
            match exp with
            | None => None
            | Some (ex, s4) => Some (sign ++ int ++ fr ++ ex, s4)
            end
        end
  end.

(** Recursive descent; [fuel] bounds the depth of the calls. *)
Fixpoint parse_value (fuel : nat) (s : jsstring) {struct fuel}
  : option (json * jsstring) :=
  match fuel with
  | O => None
  | S fuel' =>
      match skip_ws s with
      | [] => None
      | c :: r =>
          if c =? 34 then
            match parse_string_chars r with
            | Some (str, rest) => Some (JString str, rest)
            | None => None
            end
          else if c =? 91 then
            match skip_ws r with
            | c' :: r' =>
                if c' =? 93 then Some (JArray [], r')
                else
                  match parse_elements fuel' r with
                  | Some (vs, rest) => Some (JArray vs, rest)
                  | None => None
                  end
            | [] => None
            end
          else if c =? 123 then
            match skip_ws r with
            | c' :: r' =>
                if c' =? 125 then Some (JObject [], r')
                else
                  match parse_members fuel' r with
                  | Some (ms, rest) => Some (JObject ms, rest)
                  | None => None
                  end
            | [] => None
            end
          else if startsWith (js "true") (c :: r) then
            Some (JBool true, skipn 4 (c :: r))
          else if startsWith (js "false") (c :: r) then
            Some (JBool false, skipn 5 (c :: r))
          else if startsWith (js "null") (c :: r) then
            Some (JNull, skipn 4 (c :: r))
          else
            match parse_number (c :: r) with
            | Some (lit, rest) => Some (JNumber lit, rest)
            | None => None
            end
      end
  end

with parse_elements (fuel : nat) (s : jsstring) {struct fuel}
  : option (list json * jsstring) :=
  match fuel with
  | O => None
  | S fuel' =>
      match parse_value fuel' s with
      | None => None
      | Some (v, r) =>
          match skip_ws r with
          | c :: r' =>
              if c =? 44 then
                match parse_elements fuel' r' with
                | Some (vs, rest) => Some (v :: vs, rest)
                | None => None
                end
              else if c =? 93 then Some ([v], r')
              else None
          | [] => None
          end
      end
  end

with parse_members (fuel : nat) (s : jsstring) {struct fuel}
  : option (list (jsstring * json) * jsstring) :=
  match fuel with
  | O => None
  | S fuel' =>
      match skip_ws s with
      | q :: r0 =>
          if q =? 34 then
            match parse_string_chars r0 with
            | None => None
            | Some (k, r1) =>
                match skip_ws r1 with
                | colon :: r2 =>
                    if colon =? 58 then
                      match parse_value fuel' r2 with
                      | None => None
                      | Some (v, r3) =>
                          match skip_ws r3 with
                          | c :: r4 =>
                              if c =? 44 then
                                match parse_members fuel' r4 with
                                | Some (ms, rest) => Some ((k, v) :: ms, rest)
                                | None => None
                                end
                              else if c =? 125 then Some ([(k, v)], r4)
                              else None
                          | [] => None
                          end
                      end
                    else None
                | [] => None
                end
            end
          else None
      | [] => None
      end
  end.

(** [JSON.parse(text)]; [None] is the SyntaxError.  Every call of the
    parser above that spends fuel has read a character of [text] or is
    about to, so twice its length is enough. *)
Definition parse (text : jsstring) : option json :=
  match parse_value (3 + 2 * length text) text with
  | Some (v, rest) =>
      match skip_ws rest with
      | [] => Some v
      | _ :: _ => None
      end
  | None => None
  end.

(** *** Reading a property of a parsed value *)

Fixpoint string_eqb (a b : jsstring) : bool :=
  match a, b with
  | [], [] => true
  | x :: a', y :: b' => (x =? y) && string_eqb a' b'
  | _, _ => false
  end.

(** The last member with the key is the one the object keeps. *)
Fixpoint lookup (k : jsstring) (ms : list (jsstring * json)) : option json :=
  match ms with
  | [] => None
  | (k', v) :: r =>
      match lookup k r with
      | Some v' => Some v'
      | None => if string_eqb k k' then Some v else None
      end
  end.

(** [data.k] on a parsed value that is not [null]: [None] is
    [undefined].  Only objects carry the properties the decoders read;
    reading a property of [null] throws and is left to the caller. *)
Definition lookup_property (data : json) (k : jsstring) : option json :=
  match data with
  | JObject ms => lookup k ms
  | _ => None
  end.

End JSON.

Import JSON.

(** What the model leaves to the JavaScript engine: whether a numeric
    literal denotes a non-zero number, and the string a value that is
    not a string is converted to when it is concatenated to one ([None]
    when the conversion throws). *)
Class Platform := {
  number_truthy : jsstring -> bool;
  to_primitive_string : json -> option jsstring
}.

Section Coercions.
Context {platform : Platform}.

(** ToBoolean, on what a property read gives. *)
Definition truthy (v : option json) : bool :=
  match v with
  | None => false
  | Some JNull => false
  | Some (JBool b) => b
  | Some (JNumber lit) => number_truthy lit
  | Some (JString s) => match s with [] => false | _ :: _ => true end
  | Some (JArray _) => true
  | Some (JObject _) => true
  end.

(** ToString of a value that is not [undefined]. *)
Definition to_string (v : json) : option jsstring :=
  match v with
  | JString s => Some s
  | _ => to_primitive_string v
  end.

End Coercions.

(** ** What is thrown and what a promise settles to *)

(** A value thrown by a collaborator: an [Error] (of any class) with
    its message, or something that is not an [Error]. *)
Inductive thrown :=
| ErrorObject (message : jsstring)
| NotAnError.

Inductive settled :=
| Resolved (value : jsstring)
| Rejected (reason : thrown).

(** The body of a response, as its reader delivers it: the chunks, then
    either end of data or a failing [read()]. *)
Inductive read_end :=
| Eof
| ReadFails (reason : thrown).

Record ReadableStream := mkStream {
  chunks : list chunk;
  ending : read_end
}.

Record Response := mkResponse {
  ok : bool;
  status : N;
  body : option ReadableStream
}.

(** ** The frame encoder: [createStreamResponse] *)

(** The units of the generator, with every optional link of
    [candidates?.[0]?.content?.parts?.[0]?.text]. *)
Record Part := mkPart { text : option jsstring }.
Record Content := mkContent { parts : option (list Part) }.
Record Candidate := mkCandidate { content : option Content }.
Record GenerateContentResponse := mkUnit { candidates : option (list Candidate) }.

(** An async generator that is pulled to its end: the units it yields,
    then its return or the exception it raises. *)
Inductive generator_end :=
| Completes
| Raises (error : thrown).

Record AsyncGenerator := mkGenerator {
  yields : list GenerateContentResponse;
  finish : generator_end
}.

(** The calls made on the stream controller. *)
Inductive controller_call :=
| enqueue (bytes : chunk)
| close.

Definition first_text (u : GenerateContentResponse) : option jsstring :=
  match candidates u with
  | Some (c :: _) =>
      match content c with
      | Some k =>
          match parts k with
          | Some (p :: _) => text p
          | _ => None
          end
      | None => None
      end
  | _ => None
  end.

(** [`data: ${JSON.stringify(o)}\n\n`] *)
Definition frame_text (o : object_literal) : jsstring :=
  js "data: " ++ JSON.stringify o ++ [LF; LF].

Definition content_frame (t : jsstring) : object_literal :=
  [(js "content", Str t); (js "done", Bool false)].

Definition done_frame : object_literal :=
  [(js "content", Str []); (js "done", Bool true)].

Definition error_frame (error : thrown) : object_literal :=
  [(js "error",
    Str match error with
        | ErrorObject message => message
        | NotAnError => js "Streaming failed"
        end);
   (js "done", Bool true)].

(** The body of the [for await] loop. *)
Definition on_unit (u : GenerateContentResponse) : list controller_call :=
  match first_text u with
  | Some (c :: t) => [enqueue (UTF8.encode (frame_text (content_frame (c :: t))))]
  | Some [] => []
  | None => []
  end.

(** The consumer of the stream while [start] runs.  It leaves the
    stream alone until [start] has returned, or it cancels the stream
    while [start] waits for the generator, when [pulled] units have
    been handled.  From then on [controller.enqueue] and
    [controller.close] throw a [TypeError], whose message is the
    engine's. *)
Inductive consumer :=
| reads_to_end
| cancels_after (pulled : nat) (message : jsstring).

(** The controller of the stream: the calls it has accepted, and the
    message of the error it throws once the stream is cancelled. *)
Record controller := mkController {
  accepted : list controller_call;
  refusal : option jsstring
}.

(** [start] waits for the generator: the consumer may cancel now. *)
Definition await_unit (reader : consumer) (pulled : nat) (c : controller)
  : controller :=
  match reader with
  | reads_to_end => c
  | cancels_after n message =>
      if Nat.eqb n pulled then mkController (accepted c) (Some message) else c
  end.

(** Calls on the controller, one after the other, until one throws.
    ([start] makes no call after a [close] that was accepted.) *)
Fixpoint calls_on (c : controller) (xs : list controller_call)
  : controller * option thrown :=
  match xs with
  | [] => (c, None)
  | x :: r =>
      match refusal c with
      | Some message => (c, Some (ErrorObject message))
      | None => calls_on (mkController (accepted c ++ [x]) None) r
      end
  end.

(** The [for await] loop; it is left when a call of its body throws. *)
Fixpoint for_await (reader : consumer) (pulled : nat)
    (units : list GenerateContentResponse) (c : controller)
  : controller * option thrown :=
  match units with
  | [] => (c, None)
  | u :: rest =>
      match calls_on (await_unit reader pulled c) (on_unit u) with
      | (c', None) => for_await reader (S pulled) rest c'
      | (c', Some error) => (c', Some error)
      end
  end.

(** The [try] block of [start]: the loop and, when the generator
    returns, the completion frame and [close].  What the generator
    raises and what the controller throws both leave the block. *)
Definition start_try (generator : AsyncGenerator) (reader : consumer)
    (c : controller) : controller * option thrown :=
  match for_await reader 0 (yields generator) c with
  | (c1, None) =>
      let c2 := await_unit reader (length (yields generator)) c1 in
      match finish generator with
      | Completes =>
          calls_on c2 [enqueue (UTF8.encode (frame_text done_frame)); close]
      | Raises error => (c2, Some error)
      end
  | (c1, Some error) => (c1, Some error)
  end.

(** The [catch] block of [start]: the error frame and [close]; nothing
    guards these calls. *)
Definition start_catch (c : controller) (error : thrown)
  : controller * option thrown :=
  calls_on c [enqueue (UTF8.encode (frame_text (error_frame error))); close].

(** [start(controller)], by the calls that the controller accepted.
    When the [catch] block throws too, the promise of [start] is
    rejected; the stream is cancelled by then. *)
Definition start (generator : AsyncGenerator) (reader : consumer)
  : list controller_call :=
  match start_try generator reader (mkController [] None) with
  | (c, None) => accepted c
  | (c, Some error) => accepted (fst (start_catch c error))
  end.

(** What a reader of the stream gets: the chunks enqueued before the
    controller was closed. *)
Fixpoint enqueued (calls : list controller_call) : list chunk :=
  match calls with
  | [] => []
  | enqueue bytes :: r => bytes :: enqueued r
  | close :: _ => []
  end.

(** The response, as a reader that reads it to its end gets it. *)
Definition createStreamResponse (generator : AsyncGenerator) : Response :=
  mkResponse true 200
    (Some (mkStream (enqueued (start generator reads_to_end)) Eof)).

(** ** The frame decoder: [StreamProcessor] *)

Record StreamProcessor := mkProcessor {
  decoder : TextDecoder;
  buffer : jsstring
}.

Definition new_StreamProcessor : StreamProcessor :=
  mkProcessor new_TextDecoder [].

Definition reset (p : StreamProcessor) : StreamProcessor :=
  mkProcessor (decoder p) [].

(** The handler is taken with its three callbacks present; each call is
    recorded with its argument, and none of them throws. *)
Inductive handler_call :=
| onChunk (chunk : json)
| onComplete (fullText : jsstring)
| onError (error : thrown).

(** The variables the loop of [processStream] updates. *)
Record locals := mkLocals {
  fullText : jsstring;
  calls : list handler_call
}.

(** What is raised inside the inner [try] block. *)
Inductive raised :=
| SyntaxError
| TypeError
| NewError (message : jsstring).

Inductive completion :=
| Normal (l : locals)
| Return (l : locals)
| Throw (l : locals) (e : raised).

Inductive loop_exit :=
| Continue (l : locals)
| Returned (l : locals).

Section Decoder.
Context {platform : Platform}.

(** The inner [try] block of [processStream], lines 37 to 51. *)
Definition try_block (l : locals) (line : jsstring) : completion :=
  match JSON.parse (slice 6 line) with
  | None => Throw l SyntaxError
  | Some JNull => Throw l TypeError
  | Some data =>
      let error := JSON.lookup_property data (js "error") in
      if truthy error then
        match error with
        | Some e =>
            match to_string e with
            | Some message => Throw l (NewError message)
            | None => Throw l TypeError
            end
        | None => Throw l TypeError
        end
      else
        let content := JSON.lookup_property data (js "content") in
        let after_content :=
          if truthy content then
            match content with
            | Some c =>
                match to_string c with
                | Some t =>
                    Normal (mkLocals (fullText l ++ t) (calls l ++ [onChunk c]))
                | None => Throw l TypeError
                end
            | None => Throw l TypeError
            end
          else Normal l in
        match after_content with
        | Normal l1 =>
            if truthy (JSON.lookup_property data (js "done")) then
              Return (mkLocals (fullText l1)
                               (calls l1 ++ [onComplete (fullText l1)]))
            else Normal l1
        | other => other
        end
  end.

(** One turn of [for (const line of lines)]: the [catch] of the inner
    [try] has no binding and continues with the next line. *)
Definition for_body (l : locals) (line : jsstring) : loop_exit :=
  if startsWith (js "data: ") line then
    match try_block l line with
    | Normal l' => Continue l'
    | Return l' => Returned l'
    | Throw l' _ => Continue l'
    end
  else Continue l.

Fixpoint for_lines (l : locals) (lines : list jsstring) : loop_exit :=
  match lines with
  | [] => Continue l
  | line :: rest =>
      match for_body l line with
      | Continue l' => for_lines l' rest
      | Returned l' => Returned l'
      end
  end.

(** How the [while (true)] loop is left. *)
Inductive while_exit :=
| Break (l : locals)
| ReturnedInside (l : locals)
| ReadThrew (l : locals) (reason : thrown).

Fixpoint while_loop (p : StreamProcessor) (l : locals)
    (values : list chunk) (e : read_end) : StreamProcessor * while_exit :=
  match values with
  | [] =>
      match e with
      | Eof => (p, Break l)
      | ReadFails reason => (p, ReadThrew l reason)
      end
  | value :: rest =>
      let '(d, decoded) := decode_stream (decoder p) value in
      let lines := split_lines (buffer p ++ decoded) in
      let p' := mkProcessor d (last lines []) in
      match for_lines l (removelast lines) with
      | Continue l' => while_loop p' l' rest e
      | Returned l' => (p', ReturnedInside l')
      end
  end.

Record run := mkRun {
  processor : StreamProcessor;
  handler_calls : list handler_call;
  result : settled
}.

Definition processStream (p : StreamProcessor) (response : Response) : run :=
  match body response with
  | None => mkRun p [] (Rejected (ErrorObject (js "Response body is null")))
  | Some stream =>
      match while_loop p (mkLocals [] []) (chunks stream) (ending stream) with
      | (p', Break l) =>
          mkRun p' (calls l ++ [onComplete (fullText l)]) (Resolved (fullText l))
      | (p', ReturnedInside l) => mkRun p' (calls l) (Resolved (fullText l))
      | (p', ReadThrew l reason) =>
          let err :=
            match reason with
            | ErrorObject _ => reason
            | NotAnError => ErrorObject (js "Unknown streaming error")
            end in
          mkRun p' (calls l ++ [onError err]) (Rejected err)
      end
  end.

End Decoder.

(** ** The decode loop of the hook: [useGenAI.chatStream]

    The model starts when [fetch] has resolved.  The options are taken
    with their callbacks present; the state setters of the component
    ([setResponse], [setError], ...) are not recorded. *)

Inductive option_call :=
| onStreamChunk (chunk : json)
| onStreamComplete (fullResponse : jsstring)
| onSuccess (response : jsstring)
| options_onError (message : jsstring).

Record hook_locals := mkHookLocals {
  fullResponse : jsstring;
  option_calls : list option_call
}.

Inductive hook_completion :=
| HNormal (l : hook_locals)
| HReturn (l : hook_locals)
| HThrow (l : hook_locals) (e : raised).

Inductive hook_loop_exit :=
| HContinue (l : hook_locals)
| HReturned (l : hook_locals).

Section Hook.
Context {platform : Platform}.

(** The inner [try] block, lines 126 to 142. *)
Definition hook_try_block (l : hook_locals) (line : jsstring) : hook_completion :=
  match JSON.parse (slice 6 line) with
  | None => HThrow l SyntaxError
  | Some JNull => HThrow l TypeError
  | Some data =>
      let error := JSON.lookup_property data (js "error") in
      if truthy error then
        match error with
        | Some e =>
            match to_string e with
            | Some message => HThrow l (NewError message)
            | None => HThrow l TypeError
            end
        | None => HThrow l TypeError
        end
      else
        let content := JSON.lookup_property data (js "content") in
        let after_content :=
          if truthy content then
            match content with
            | Some c =>
                match to_string c with
                | Some t =>
                    HNormal (mkHookLocals (fullResponse l ++ t)
                                          (option_calls l ++ [onStreamChunk c]))
                | None => HThrow l TypeError
                end
            | None => HThrow l TypeError
            end
          else HNormal l in
        match after_content with
        | HNormal l1 =>
            if truthy (JSON.lookup_property data (js "done")) then
              HReturn (mkHookLocals (fullResponse l1)
                         (option_calls l1 ++
                          [onStreamComplete (fullResponse l1);
                           onSuccess (fullResponse l1)]))
            else HNormal l1
        | other => other
        end
  end.

Definition hook_for_body (l : hook_locals) (line : jsstring) : hook_loop_exit :=
  if startsWith (js "data: ") line then
    match hook_try_block l line with
    | HNormal l' => HContinue l'
    | HReturn l' => HReturned l'
    | HThrow l' _ => HContinue l'
    end
  else HContinue l.

Fixpoint hook_for_lines (l : hook_locals) (lines : list jsstring) : hook_loop_exit :=
  match lines with
  | [] => HContinue l
  | line :: rest =>
      match hook_for_body l line with
      | HContinue l' => hook_for_lines l' rest
      | HReturned l' => HReturned l'
      end
  end.

Inductive hook_while_exit :=
| HBreak (l : hook_locals)
| HReturnedInside (l : hook_locals)
| HReadThrew (l : hook_locals) (reason : thrown).

(** Every chunk is decoded on its own and every segment of it is
    looked at, the last one included. *)
Fixpoint hook_while_loop (l : hook_locals) (values : list chunk) (e : read_end)
  : hook_while_exit :=
  match values with
  | [] =>
      match e with
      | Eof => HBreak l
      | ReadFails reason => HReadThrew l reason
      end
  | value :: rest =>
      let lines := split_lines (decode value) in
      match hook_for_lines l lines with
      | HContinue l' => hook_while_loop l' rest e
      | HReturned l' => HReturnedInside l'
      end
  end.

Record hook_run := mkHookRun {
  hook_calls : list option_call;
  hook_result : settled
}.

Definition error_message (err : thrown) : jsstring :=
  match err with
  | ErrorObject message => message
  | NotAnError => js "An error occurred"
  end.

(** The outer [catch]: report the message, throw the same value again. *)
Definition hook_catch (l : hook_locals) (err : thrown) : hook_run :=
  mkHookRun (option_calls l ++ [options_onError (error_message err)]) (Rejected err).

Definition chatStream (response : Response) : hook_run :=
  let l0 := mkHookLocals [] [] in
  if negb (ok response) then
    hook_catch l0
      (ErrorObject (js "HTTP error! status: " ++
                    js (NilEmpty.string_of_uint (N.to_uint (status response)))))
  else
    match body response with
    | None => hook_catch l0 (ErrorObject (js "No reader available"))
    | Some stream =>
        match hook_while_loop l0 (chunks stream) (ending stream) with
        | HBreak l => mkHookRun (option_calls l) (Resolved (fullResponse l))
        | HReturnedInside l => mkHookRun (option_calls l) (Resolved (fullResponse l))
        | HReadThrew l reason => hook_catch l reason
        end
    end.

End Hook.

(** * The rest of [src/lib/streaming.ts] *)

(** ** [simulateTypingEffect]

    The generator yields [text[i]] for [i] from [0] while
    [i < text.length], and waits [delay] milliseconds after each one;
    the waiting is not modelled.  [text[i]] is the string of the code
    unit at index [i], or [undefined] ([None]) outside the string. *)

Definition char_at (text : jsstring) (i : nat) : option jsstring :=
  match nth_error text i with
  | Some c => Some [c]
  | None => None
  end.

Definition simulateTypingEffect (text : jsstring) : list (option jsstring) :=
  map (char_at text) (seq 0 (length text)).

(** ** [debounceStream]

    The timers of the platform, as far as the debouncer uses them:
    [setTimeout] gives a new id and makes the timer pending,
    [clearTimeout] of an id removes it if it is pending, and of
    [undefined] does nothing. *)

Module Timers.

Record timers := mkTimers {
  pending : list nat;
  next_id : nat
}.

Definition none : timers := mkTimers [] 0.

Definition setTimeout (t : timers) : nat * timers :=
  (next_id t, mkTimers (next_id t :: pending t) (S (next_id t))).

Definition clearTimeout (id : option nat) (t : timers) : timers :=
  match id with
  | None => t
  | Some i => mkTimers (List.remove Nat.eq_dec i (pending t)) (next_id t)
  end.

Definition is_pending (id : nat) (t : timers) : bool :=
  existsb (Nat.eqb id) (pending t).

(** The timer has run. *)
Definition done (id : nat) (t : timers) : timers :=
  mkTimers (List.remove Nat.eq_dec id (pending t)) (next_id t).

End Timers.

Section Debounce.
Variable T : Type.

(** The variables of the closure: [timeoutId] and [latestValue], both
    [undefined] at first. *)
Record debouncer := mkDebouncer {
  timeoutId : option nat;
  latestValue : option T
}.

Definition debounceStream : debouncer := mkDebouncer None None.

(** A call of the function that [debounceStream] returns. *)
Definition debounced_call (value : T) (c : debouncer) (t : Timers.timers)
  : debouncer * Timers.timers :=
  let t1 := Timers.clearTimeout (timeoutId c) t in
  let '(id, t2) := Timers.setTimeout t1 in
  (mkDebouncer (Some id) (Some value), t2).

(** The platform runs the timer [id]: if it is still pending, its
    function calls [callback(latestValue)], with the variable as it is
    then. *)
Definition timer_runs (id : nat) (c : debouncer) (t : Timers.timers)
  : option (option T) * Timers.timers :=
  if Timers.is_pending id t then (Some (latestValue c), Timers.done id t)
  else (None, t).

(** What happens to a debouncer, in order. *)
Inductive debounce_event :=
| Invoke (value : T)
| Elapse (id : nat).

(** For each event, the argument of the call of [callback] it caused,
    if it caused one. *)
Fixpoint debounce_run (c : debouncer) (t : Timers.timers)
    (events : list debounce_event) : list (option (option T)) :=
  match events with
  | [] => []
  | Invoke value :: rest =>
      let '(c', t') := debounced_call value c t in
      None :: debounce_run c' t' rest
  | Elapse id :: rest =>
      let '(out, t') := timer_runs id c t in
      out :: debounce_run c t' rest
  end.

End Debounce.

Arguments Elapse {T} id.

(** * The service, the routes and the request functions of the hook

    [src/lib/genai.ts], the [POST] handlers of the chat, generate and
    chat-stream routes, and [chat] and [generate] of
    [src/hooks/useGenAI.ts].  Logging is not modelled. *)

(** A promise that has settled. *)
Inductive promise (A : Type) :=
| Fulfils (value : A)
| Rejects (reason : thrown).

Arguments Fulfils {A} value.
Arguments Rejects {A} reason.

(** The errors that the engine raises itself; each is an [Error] whose
    message is the engine's own. *)
Inductive engine_error :=
| not_JSON
| property_of_null
| no_string.

Class Engine := {
  engine_message : engine_error -> jsstring
}.

Definition engine_throws {engine : Engine} (e : engine_error) : thrown :=
  ErrorObject (engine_message e).

(** [json()] of a request or response body: the bytes are decoded as
    UTF-8 and parsed. *)
Definition Body_json {engine : Engine} (bytes : chunk) : promise json :=
  match JSON.parse (decode bytes) with
  | Some v => Fulfils v
  | None => Rejects (engine_throws not_JSON)
  end.

(** [response.json()]: the body is read to its end first; a response
    without body has no bytes. *)
Definition Response_json {engine : Engine} (response : Response) : promise json :=
  match body response with
  | None => Body_json []
  | Some stream =>
      match ending stream with
      | Eof => Body_json (concat (chunks stream))
      | ReadFails reason => Rejects reason
      end
  end.

(** A response whose body is [JSON.stringify(o)]:
    [NextResponse.json(o, {status})] and
    [new Response(JSON.stringify(o), {status})]. *)
Definition json_response (o : object_literal) (status : N) : Response :=
  mkResponse ((200 <=? status) && (status <=? 299)) status
             (Some (mkStream [UTF8.encode (JSON.stringify o)] Eof)).

(** ** [GenAIService] *)

Inductive role := user | model.

(** [this.models] of the SDK; an entry of [contents] is a role and the
    text of its one part. *)
Record Models := mkModels {
  generateContent : list (role * jsstring) -> promise GenerateContentResponse;
  generateContentStream : list (role * jsstring) -> promise AsyncGenerator
}.

Module GenAIService.

Record t := new { models : Models }.

(** [result.candidates?.[0]?.content?.parts?.[0]?.text
     || 'No response generated'] *)
Definition response_text (result : GenerateContentResponse) : jsstring :=
  match first_text result with
  | Some (c :: r) => c :: r
  | Some [] => js "No response generated"
  | None => js "No response generated"
  end.

Definition generateResponse (this : t) (prompt : jsstring) : promise jsstring :=
  match generateContent (models this) [(user, prompt)] with
  | Fulfils result => Fulfils (response_text result)
  | Rejects _ => Rejects (ErrorObject (js "Failed to generate AI response"))
  end.

Definition generateStreamResponse (this : t) (prompt : jsstring)
  : promise AsyncGenerator :=
  match generateContentStream (models this) [(user, prompt)] with
  | Fulfils result => Fulfils result
  | Rejects _ => Rejects (ErrorObject (js "Failed to generate streaming AI response"))
  end.

Definition chatStream (this : t) (messages : list (role * jsstring))
  : promise AsyncGenerator :=
  match generateContentStream (models this) messages with
  | Fulfils result => Fulfils result
  | Rejects _ => Rejects (ErrorObject (js "Failed to process streaming chat message"))
  end.

Definition chat (this : t) (messages : list (role * jsstring)) : promise jsstring :=
  match generateContent (models this) messages with
  | Fulfils result => Fulfils (response_text result)
  | Rejects _ => Rejects (ErrorObject (js "Failed to process chat message"))
  end.

End GenAIService.

(** ** The routes *)

(** [error instanceof Error ? error.message : 'An unexpected error
    occurred'] *)
Definition route_error_message (error : thrown) : jsstring :=
  match error with
  | ErrorObject message => message
  | NotAnError => js "An unexpected error occurred"
  end.

(** [context ? `Context: ${context}\n\nUser: ${message}` : message] *)
Definition prompt_for {platform : Platform} {engine : Engine}
    (context : option json) (message : jsstring) : promise jsstring :=
  if truthy context then
    match context with
    | Some c =>
        match to_string c with
        | Some t =>
            Fulfils (js "Context: " ++ t ++ [LF; LF] ++ js "User: " ++ message)
        | None => Rejects (engine_throws no_string)
        end
    | None => Fulfils message
    end
  else Fulfils message.

(** [POST] of [src/app/api/chat/route.ts]; the request is given by the
    bytes of its body. *)
Module ChatRoute.
Section Handler.
Context {platform : Platform} {engine : Engine}.
Variable genaiService : GenAIService.t.

Definition catch_block (error : thrown) : Response :=
  json_response [(js "success", Bool false);
                 (js "error", Str (route_error_message error))] 500.

Definition POST (request : chunk) : Response :=
  match Body_json request with
  | Rejects error => catch_block error
  | Fulfils JNull => catch_block (engine_throws property_of_null)
  | Fulfils body =>
      match lookup_property body (js "message") with
      | Some (JString (c :: r)) =>
          match prompt_for (lookup_property body (js "context")) (c :: r) with
          | Rejects error => catch_block error
          | Fulfils prompt =>
              match GenAIService.generateResponse genaiService prompt with
              | Fulfils response =>
                  json_response [(js "success", Bool true);
                                 (js "message", Str response)] 200
              | Rejects error => catch_block error
              end
          end
      | _ =>
          json_response [(js "success", Bool false);
                         (js "error", Str (js "Message is required"))] 400
      end
  end.

End Handler.
End ChatRoute.

(** [POST] of the generate route. *)
Module GenerateRoute.
Section Handler.
Context {platform : Platform} {engine : Engine}.
Variable genaiService : GenAIService.t.

Definition catch_block (error : thrown) : Response :=
  json_response [(js "success", Bool false);
                 (js "error", Str (route_error_message error))] 500.

Definition POST (request : chunk) : Response :=
  match Body_json request with
  | Rejects error => catch_block error
  | Fulfils JNull => catch_block (engine_throws property_of_null)
  | Fulfils body =>
      match lookup_property body (js "prompt") with
      | Some (JString (c :: r)) =>
          match GenAIService.generateResponse genaiService (c :: r) with
          | Fulfils response =>
              json_response [(js "success", Bool true);
                             (js "message", Str response)] 200
          | Rejects error => catch_block error
          end
      | _ =>
          json_response [(js "success", Bool false);
                         (js "error", Str (js "Prompt is required"))] 400
      end
  end.

End Handler.
End GenerateRoute.

(** [POST] of the chat-stream route. *)
Module ChatStreamRoute.
Section Handler.
Context {platform : Platform} {engine : Engine}.
Variable genaiService : GenAIService.t.

Definition catch_block (error : thrown) : Response :=
  json_response [(js "error", Str (route_error_message error))] 500.

Definition POST (request : chunk) : Response :=
  match Body_json request with
  | Rejects error => catch_block error
  | Fulfils JNull => catch_block (engine_throws property_of_null)
  | Fulfils body =>
      match lookup_property body (js "message") with
      | Some (JString (c :: r)) =>
          match prompt_for (lookup_property body (js "context")) (c :: r) with
          | Rejects error => catch_block error
          | Fulfils prompt =>
              match GenAIService.chatStream genaiService [(user, prompt)] with
              | Fulfils stream => createStreamResponse stream
              | Rejects error => catch_block error
              end
          end
      | _ => json_response [(js "error", Str (js "Message is required"))] 400
      end
  end.

End Handler.
End ChatStreamRoute.

(** ** [chat] and [generate] of the hook

    The state setters and the two callbacks of the options are
    recorded in the order in which they are called; the options are
    taken with their callbacks present.  A request is an object whose
    properties are strings or booleans. *)
Module UseGenAI.

Inductive effect :=
| setIsLoading (value : bool)
| setError (value : option jsstring)
| setResponse (value : json)
| onSuccess (response : json)
| onError (error : jsstring).

Record run := mkRun {
  effects : list effect;
  result : promise json
}.

(** [fetch(url, {method: 'POST', body})] *)
Definition Fetch := jsstring -> chunk -> promise Response.

Section Requests.
Context {platform : Platform} {engine : Engine}.
Variable fetch : Fetch.

(** [data.message || ''] *)
Definition message_or_empty (data : json) : json :=
  let message := lookup_property data (js "message") in
  if truthy message then
    match message with
    | Some v => v
    | None => JString []
    end
  else JString [].

(** The [try] block of [chat] (lines 22 to 39) and of [generate]
    (lines 55 to 72); they differ in the address and in the message
    used when the response names no error. *)
Definition try_block (url fallback : jsstring) (request : object_literal)
  : promise json :=
  match fetch url (UTF8.encode (JSON.stringify request)) with
  | Rejects reason => Rejects reason
  | Fulfils response =>
      match Response_json response with
      | Rejects reason => Rejects reason
      | Fulfils JNull => Rejects (engine_throws property_of_null)
      | Fulfils data =>
          if truthy (lookup_property data (js "success")) then
            Fulfils (message_or_empty data)
          else
            let error := lookup_property data (js "error") in
            if truthy error then
              match error with
              | Some e =>
                  match to_string e with
                  | Some message => Rejects (ErrorObject message)
                  | None => Rejects (engine_throws no_string)
                  end
              | None => Rejects (ErrorObject fallback)
              end
            else Rejects (ErrorObject fallback)
      end
  end.

(** The statements around the [try] block, its [catch] and its
    [finally]. *)
Definition request_run (url fallback : jsstring) (request : object_literal) : run :=
  match try_block url fallback request with
  | Fulfils value =>
      mkRun [setIsLoading true; setError None;
             setResponse value; onSuccess value;
             setIsLoading false]
            (Fulfils value)
  | Rejects err =>
      mkRun [setIsLoading true; setError None;
             setError (Some (error_message err)); onError (error_message err);
             setIsLoading false]
            (Rejects err)
  end.

Definition chat (request : object_literal) : run :=
  request_run (js "/api/chat") (js "Failed to get response") request.

Definition generate (request : object_literal) : run :=
  request_run (js "/api/generate") (js "Failed to generate response") request.

(** [chatStream] with its [fetch]; [chatStream] above is what follows
    when [fetch] has resolved. *)
Definition chatStream_fetch (request : object_literal) : hook_run :=
  match fetch (js "/api/chat-stream") (UTF8.encode (JSON.stringify request)) with
  | Rejects reason => hook_catch (mkHookLocals [] []) reason
  | Fulfils response => chatStream response
  end.

End Requests.
End UseGenAI.

(** * The vocabulary of the properties *)

(** ** Strings *)

(** A string made of code units outside the surrogate range that
    satisfy [P], and of surrogate pairs. *)
Inductive text_with (P : code_unit -> Prop) : jsstring -> Prop :=
| tw_nil : text_with P []
| tw_unit c r :
    c < 65536 -> is_high_surrogate c = false -> is_low_surrogate c = false ->
    P c -> text_with P r -> text_with P (c :: r)
| tw_pair h l r :
    is_high_surrogate h = true -> is_low_surrogate l = true ->
    text_with P r -> text_with P (h :: l :: r).

Definition any_unit (c : code_unit) : Prop := True.
Definition not_LF (c : code_unit) : Prop := c <> LF.

(** A Unicode scalar value: a code point that is not a surrogate. *)
Definition scalar (cp : N) : Prop :=
  cp < 55296 \/ (57344 <= cp /\ cp <= 1114111).

(** A unit that stands for itself inside a string literal. *)
Definition literal_unit (c : code_unit) : Prop :=
  c <> 34 /\ c <> 92 /\ 32 <= c.

(** How [quote_chars] starts on a string that is not empty. *)
Inductive quote_step (c : code_unit) (r : jsstring) : Prop :=
| qs_pair l r' :
    r = l :: r' -> is_high_surrogate c = true -> is_low_surrogate l = true ->
    quote_chars (c :: r) = c :: l :: quote_chars r' -> quote_step c r
| qs_escape :
    is_high_surrogate c = true \/ is_low_surrogate c = true ->
    quote_chars (c :: r) = unicode_escape c ++ quote_chars r -> quote_step c r
| qs_unit :
    is_high_surrogate c = false -> is_low_surrogate c = false ->
    quote_chars (c :: r) = quote_unit c ++ quote_chars r -> quote_step c r.

(** The value [JSON.parse] gives for a property of an object literal. *)
Definition json_of_field (v : field_value) : json :=
  match v with
  | Str s => JString s
  | Bool b => JBool b
  end.

Definition wf_field (v : field_value) : Prop :=
  match v with
  | Str s => wf_string s
  | Bool _ => True
  end.

(** ** Lines and chunks *)

(** The lines of a text that a line feed has completed, and the
    segment after the last line feed. *)
Definition complete_lines (t : jsstring) : list jsstring :=
  removelast (split_lines t).

Definition pending_line (t : jsstring) : jsstring :=
  last (split_lines t) [].

Definition no_LF (s : jsstring) : Prop := Forall (fun c => c <> LF) s.

(** The text a stateful decoder gives for a sequence of chunks. *)
Definition decoded (d : TextDecoder) (values : list chunk) : jsstring :=
  snd (decode_stream d (concat values)).

Definition decoder_after (d : TextDecoder) (values : list chunk) : TextDecoder :=
  fst (decode_stream d (concat values)).

(** The states the UTF-8 decoder can be in: with a sequence open, the
    code point collected so far is not zero, or the next byte is bounded
    away from [0x80] and is not the last one. *)
Definition sound (st : UTF8.state) : Prop :=
  UTF8.bytes_needed st = 0 \/
  (UTF8.bytes_seen st < UTF8.bytes_needed st /\
   128 <= UTF8.lower_boundary st /\ UTF8.upper_boundary st <= 191 /\
   (1 <= UTF8.code_point st \/
    (129 <= UTF8.lower_boundary st /\
     UTF8.bytes_seen st + 2 <= UTF8.bytes_needed st))).

Definition no_LF_point (cps : list N) : Prop := Forall (fun cp => cp <> 10) cps.

(** The decoder of a processor that has only decoded bytes so far. *)
Definition sound_decoder (d : TextDecoder) : Prop := sound (utf8 d).

(** ** Runs of the encoder *)

(** The text deltas of a run of the generator: the first texts of its
    units that are not empty. *)
Definition delta_of (u : GenerateContentResponse) : list jsstring :=
  match first_text u with
  | Some (c :: t) => [c :: t]
  | _ => []
  end.

Definition deltas (g : AsyncGenerator) : list jsstring :=
  flat_map delta_of (yields g).

Definition terminal_frame (e : generator_end) : object_literal :=
  match e with
  | Completes => done_frame
  | Raises error => error_frame error
  end.

(** The objects that are framed, in the order they are written. *)
Definition frames (g : AsyncGenerator) : list object_literal :=
  map content_frame (deltas g) ++ [terminal_frame (finish g)].

Definition write (o : object_literal) : controller_call :=
  enqueue (UTF8.encode (frame_text o)).

(** The strings of a run are JavaScript strings. *)
Definition wf_thrown (e : thrown) : Prop :=
  match e with
  | ErrorObject message => wf_string message
  | NotAnError => True
  end.

Definition wf_generator (g : AsyncGenerator) : Prop :=
  Forall wf_string (deltas g) /\
  match finish g with
  | Completes => True
  | Raises error => wf_thrown error
  end.

(** The line of a frame, without the two line feeds that end it. *)
Definition frame_line (o : object_literal) : jsstring :=
  js "data: " ++ JSON.stringify o.

Definition two_fields (o : object_literal) : Prop :=
  exists k1 v1 k2 v2,
    o = [(k1, v1); (k2, v2)] /\
    wf_string k1 /\ wf_string k2 /\
    wf_field v1 /\ wf_field v2.

Definition wire_text (os : list object_literal) : jsstring :=
  flat_map frame_text os.

Definition wire_bytes (os : list object_literal) : chunk :=
  concat (map (fun o => UTF8.encode (frame_text o)) os).

Definition done_flag (o : object_literal) : option field_value :=
  match o with
  | [_; (k, v)] => if string_eqb k (js "done") then Some v else None
  | _ => None
  end.


(** ** Runs of the decoder *)

(** A response whose reader delivers the given chunks, then the end of
    data. *)
Definition delivered (values : list chunk) : Response :=
  mkResponse true 200 (Some (mkStream values Eof)).

Definition chunk_calls (ds : list jsstring) : list handler_call :=
  map (fun t => onChunk (JString t)) ds.

(** How the loop is left when the complete lines have been handled. *)
Definition exit_after (e : read_end) (x : loop_exit) : while_exit :=
  match x with
  | Continue l =>
      match e with
      | Eof => Break l
      | ReadFails reason => ReadThrew l reason
      end
  | Returned l => ReturnedInside l
  end.

Definition settle (x : while_exit) : list handler_call * settled :=
  match x with
  | Break l => (calls l ++ [onComplete (fullText l)], Resolved (fullText l))
  | ReturnedInside l => (calls l, Resolved (fullText l))
  | ReadThrew l reason =>
      let err :=
        match reason with
        | ErrorObject _ => reason
        | NotAnError => ErrorObject (js "Unknown streaming error")
        end in
      (calls l ++ [onError err], Rejected err)
  end.

Section Accumulation.
Context {platform : Platform}.

(** The texts appended for the values passed to [onChunk]. *)
Definition chunk_texts (cs : list json) (ts : list jsstring) : Prop :=
  Forall2 (fun c t => to_string c = Some t) cs ts.

(** The locals while the loop runs: only chunk calls so far, and the
    text is what was appended for them. *)
Definition accumulating (l : locals) : Prop :=
  exists cs ts,
    chunk_texts cs ts /\ calls l = map onChunk cs /\ fullText l = concat ts.

(** The locals when the loop has returned: one completion call, last,
    with the text. *)
Definition completed (l : locals) : Prop :=
  exists l1,
    accumulating l1 /\
    l = mkLocals (fullText l1) (calls l1 ++ [onComplete (fullText l1)]).

End Accumulation.

(** A line of the stream: one that is not a frame, or the frame of a
    text. *)
Inductive stream_line :=
| noise (line : jsstring)
| content_of (d : jsstring).

Definition line_of (x : stream_line) : jsstring :=
  match x with
  | noise line => line
  | content_of d => frame_line (content_frame d)
  end.

Definition contents (xs : list stream_line) : list jsstring :=
  flat_map (fun x => match x with noise _ => [] | content_of d => [d] end) xs.

(** A line without the [data: ] prefix, or whose payload [JSON.parse]
    rejects. *)
Definition unparsable (line : jsstring) : Prop :=
  no_LF line /\
  (startsWith (js "data: ") line = false \/ JSON.parse (slice 6 line) = None).

Definition well_formed_line (x : stream_line) : Prop :=
  match x with
  | noise line => unparsable line
  | content_of d => wf_string d /\ d <> []
  end.


(** The same conditions as a test. *)
Definition well_formed_lineb (x : stream_line) : bool :=
  match x with
  | noise line =>
      forallb (fun c => negb (c =? LF)) line &&
      (negb (startsWith (js "data: ") line) ||
       match JSON.parse (slice 6 line) with
       | None => true
       | Some _ => false
       end)
  | content_of d =>
      forallb (fun c => c <? 65536) d &&
      match d with [] => false | _ :: _ => true end
  end.

(** ** Runs used as examples *)

(** A unit that carries one text. *)
Definition unit_with_text (d : jsstring) : GenerateContentResponse :=
  mkUnit (Some [mkCandidate (Some (mkContent (Some [mkPart (Some d)])))]).

(** An engine to evaluate the examples with; none of them reaches a
    number or the conversion of a value that is not a string. *)
Definition example_engine : Platform :=
  {| number_truthy := fun _ => true; to_primitive_string := fun _ => None |}.

(** A string between double quotes. *)
Definition quoted (s : string) : jsstring := 34 :: js s ++ [34].

(** Scenario A: Hello, a space and world, then normal completion. *)
Definition scenario_A : AsyncGenerator :=
  mkGenerator
    [unit_with_text (js "Hello"); unit_with_text (js " ");
     unit_with_text (js "world")]
    Completes.

(** Scenario B: partial, then an error whose message is boom. *)
Definition scenario_B : AsyncGenerator :=
  mkGenerator [unit_with_text (js "partial")] (Raises (ErrorObject (js "boom"))).

(** A delta with a two-byte character (U+00E9) and a character outside
    the basic plane (U+1F600, a surrogate pair), after a unit without
    text. *)
Definition accented : AsyncGenerator :=
  mkGenerator
    [mkUnit None; unit_with_text ([99; 97; 102; 233; 32; 55357; 56832])]
    Completes.

(** The bytes of a run cut after the first [n]. *)
Definition cut_at (n : nat) (g : AsyncGenerator) : list chunk :=
  let bytes := concat (enqueued (start g reads_to_end)) in
  [firstn n bytes; skipn n bytes].


(** ** The frames, letter by letter *)



(** The number of units handled when the consumer cancels the stream,
    if it does so before [start] has made its last call. *)
Definition cancelled_at (g : AsyncGenerator) (reader : consumer) : option nat :=
  match reader with
  | reads_to_end => None
  | cancels_after n _ => if Nat.leb n (length (yields g)) then Some n else None
  end.


(** ** Processors between two streams *)

(** A processor with nothing pending: no open UTF-8 sequence in its
    decoder and an empty buffer. *)
Definition at_rest (p : StreamProcessor) : Prop :=
  utf8 (decoder p) = UTF8.initial /\ buffer p = [].

(** The error [processStream] reports for what a failing [read()]
    threw. *)
Definition reported (reason : thrown) : thrown :=
  match reason with
  | ErrorObject _ => reason
  | NotAnError => ErrorObject (js "Unknown streaming error")
  end.

(** A response whose reader delivers the given chunks and then fails. *)
Definition interrupted (values : list chunk) (reason : thrown) : Response :=
  mkResponse true 200 (Some (mkStream values (ReadFails reason))).

(** ** More runs used as examples *)

(** A delta made of a line feed, a double quote, a backslash and a
    high surrogate on its own. *)
Definition awkward : AsyncGenerator :=
  mkGenerator [unit_with_text [10; 34; 92; 55357]] Completes.

(** ** Vocabulary for [simulateTypingEffect] and [debounceStream] *)

(** The yielded values that are strings, joined. *)
Definition typed_text (yields : list (option jsstring)) : jsstring :=
  concat (map (fun y => match y with Some s => s | None => [] end) yields).

Section DebounceVocabulary.
Variable T : Type.

(** The value of the most recent call, [latest] if there was none. *)
Definition last_invoked (latest : option T) (events : list (debounce_event T))
  : option T :=
  fold_left (fun acc e => match e with Invoke v => Some v | Elapse _ => acc end)
            events latest.

Definition invocations (events : list (debounce_event T)) : nat :=
  length (filter (fun e => match e with Invoke _ => true | Elapse _ => false end)
                 events).

Definition callbacks (outs : list (option (option T))) : nat :=
  length (filter (fun o => match o with Some _ => true | None => false end) outs).

(** The debouncer and the timers it has set, from the start. *)
Definition debounced (events : list (debounce_event T))
  : list (option (option T)) :=
  debounce_run (debounceStream T) Timers.none events.

(** At most the timer of the last call is pending, and then a value
    has been stored. *)
Definition one_timer (c : debouncer T) (t : Timers.timers) : Prop :=
  match Timers.pending t with
  | [] => True
  | [id] => timeoutId c = Some id /\ latestValue c <> None
  | _ => False
  end.

(** What the timers that run after a burst cause: the first run of
    [last] calls back with [v], every other run does nothing. *)
Fixpoint after_burst (last : nat) (v : T) (ids : list nat)
  : list (option (option T)) :=
  match ids with
  | [] => []
  | id :: rest =>
      if Nat.eqb id last then Some (Some v) :: map (fun _ => None) rest
      else None :: after_burst last v rest
  end.

End DebounceVocabulary.

(** ** Vocabulary for the hook *)

Definition stream_calls (ds : list jsstring) : list option_call :=
  map (fun t => onStreamChunk (JString t)) ds.

(** The two calls the hook makes when it honours a frame with [done]. *)
Definition completion_calls (full : jsstring) : list option_call :=
  [onStreamComplete full; onSuccess full].

(** Chunks that each hold a number of whole frames. *)
Definition whole_frames (groups : list (list object_literal)) : list chunk :=
  map wire_bytes groups.

Definition hook_exit_after (e : read_end) (x : hook_loop_exit) : hook_while_exit :=
  match x with
  | HContinue l =>
      match e with
      | Eof => HBreak l
      | ReadFails reason => HReadThrew l reason
      end
  | HReturned l => HReturnedInside l
  end.

Section HookAccumulation.
Context {platform : Platform}.

(** The locals of the hook while its loop runs. *)
Definition hook_accumulating (l : hook_locals) : Prop :=
  exists cs ts,
    chunk_texts cs ts /\ option_calls l = map onStreamChunk cs
    /\ fullResponse l = concat ts.

Definition hook_completed (l : hook_locals) : Prop :=
  exists l1,
    hook_accumulating l1 /\
    l = mkHookLocals (fullResponse l1)
          (option_calls l1 ++ completion_calls (fullResponse l1)).

End HookAccumulation.

(** ** Vocabulary for the routes and the requests of the hook *)

(** A transport that hands the body of the request to a route and its
    response back, unchanged. *)
Definition served_by (route : chunk -> Response) : UseGenAI.Fetch :=
  fun _ request => Fulfils (route request).

(** The request that the pages send: a message and a context. *)
Definition chat_request (message context : jsstring) : object_literal :=
  [(js "message", Str message); (js "context", Str context)].

Definition generate_request (prompt : jsstring) : object_literal :=
  [(js "prompt", Str prompt)].

(** The prompt for a message and a context that are strings. *)
Definition prompt_text (context message : jsstring) : jsstring :=
  match context with
  | [] => message
  | _ :: _ => js "Context: " ++ context ++ [LF; LF] ++ js "User: " ++ message
  end.

(** The two ways in which [chat] and [generate] end. *)
Definition fulfilled (value : json) : UseGenAI.run :=
  UseGenAI.mkRun
    [UseGenAI.setIsLoading true; UseGenAI.setError None;
     UseGenAI.setResponse value; UseGenAI.onSuccess value;
     UseGenAI.setIsLoading false]
    (Fulfils value).

Definition rejected (message : jsstring) : UseGenAI.run :=
  UseGenAI.mkRun
    [UseGenAI.setIsLoading true; UseGenAI.setError None;
     UseGenAI.setError (Some message); UseGenAI.onError message;
     UseGenAI.setIsLoading false]
    (Rejects (ErrorObject message)).

(** How [chatStream] ends when it is rejected before any frame. *)
Definition stream_rejected (message : jsstring) : hook_run :=
  mkHookRun [options_onError message] (Rejected (ErrorObject message)).

(** The texts of the SDK are JavaScript strings. *)
Definition wf_answers (service : GenAIService.t) : Prop :=
  forall contents result,
    generateContent (GenAIService.models service) contents = Fulfils result ->
    wf_string (GenAIService.response_text result).

Definition wf_field_of (kv : jsstring * field_value) : Prop :=
  wf_string (fst kv) /\ wf_field (snd kv).

(** An engine and a service to evaluate the examples with. *)
Definition example_messages : Engine :=
  {| engine_message := fun _ => js "engine error" |}.

Definition example_service : GenAIService.t :=
  GenAIService.new
    (mkModels (fun _ => Fulfils (unit_with_text (js "Hi there")))
              (fun _ => Fulfils scenario_A)).

Definition failing_service : GenAIService.t :=
  GenAIService.new
    (mkModels (fun _ => Rejects NotAnError) (fun _ => Rejects NotAnError)).

(** The streams of the SDK hold JavaScript strings and come to their
    end. *)
Definition completing_streams (service : GenAIService.t) : Prop :=
  forall contents stream,
    generateContentStream (GenAIService.models service) contents = Fulfils stream ->
    wf_generator stream /\ finish stream = Completes.

(** A response of a route that answers with JSON: status 200 with
    [success: true] and a message that is not empty, or status 400 or
    500 with [success: false] and an error text. *)
Definition reports_success (r : Response) : Prop :=
  (exists t,
     t <> [] /\
     r = json_response [(js "success", Bool true); (js "message", Str t)] 200) \/
  (exists e s,
     (s = 400 \/ s = 500) /\
     r = json_response [(js "success", Bool false); (js "error", Str e)] s).

(** * Properties *)

(** ** Bit operations as arithmetic *)

Lemma lor_add (a b n : N) : b < 2 ^ n -> N.lor (a * 2 ^ n) b = a * 2 ^ n + b.
Proof.
  intros Hb.
  assert (Hland : N.land (a * 2 ^ n) b = 0).
  { destruct (N.eq_dec b 0) as [->|Hz]; [apply N.land_0_r|].
    apply N.bits_inj_0; intros i; rewrite N.land_spec.
    destruct (N.lt_ge_cases i n) as [Hi|Hi].
    - rewrite N.mul_pow2_bits_low by trivial; reflexivity.
    - rewrite (N.bits_above_log2 b i), Bool.andb_false_r; trivial.
      apply N.log2_lt_pow2; [lia|].
      apply N.lt_le_trans with (2 ^ n); trivial; apply N.pow_le_mono_r; lia. }
  rewrite N.add_nocarry_lxor, N.lxor_lor; trivial.
Qed.

Lemma land_low (x n : N) : N.land x (N.ones n) = x mod 2 ^ n.
Proof. apply N.land_ones. Qed.

Lemma continuation_byte (x : N) : N.lor 128 (N.land x 63) = 128 + x mod 64.
Proof.
  change 63 with (N.ones 6); rewrite land_low.
  change 128 with (2 * 2 ^ 6) at 1; rewrite lor_add; [reflexivity|].
  apply N.mod_lt; discriminate.
Qed.

Lemma push_bits (cp b : N) :
  N.lor (N.shiftl cp 6) (N.land b 63) = cp * 64 + b mod 64.
Proof.
  change 63 with (N.ones 6); rewrite land_low, N.shiftl_mul_pow2.
  rewrite lor_add; [reflexivity|]. apply N.mod_lt; discriminate.
Qed.

Lemma land_31 (b : N) : N.land b 31 = b mod 32.
Proof. change 31 with (N.ones 5); apply land_low. Qed.
Lemma land_15 (b : N) : N.land b 15 = b mod 16.
Proof. change 15 with (N.ones 4); apply land_low. Qed.
Lemma land_7 (b : N) : N.land b 7 = b mod 8.
Proof. change 7 with (N.ones 3); apply land_low. Qed.
Lemma land_1023 (b : N) : N.land b 1023 = b mod 1024.
Proof. change 1023 with (N.ones 10); apply land_low. Qed.
Lemma shiftr_6 (x : N) : N.shiftr x 6 = x / 64.
Proof. apply N.shiftr_div_pow2. Qed.
Lemma shiftr_12 (x : N) : N.shiftr x 12 = x / 4096.
Proof. apply N.shiftr_div_pow2. Qed.
Lemma shiftr_18 (x : N) : N.shiftr x 18 = x / 262144.
Proof. apply N.shiftr_div_pow2. Qed.
Lemma shiftr_10 (x : N) : N.shiftr x 10 = x / 1024.
Proof. apply N.shiftr_div_pow2. Qed.
Lemma shiftr_8 (x : N) : N.shiftr x 8 = x / 256.
Proof. apply N.shiftr_div_pow2. Qed.
Lemma shiftr_4 (x : N) : N.shiftr x 4 = x / 16.
Proof. apply N.shiftr_div_pow2. Qed.

Ltac bits_to_arith :=
  rewrite ?continuation_byte, ?push_bits, ?land_31, ?land_15, ?land_7,
    ?land_1023, ?shiftr_6, ?shiftr_12, ?shiftr_18, ?shiftr_10, ?shiftr_8,
    ?shiftr_4 in *.

(** Decide the comparisons of the goal by arithmetic. *)
Ltac decide_tests :=
  repeat match goal with
    | |- context [?a <=? ?b] =>
        first [ replace (a <=? b) with true by (symmetry; apply N.leb_le; lia)
              | replace (a <=? b) with false by (symmetry; apply N.leb_gt; lia) ]
    | |- context [?a <? ?b] =>
        first [ replace (a <? b) with true by (symmetry; apply N.ltb_lt; lia)
              | replace (a <? b) with false by (symmetry; apply N.ltb_ge; lia) ]
    | |- context [?a =? ?b] =>
        first [ replace (a =? b) with true by (symmetry; apply N.eqb_eq; lia)
              | replace (a =? b) with false by (symmetry; apply N.eqb_neq; lia) ]
    end.

(** ** UTF-8: what is encoded decodes to itself *)

Module UTF8Facts.
Import UTF8.

Lemma run_app (st : state) (a b : chunk) :
  run st (a ++ b) =
  let '(st1, out1) := run st a in
  let '(st2, out2) := run st1 b in (st2, out1 ++ out2).
Proof.
  revert st; induction a as [|x a IH]; intros st; simpl.
  - destruct (run st b); reflexivity.
  - destruct (step st x) as [st1 o1]. rewrite IH.
    destruct (run st1 a) as [st2 o2]. destruct (run st2 b) as [st3 o3].
    now rewrite app_assoc.
Qed.

Lemma lead_ascii (b : N) : b <= 127 -> lead b = (initial, [b]).
Proof. intros; unfold lead; decide_tests; reflexivity. Qed.

Lemma lead_2 (q : N) :
  2 <= q <= 31 -> lead (q + 192) = (mkState q 0 1 128 191, []).
Proof.
  intros; unfold lead; decide_tests; cbn [andb]. rewrite land_31.
  do 2 f_equal; lia.
Qed.

Lemma lead_3 (q : N) :
  q <= 15 ->
  lead (q + 224) =
  (mkState q 0 2 (if q =? 0 then 160 else 128) (if q =? 13 then 159 else 191), []).
Proof.
  intros; unfold lead; decide_tests; cbn [andb]. rewrite land_15.
  replace ((q + 224) mod 16) with q by lia.
  replace (q + 224 =? 224) with (q =? 0)
    by (destruct (N.eqb_spec q 0); symmetry; [apply N.eqb_eq|apply N.eqb_neq]; lia).
  replace (q + 224 =? 237) with (q =? 13)
    by (destruct (N.eqb_spec q 13); symmetry; [apply N.eqb_eq|apply N.eqb_neq]; lia).
  reflexivity.
Qed.

Lemma lead_4 (q : N) :
  q <= 4 ->
  lead (q + 240) =
  (mkState q 0 3 (if q =? 0 then 144 else 128) (if q =? 4 then 143 else 191), []).
Proof.
  intros; unfold lead; decide_tests; cbn [andb]. rewrite land_7.
  replace ((q + 240) mod 8) with q by lia.
  replace (q + 240 =? 240) with (q =? 0)
    by (destruct (N.eqb_spec q 0); symmetry; [apply N.eqb_eq|apply N.eqb_neq]; lia).
  replace (q + 240 =? 244) with (q =? 4)
    by (destruct (N.eqb_spec q 4); symmetry; [apply N.eqb_eq|apply N.eqb_neq]; lia).
  reflexivity.
Qed.

Lemma step_continuation (cp seen needed lo hi r : N) :
  needed <> 0 -> r < 64 -> lo <= 128 + r -> 128 + r <= hi ->
  step (mkState cp seen needed lo hi) (128 + r) =
  if seen + 1 =? needed then (initial, [cp * 64 + r])
  else (mkState (cp * 64 + r) (seen + 1) needed 128 191, []).
Proof.
  intros Hn Hr Hlo Hhi. unfold step.
  cbn [bytes_needed lower_boundary upper_boundary code_point bytes_seen].
  replace (needed =? 0) with false by (symmetry; apply N.eqb_neq; lia).
  replace (lo <=? 128 + r) with true by (symmetry; apply N.leb_le; lia).
  replace (128 + r <=? hi) with true by (symmetry; apply N.leb_le; lia).
  cbn [andb]. rewrite push_bits. replace ((128 + r) mod 64) with r by lia.
  reflexivity.
Qed.

Lemma step_last (cp seen needed lo hi r : N) :
  seen + 1 = needed -> r < 64 -> lo <= 128 + r -> 128 + r <= hi ->
  step (mkState cp seen needed lo hi) (128 + r) = (initial, [cp * 64 + r]).
Proof.
  intros Hn Hr Hlo Hhi. rewrite step_continuation by lia.
  now replace (seen + 1 =? needed) with true by (symmetry; apply N.eqb_eq; lia).
Qed.

Lemma step_more (cp seen needed lo hi r : N) :
  needed <> 0 -> seen + 1 <> needed -> r < 64 -> lo <= 128 + r -> 128 + r <= hi ->
  step (mkState cp seen needed lo hi) (128 + r) =
  (mkState (cp * 64 + r) (seen + 1) needed 128 191, []).
Proof.
  intros Hz Hn Hr Hlo Hhi. rewrite step_continuation by lia.
  now replace (seen + 1 =? needed) with false by (symmetry; apply N.eqb_neq; lia).
Qed.

Ltac reduce_lets := cbv beta iota zeta; rewrite ?app_nil_r; cbn [app].

Lemma run_encode_code_point (cp : N) :
  scalar cp -> run initial (encode_code_point cp) = (initial, [cp]).
Proof.
  intros Hs. unfold encode_code_point.
  destruct (N.leb_spec cp 127) as [H1|H1].
  { cbn [run]. unfold step; cbn [bytes_needed initial N.eqb].
    now rewrite lead_ascii. }
  destruct (N.leb_spec cp 2047) as [H2|H2].
  { bits_to_arith.
    assert (E : cp = (cp / 64) * 64 + cp mod 64) by lia.
    assert (Hq : 2 <= cp / 64 <= 31) by lia.
    assert (Hr : cp mod 64 < 64) by lia.
    revert E Hq Hr. generalize (cp / 64) (cp mod 64). intros q r E Hq Hr.
    cbn [run]. unfold step at 1; cbn [bytes_needed initial N.eqb].
    rewrite lead_2 by trivial. reduce_lets.
    rewrite step_last by lia. reduce_lets. now rewrite <- E. }
  destruct (N.leb_spec cp 65535) as [H3|H3].
  { bits_to_arith.
    assert (E : cp = (cp / 4096 * 64 + (cp / 64) mod 64) * 64 + cp mod 64) by lia.
    assert (Ha : cp / 4096 <= 15) by lia.
    assert (Hb : (cp / 64) mod 64 < 64) by lia.
    assert (Hc : cp mod 64 < 64) by lia.
    assert (Hlo : cp / 4096 = 0 -> 32 <= (cp / 64) mod 64) by lia.
    assert (Hhi : cp / 4096 = 13 -> (cp / 64) mod 64 <= 31) by (unfold scalar in Hs; lia).
    revert E Ha Hb Hc Hlo Hhi.
    generalize (cp / 4096) ((cp / 64) mod 64) (cp mod 64).
    intros a b c E Ha Hb Hc Hlo Hhi.
    cbn [run]. unfold step at 1; cbn [bytes_needed initial N.eqb].
    rewrite lead_3 by trivial. reduce_lets.
    rewrite step_more;
      [| discriminate | discriminate | trivial
       | destruct (N.eqb_spec a 0) as [e|e]; [specialize (Hlo e)|]; lia
       | destruct (N.eqb_spec a 13) as [e|e]; [specialize (Hhi e)|]; lia ].
    reduce_lets. rewrite step_last by lia. reduce_lets. now rewrite <- E. }
  bits_to_arith.
  assert (Hm : cp <= 1114111) by (unfold scalar in Hs; lia).
  assert (E : cp = ((cp / 262144 * 64 + (cp / 4096) mod 64) * 64
                    + (cp / 64) mod 64) * 64 + cp mod 64) by lia.
  assert (Ha : cp / 262144 <= 4) by lia.
  assert (Hb : (cp / 4096) mod 64 < 64) by lia.
  assert (Hc : (cp / 64) mod 64 < 64) by lia.
  assert (Hd : cp mod 64 < 64) by lia.
  assert (Hlo : cp / 262144 = 0 -> 16 <= (cp / 4096) mod 64) by lia.
  assert (Hhi : cp / 262144 = 4 -> (cp / 4096) mod 64 <= 15) by lia.
  revert E Ha Hb Hc Hd Hlo Hhi.
  generalize (cp / 262144) ((cp / 4096) mod 64) ((cp / 64) mod 64) (cp mod 64).
  intros a b c d E Ha Hb Hc Hd Hlo Hhi.
  cbn [run]. unfold step at 1; cbn [bytes_needed initial N.eqb].
  rewrite lead_4 by trivial. reduce_lets.
  rewrite step_more;
    [| discriminate | discriminate | trivial
     | destruct (N.eqb_spec a 0) as [e|e]; [specialize (Hlo e)|]; lia
     | destruct (N.eqb_spec a 4) as [e|e]; [specialize (Hhi e)|]; lia ].
  reduce_lets. rewrite step_more by lia.
  reduce_lets. rewrite step_last by lia. reduce_lets. now rewrite <- E.
Qed.

End UTF8Facts.

(** ** Text without lone surrogates *)

Lemma text_with_app P (a b : jsstring) :
  text_with P a -> text_with P b -> text_with P (a ++ b).
Proof.
  induction 1; intros Hb; simpl; trivial.
  - apply tw_unit; auto.
  - apply tw_pair; auto.
Qed.

Lemma text_with_weaken (P Q : code_unit -> Prop) (s : jsstring) :
  (forall c, P c -> Q c) -> text_with P s -> text_with Q s.
Proof.
  intros HPQ; induction 1.
  - constructor.
  - apply tw_unit; auto.
  - apply tw_pair; auto.
Qed.

Lemma surrogate_bounds (c : code_unit) :
  (is_high_surrogate c = true <-> 55296 <= c <= 56319) /\
  (is_low_surrogate c = true <-> 56320 <= c <= 57343).
Proof.
  unfold is_high_surrogate, is_low_surrogate.
  rewrite !andb_true_iff, !N.leb_le. tauto.
Qed.

Lemma not_surrogate (c : code_unit) :
  is_high_surrogate c = false -> is_low_surrogate c = false ->
  c < 55296 \/ 57344 <= c.
Proof.
  unfold is_high_surrogate, is_low_surrogate.
  rewrite !andb_false_iff, !N.leb_gt. lia.
Qed.

Lemma is_not_surrogate (c : code_unit) :
  c < 55296 \/ 57344 <= c ->
  is_high_surrogate c = false /\ is_low_surrogate c = false.
Proof.
  unfold is_high_surrogate, is_low_surrogate.
  rewrite !andb_false_iff, !N.leb_gt. lia.
Qed.

Lemma text_without_LF (s : jsstring) :
  text_with not_LF s -> Forall (fun c => c <> LF) s.
Proof.
  induction 1; constructor; trivial.
  - apply surrogate_bounds in H. unfold LF. lia.
  - constructor; trivial. apply surrogate_bounds in H0. unfold LF. lia.
Qed.

Lemma text_with_wf P (s : jsstring) : text_with P s -> wf_string s.
Proof.
  induction 1; constructor; trivial.
  - apply surrogate_bounds in H. lia.
  - constructor; trivial. apply surrogate_bounds in H0. lia.
Qed.

(** An ASCII literal of the source is such a text. *)
Lemma text_with_ascii P (s : jsstring) :
  Forall (fun c => c < 128 /\ P c) s -> text_with P s.
Proof.
  induction 1 as [|c r [Hc HP] _ IH]; constructor; trivial.
  - lia.
  - apply is_not_surrogate; lia.
  - apply is_not_surrogate; lia.
Qed.

(** ** [TextEncoder] then [TextDecoder] *)

Module CodecFacts.
Import UTF8 UTF8Facts.

Lemma encode_unit (c : code_unit) (r : jsstring) :
  is_high_surrogate c = false -> is_low_surrogate c = false ->
  encode (c :: r) = encode_code_point c ++ encode r.
Proof. intros Hh Hl. unfold encode; simpl. now rewrite Hh, Hl. Qed.

Lemma encode_pair (h l : code_unit) (r : jsstring) :
  is_high_surrogate h = true -> is_low_surrogate l = true ->
  encode (h :: l :: r) = encode_code_point (pair_code_point h l) ++ encode r.
Proof. intros Hh Hl. unfold encode; simpl. now rewrite Hh, Hl. Qed.

Lemma encode_app P (a b : jsstring) :
  text_with P a -> encode (a ++ b) = encode a ++ encode b.
Proof.
  induction 1; simpl; trivial.
  - rewrite !encode_unit, IHtext_with by trivial. now rewrite app_assoc.
  - rewrite !encode_pair, IHtext_with by trivial. now rewrite app_assoc.
Qed.

Lemma code_units_pair (h l : code_unit) :
  is_high_surrogate h = true -> is_low_surrogate l = true ->
  code_units (pair_code_point h l) = [h; l].
Proof.
  intros Hh Hl. apply surrogate_bounds in Hh, Hl.
  unfold code_units, pair_code_point.
  replace (_ <? 65536) with false by (symmetry; apply N.ltb_ge; lia).
  rewrite shiftr_10, land_1023. f_equal; [|f_equal]; lia.
Qed.

Lemma code_units_unit (c : code_unit) : c < 65536 -> code_units c = [c].
Proof.
  intros. unfold code_units.
  now replace (c <? 65536) with true by (symmetry; apply N.ltb_lt; lia).
Qed.

(** The bytes of a text drive the decoder from its initial state back
    to it, and the code points it emits spell the text. *)
Lemma run_encode P (s : jsstring) :
  text_with P s ->
  exists cps,
    run initial (encode s) = (initial, cps) /\
    flat_map code_units cps = s /\
    (forall c r, s = c :: r -> c < 128 -> exists cps', cps = c :: cps').
Proof.
  induction 1 as [|c r Hc Hh Hl _ _ (cps & Hrun & Hunits & _)
                  |h l r Hh Hl _ (cps & Hrun & Hunits & _)].
  - exists []. repeat split; trivial. discriminate.
  - exists (c :: cps). rewrite encode_unit, run_app by trivial.
    rewrite run_encode_code_point
      by (unfold scalar; destruct (not_surrogate c Hh Hl); lia).
    rewrite Hrun. simpl. rewrite code_units_unit, Hunits by trivial.
    repeat split; trivial. intros c' r' E _. injection E as <- <-. eauto.
  - exists (pair_code_point h l :: cps). rewrite encode_pair, run_app by trivial.
    apply surrogate_bounds in Hh as Hh', Hl as Hl'.
    rewrite run_encode_code_point by (unfold scalar, pair_code_point; lia).
    rewrite Hrun. simpl. rewrite code_units_pair, Hunits by trivial.
    repeat split; trivial. intros c' r' E Hc'. injection E as <- <-. lia.
Qed.

Lemma serialize_seen (cps : list N) :
  serialize true cps = (true, flat_map code_units cps).
Proof.
  induction cps as [|cp r IH]; simpl; trivial. now rewrite IH.
Qed.

Lemma serialize_ascii (seen : bool) (c : N) (cps : list N) :
  c < 128 -> serialize seen (c :: cps) = (true, flat_map code_units (c :: cps)).
Proof.
  intros Hc. destruct seen; simpl; rewrite serialize_seen; trivial.
  now replace (c =? BOM) with false
    by (symmetry; apply N.eqb_neq; unfold BOM; lia).
Qed.

End CodecFacts.

(** A text that starts with an ASCII character (every frame starts with
    [d]) comes out of a decoder at rest as it went into the encoder. *)
Lemma decode_stream_encode P (seen : bool) (c : code_unit) (r : jsstring) :
  c < 128 -> text_with P (c :: r) ->
  decode_stream (mkDecoder UTF8.initial seen) (UTF8.encode (c :: r)) =
  (mkDecoder UTF8.initial true, c :: r).
Proof.
  intros Hc Ht. unfold decode_stream; cbn [utf8 BOM_seen].
  destruct (CodecFacts.run_encode Ht) as (cps & -> & Hunits & Hhead).
  destruct (Hhead c r eq_refl Hc) as (cps' & ->).
  rewrite CodecFacts.serialize_ascii by trivial. f_equal. exact Hunits.
Qed.

(** ** [JSON.parse] reads back what [JSON.stringify] wrote *)

Module JSONFacts.

Lemma jsstring_ind2 (P : jsstring -> Prop) :
  P [] -> (forall c, P [c]) ->
  (forall c l r, P r -> P (l :: r) -> P (c :: l :: r)) ->
  forall s, P s.
Proof.
  intros H0 H1 H2 s.
  enough (P s /\ forall c, P (c :: s)) by tauto.
  induction s as [|l r [IH1 IH2]]; split; auto.
Qed.

Lemma parse_literal_unit (c : code_unit) (r : jsstring) :
  literal_unit c -> parse_string_chars (c :: r) = push c (parse_string_chars r).
Proof.
  intros (H1 & H2 & H3). cbn [parse_string_chars].
  replace (c =? 34) with false by (symmetry; apply N.eqb_neq; lia).
  replace (c =? 92) with false by (symmetry; apply N.eqb_neq; lia).
  now replace (c <? 32) with false by (symmetry; apply N.ltb_ge; lia).
Qed.

Lemma parse_unicode_escape (h1 h2 h3 h4 : code_unit) (r : jsstring) :
  parse_string_chars (92 :: 117 :: h1 :: h2 :: h3 :: h4 :: r) =
  match hex4 h1 h2 h3 h4 with
  | Some u => push u (parse_string_chars r)
  | None => None
  end.
Proof. reflexivity. Qed.

Lemma hex_value_digit (n : N) : n < 16 -> hex_value (hex_digit n) = Some n.
Proof.
  intros Hn. unfold hex_value, hex_digit, is_digit.
  destruct (N.ltb_spec n 10).
  - replace (48 <=? 48 + n) with true by (symmetry; apply N.leb_le; lia).
    replace (48 + n <=? 57) with true by (symmetry; apply N.leb_le; lia).
    cbn [andb]. f_equal; lia.
  - replace (87 + n <=? 57) with false by (symmetry; apply N.leb_gt; lia).
    rewrite andb_false_r.
    replace (97 <=? 87 + n) with true by (symmetry; apply N.leb_le; lia).
    replace (87 + n <=? 102) with true by (symmetry; apply N.leb_le; lia).
    cbn [andb]. f_equal; lia.
Qed.

Lemma hex_digit_range (n : N) :
  n < 16 -> 48 <= hex_digit n /\ hex_digit n <= 102.
Proof. intros Hn. unfold hex_digit. destruct (N.ltb_spec n 10); lia. Qed.

Lemma parse_escaped (c : code_unit) (r : jsstring) :
  c < 65536 ->
  parse_string_chars (unicode_escape c ++ r) = push c (parse_string_chars r).
Proof.
  intros Hc. unfold unicode_escape. cbn [app]. rewrite parse_unicode_escape.
  bits_to_arith. unfold hex4.
  rewrite !hex_value_digit by lia. do 2 f_equal. lia.
Qed.

Lemma escaped_text (c : code_unit) :
  c < 65536 -> text_with not_LF (unicode_escape c).
Proof.
  intros Hc. apply text_with_ascii. unfold unicode_escape. bits_to_arith.
  assert (H1 := @hex_digit_range (c / 4096)).
  assert (H2 := @hex_digit_range ((c / 256) mod 16)).
  assert (H3 := @hex_digit_range ((c / 16) mod 16)).
  assert (H4 := @hex_digit_range (c mod 16)).
  unfold not_LF, LF. repeat constructor; lia.
Qed.

Lemma parse_quote_unit (c : code_unit) (r : jsstring) :
  c < 65536 ->
  parse_string_chars (quote_unit c ++ r) = push c (parse_string_chars r).
Proof.
  intros Hc. unfold quote_unit.
  repeat match goal with
    | |- context [?a =? ?b] => destruct (N.eqb_spec a b); [subst; reflexivity|]
    end.
  destruct (N.ltb_spec c 32).
  - now apply parse_escaped.
  - cbn [app]. apply parse_literal_unit. unfold literal_unit. lia.
Qed.

Lemma quote_unit_text (c : code_unit) :
  c < 65536 -> is_high_surrogate c = false -> is_low_surrogate c = false ->
  text_with not_LF (quote_unit c).
Proof.
  intros Hc Hh Hl. unfold quote_unit.
  repeat match goal with
    | |- context [?a =? ?b] =>
        destruct (N.eqb_spec a b);
        [apply text_with_ascii; unfold not_LF, LF; repeat constructor; lia|]
    end.
  destruct (N.ltb_spec c 32).
  - now apply escaped_text.
  - apply tw_unit; trivial; constructor.
Qed.

Lemma surrogate_is_literal (c : code_unit) :
  is_high_surrogate c = true \/ is_low_surrogate c = true -> literal_unit c.
Proof.
  intros [H|H]; apply surrogate_bounds in H; unfold literal_unit; lia.
Qed.

Lemma quote_chars_pair (h l : code_unit) (r : jsstring) :
  is_high_surrogate h = true -> is_low_surrogate l = true ->
  quote_chars (h :: l :: r) = h :: l :: quote_chars r.
Proof. intros Hh Hl. simpl. now rewrite Hh, Hl. Qed.

Lemma quote_chars_lone_high (h l : code_unit) (r : jsstring) :
  is_high_surrogate h = true -> is_low_surrogate l = false ->
  quote_chars (h :: l :: r) = unicode_escape h ++ quote_chars (l :: r).
Proof. intros Hh Hl. simpl. now rewrite Hh, Hl. Qed.

Lemma quote_chars_last_high (h : code_unit) :
  is_high_surrogate h = true -> quote_chars [h] = unicode_escape h.
Proof. intros Hh. simpl. now rewrite Hh. Qed.

Lemma quote_chars_low (c : code_unit) (r : jsstring) :
  is_high_surrogate c = false -> is_low_surrogate c = true ->
  quote_chars (c :: r) = unicode_escape c ++ quote_chars r.
Proof. intros Hh Hl. simpl. now rewrite Hh, Hl. Qed.

Lemma quote_chars_unit (c : code_unit) (r : jsstring) :
  is_high_surrogate c = false -> is_low_surrogate c = false ->
  quote_chars (c :: r) = quote_unit c ++ quote_chars r.
Proof. intros Hh Hl. simpl. now rewrite Hh, Hl. Qed.

Lemma quote_chars_step (c : code_unit) (r : jsstring) : quote_step c r.
Proof.
  destruct (is_high_surrogate c) eqn:Hh.
  - destruct r as [|l r'].
    + apply qs_escape; auto. rewrite quote_chars_last_high, app_nil_r; trivial.
    + destruct (is_low_surrogate l) eqn:Hl.
      * eapply qs_pair; eauto using quote_chars_pair.
      * apply qs_escape; auto using quote_chars_lone_high.
  - destruct (is_low_surrogate c) eqn:Hl.
    + apply qs_escape; auto using quote_chars_low.
    + apply qs_unit; auto using quote_chars_unit.
Qed.

Lemma wf_string_cons (c : code_unit) (r : jsstring) :
  wf_string (c :: r) -> c < 65536 /\ wf_string r.
Proof. intros H; inversion H; auto. Qed.

(** The body of a quoted string, up to the closing quote, reads back as
    the string. *)
Lemma parse_quote_chars (s rest : jsstring) :
  wf_string s ->
  parse_string_chars (quote_chars s ++ 34 :: rest) = Some (s, rest).
Proof.
  revert s. apply (jsstring_ind2
    (fun s => wf_string s ->
       parse_string_chars (quote_chars s ++ 34 :: rest) = Some (s, rest))).
  - reflexivity.
  - intros c Hwf. apply wf_string_cons in Hwf as [Hc _].
    destruct (quote_chars_step c []) as [l r' E _ _ _|_ ->|_ _ ->];
      [discriminate| |]; rewrite <- app_assoc;
      [rewrite parse_escaped|rewrite parse_quote_unit]; trivial.
  - intros c l r IHr IHl Hwf.
    apply wf_string_cons in Hwf as [Hc Hwf].
    specialize (IHl Hwf). apply wf_string_cons in Hwf as [Hl Hwf].
    specialize (IHr Hwf).
    destruct (quote_chars_step c (l :: r)) as [l' r' E Hh Hlow ->|_ ->|_ _ ->].
    + injection E as <- <-. cbn [app].
      rewrite !parse_literal_unit by (apply surrogate_is_literal; auto).
      now rewrite IHr.
    + rewrite <- app_assoc, parse_escaped by trivial. now rewrite IHl.
    + rewrite <- app_assoc, parse_quote_unit by trivial. now rewrite IHl.
Qed.

(** The body of a quoted string has no lone surrogate and no line
    feed. *)
Lemma quote_chars_text (s : jsstring) :
  wf_string s -> text_with not_LF (quote_chars s).
Proof.
  revert s. apply (jsstring_ind2
    (fun s => wf_string s -> text_with not_LF (quote_chars s))).
  - constructor.
  - intros c Hwf. apply wf_string_cons in Hwf as [Hc _].
    destruct (quote_chars_step c []) as [l r' E _ _ _|_ ->|Hh Hl ->];
      [discriminate| |]; rewrite app_nil_r;
      auto using escaped_text, quote_unit_text.
  - intros c l r IHr IHl Hwf.
    apply wf_string_cons in Hwf as [Hc Hwf].
    specialize (IHl Hwf). apply wf_string_cons in Hwf as [Hl Hwf].
    specialize (IHr Hwf).
    destruct (quote_chars_step c (l :: r)) as [l' r' E Hh Hlow ->|_ ->|Hh Hlc ->].
    + injection E as <- <-. apply tw_pair; auto.
    + apply text_with_app; auto using escaped_text.
    + apply text_with_app; auto using quote_unit_text.
Qed.

(** Values and members, one step of the parser at a time. *)

Lemma parse_value_string (fuel : nat) (r : jsstring) :
  parse_value (S fuel) (34 :: r) =
  match parse_string_chars r with
  | Some (str, rest) => Some (JString str, rest)
  | None => None
  end.
Proof. reflexivity. Qed.

Lemma parse_members_key (fuel : nat) (r0 : jsstring) :
  parse_members (S fuel) (34 :: r0) =
  match parse_string_chars r0 with
  | None => None
  | Some (k, r1) =>
      match skip_ws r1 with
      | colon :: r2 =>
          if colon =? 58 then
            match parse_value fuel r2 with
            | None => None
            | Some (v, r3) =>
                match skip_ws r3 with
                | c :: r4 =>
                    if c =? 44 then
                      match parse_members fuel r4 with
                      | Some (ms, rest) => Some ((k, v) :: ms, rest)
                      | None => None
                      end
                    else if c =? 125 then Some ([(k, v)], r4)
                    else None
                | [] => None
                end
            end
          else None
      | [] => None
      end
  end.
Proof. reflexivity. Qed.

Lemma parse_value_field (fuel : nat) (v : field_value) (rest : jsstring) :
  wf_field v ->
  parse_value (S fuel) (stringify_value v ++ rest) = Some (json_of_field v, rest).
Proof.
  destruct v as [s|[|]]; intros Hwf; [|reflexivity|reflexivity].
  unfold stringify_value, quote. cbn [app].
  rewrite parse_value_string, <- app_assoc. cbn [app].
  now rewrite parse_quote_chars.
Qed.

Lemma parse_members_step (fuel : nat) (k : jsstring) (rest : jsstring) :
  wf_string k ->
  parse_members (S fuel) (quote k ++ 58 :: rest) =
  match parse_value fuel rest with
  | None => None
  | Some (v, r3) =>
      match skip_ws r3 with
      | c :: r4 =>
          if c =? 44 then
            match parse_members fuel r4 with
            | Some (ms, rest') => Some ((k, v) :: ms, rest')
            | None => None
            end
          else if c =? 125 then Some ([(k, v)], r4)
          else None
      | [] => None
      end
  end.
Proof.
  intros Hwf. unfold quote. cbn [app].
  rewrite parse_members_key, <- app_assoc. cbn [app].
  rewrite parse_quote_chars by trivial. reflexivity.
Qed.

Lemma parse_value_object (fuel : nat) (k : jsstring) (rest : jsstring) :
  parse_value (S fuel) (123 :: quote k ++ rest) =
  match parse_members fuel (quote k ++ rest) with
  | Some (ms, rest') => Some (JObject ms, rest')
  | None => None
  end.
Proof. reflexivity. Qed.

(** An object literal with two properties. *)
Lemma parse_stringify_two (k1 k2 : jsstring) (v1 v2 : field_value) :
  wf_string k1 -> wf_string k2 -> wf_field v1 -> wf_field v2 ->
  JSON.parse (JSON.stringify [(k1, v1); (k2, v2)]) =
  Some (JObject [(k1, json_of_field v1); (k2, json_of_field v2)]).
Proof.
  intros Hk1 Hk2 Hv1 Hv2. unfold JSON.parse, JSON.stringify.
  cbn [stringify_members].
  set (n := (2 * _)%nat). cbn [Nat.add].
  rewrite <- !app_assoc. cbn [app]. rewrite <- !app_assoc. cbn [app].
  rewrite parse_value_object, parse_members_step by trivial.
  rewrite parse_value_field by trivial.
  change (skip_ws (44 :: ?r)) with (44 :: r). cbv beta iota.
  change (44 =? 44) with true. cbv beta iota.
  assert (Hn : n <> O) by (subst n; cbn [length]; lia).
  clearbody n. destruct n as [|m]; [congruence|].
  rewrite <- app_assoc. cbn [app].
  rewrite parse_members_step, parse_value_field by trivial.
  reflexivity.
Qed.

End JSONFacts.

(** ** Lines *)

Lemma split_lines_not_nil (s : jsstring) : split_lines s <> [].
Proof.
  induction s as [|c r IH]; simpl; [discriminate|].
  destruct (c =? LF); [discriminate|].
  destruct (split_lines r); discriminate.
Qed.

Lemma split_lines_LF (r : jsstring) : split_lines (LF :: r) = [] :: split_lines r.
Proof. reflexivity. Qed.

Lemma split_lines_cons (c : code_unit) (r : jsstring) :
  c <> LF ->
  split_lines (c :: r) =
  (c :: hd [] (split_lines r)) :: tl (split_lines r).
Proof.
  intros Hc. simpl.
  replace (c =? LF) with false by (symmetry; now apply N.eqb_neq).
  destruct (split_lines r) eqn:E; [now apply split_lines_not_nil in E|reflexivity].
Qed.

Lemma split_lines_no_LF (s : jsstring) : no_LF s -> split_lines s = [s].
Proof.
  induction 1 as [|c r Hc _ IH]; [reflexivity|].
  now rewrite split_lines_cons, IH.
Qed.

(** The first line of a text ends at its first line feed. *)
Lemma split_lines_line (a b : jsstring) :
  no_LF a -> split_lines (a ++ LF :: b) = a :: split_lines b.
Proof.
  induction 1 as [|c r Hc _ IH]; [reflexivity|].
  cbn [app]. now rewrite split_lines_cons, IH.
Qed.

Lemma pending_line_no_LF (s : jsstring) : no_LF (pending_line s).
Proof.
  unfold pending_line. induction s as [|c r IH]; [constructor|].
  destruct (N.eq_dec c LF) as [->|Hc].
  - rewrite split_lines_LF.
    cbn [last]. destruct (split_lines r) eqn:E;
      [now apply split_lines_not_nil in E|exact IH].
  - rewrite split_lines_cons by trivial.
    destruct (split_lines r) as [|l [|l' ls]] eqn:E;
      [now apply split_lines_not_nil in E| |exact IH].
    cbn [hd tl last] in *. now constructor.
Qed.

(** More text only adds to the pending line: the lines already complete
    stay as they are. *)
Lemma split_lines_app (a b : jsstring) :
  split_lines (a ++ b) = complete_lines a ++ split_lines (pending_line a ++ b).
Proof.
  unfold complete_lines, pending_line.
  induction a as [|c r IH]; [reflexivity|].
  cbn [app].
  destruct (N.eq_dec c LF) as [->|Hc].
  - rewrite !split_lines_LF, IH.
    destruct (split_lines r) eqn:E; [now apply split_lines_not_nil in E|].
    reflexivity.
  - rewrite !split_lines_cons, IH by trivial.
    destruct (split_lines r) as [|l [|l' ls]] eqn:E;
      [now apply split_lines_not_nil in E| |].
    + cbn [removelast last hd tl app].
      now rewrite split_lines_cons by trivial.
    + cbn [removelast last hd tl app]. reflexivity.
Qed.

Lemma last_append (A : Type) (x y : list A) (d : A) :
  y <> [] -> last (x ++ y) d = last y d.
Proof.
  intros Hy. induction x as [|a x IH]; [reflexivity|].
  cbn [app last]. destruct (x ++ y) eqn:E; [|exact IH].
  apply app_eq_nil in E as [_ ->]. congruence.
Qed.

Lemma complete_lines_app (a b : jsstring) :
  complete_lines (a ++ b) = complete_lines a ++ complete_lines (pending_line a ++ b).
Proof.
  unfold complete_lines at 1. rewrite split_lines_app.
  apply removelast_app, split_lines_not_nil.
Qed.

Lemma pending_line_app (a b : jsstring) :
  pending_line (a ++ b) = pending_line (pending_line a ++ b).
Proof.
  unfold pending_line at 1. rewrite split_lines_app.
  apply last_append, split_lines_not_nil.
Qed.

Lemma complete_lines_no_LF (s : jsstring) : no_LF s -> complete_lines s = [].
Proof. intros H. unfold complete_lines. now rewrite split_lines_no_LF. Qed.

Lemma pending_line_id (s : jsstring) : no_LF s -> pending_line s = s.
Proof. intros H. unfold pending_line. now rewrite split_lines_no_LF. Qed.

(** ** The decoder over several chunks *)

Lemma serialize_app (seen : bool) (a b : list N) :
  serialize seen (a ++ b) =
  let '(s1, o1) := serialize seen a in
  let '(s2, o2) := serialize s1 b in (s2, o1 ++ o2).
Proof.
  revert seen; induction a as [|cp r IH]; intros seen; cbn [app serialize].
  - destruct (serialize seen b); reflexivity.
  - destruct seen; [|destruct (cp =? BOM)]; rewrite IH;
      destruct (serialize true r) as [s1 o1];
      destruct (serialize s1 b) as [s2 o2]; now rewrite ?app_assoc.
Qed.

Lemma decode_stream_app (d : TextDecoder) (a b : chunk) :
  decode_stream d (a ++ b) =
  let '(d1, t1) := decode_stream d a in
  let '(d2, t2) := decode_stream d1 b in (d2, t1 ++ t2).
Proof.
  unfold decode_stream. rewrite UTF8Facts.run_app.
  destruct (UTF8.run (utf8 d) a) as [st1 o1].
  destruct (UTF8.run st1 b) as [st2 o2] eqn:E2.
  rewrite serialize_app.
  destruct (serialize (BOM_seen d) o1) as [s1 t1].
  cbn [utf8 BOM_seen]. rewrite E2.
  destruct (serialize s1 o2) as [s2 t2]. reflexivity.
Qed.

Lemma decode_stream_nil (d : TextDecoder) : decode_stream d [] = (d, []).
Proof. destruct d; reflexivity. Qed.

Lemma decoded_cons (d : TextDecoder) (v : chunk) (rest : list chunk) :
  decoded d (v :: rest) =
  snd (decode_stream d v) ++ decoded (fst (decode_stream d v)) rest.
Proof.
  unfold decoded. cbn [concat]. rewrite decode_stream_app.
  destruct (decode_stream d v) as [d1 t1]. cbn [fst snd].
  destruct (decode_stream d1 (concat rest)); reflexivity.
Qed.

Lemma decoder_after_cons (d : TextDecoder) (v : chunk) (rest : list chunk) :
  decoder_after d (v :: rest) = decoder_after (fst (decode_stream d v)) rest.
Proof.
  unfold decoder_after. cbn [concat]. rewrite decode_stream_app.
  destruct (decode_stream d v) as [d1 t1]. cbn [fst snd].
  destruct (decode_stream d1 (concat rest)); reflexivity.
Qed.

(** ** The read loop, in terms of lines *)

Section LoopFacts.
Context {platform : Platform}.

Lemma for_lines_app (l : locals) (a b : list jsstring) :
  for_lines l (a ++ b) =
  match for_lines l a with
  | Continue l' => for_lines l' b
  | Returned l' => Returned l'
  end.
Proof.
  revert l; induction a as [|x a IH]; intros l; cbn [app for_lines]; trivial.
  destruct (for_body l x); auto.
Qed.

(** The loop handles, in order, the complete lines of the buffer
    followed by the decoded text of all chunks, whatever the chunking. *)
Lemma while_loop_lines (values : list chunk) (e : read_end) :
  forall (p : StreamProcessor) (l : locals),
    no_LF (buffer p) ->
    snd (while_loop p l values e) =
    exit_after e
      (for_lines l (complete_lines (buffer p ++ decoded (decoder p) values))).
Proof.
  induction values as [|v rest IH]; intros p l Hb.
  - unfold decoded. cbn [concat]. rewrite decode_stream_nil. cbn [snd].
    rewrite app_nil_r, complete_lines_no_LF by trivial.
    cbn [while_loop for_lines exit_after]. now destruct e.
  - cbn [while_loop]. rewrite decoded_cons.
    destruct (decode_stream (decoder p) v) as [d1 t1]. cbn [fst snd].
    rewrite app_assoc, complete_lines_app, for_lines_app.
    fold (complete_lines (buffer p ++ t1)).
    destruct (for_lines l (complete_lines (buffer p ++ t1))) as [l'|l'].
    + rewrite IH by apply pending_line_no_LF. reflexivity.
    + reflexivity.
Qed.

(** When the loop is left by [break], the processor keeps the decoder
    as the chunks left it and the pending line as its buffer. *)
Lemma while_loop_break (values : list chunk) (e : read_end) :
  forall (p p' : StreamProcessor) (l l' : locals),
    no_LF (buffer p) ->
    while_loop p l values e = (p', Break l') ->
    p' = mkProcessor (decoder_after (decoder p) values)
                     (pending_line (buffer p ++ decoded (decoder p) values)).
Proof.
  induction values as [|v rest IH]; intros p p' l l' Hb.
  - unfold decoded, decoder_after. cbn [concat]. rewrite decode_stream_nil.
    cbn [fst snd while_loop]. rewrite app_nil_r, pending_line_id by trivial.
    destruct e; intros E; inversion E; subst. now destruct p'.
  - cbn [while_loop]. rewrite decoded_cons, decoder_after_cons.
    destruct (decode_stream (decoder p) v) as [d1 t1]. cbn [fst snd].
    fold (complete_lines (buffer p ++ t1)). fold (pending_line (buffer p ++ t1)).
    destruct (for_lines l (complete_lines (buffer p ++ t1))) as [l1|l1];
      [|discriminate].
    intros E. apply IH in E; [|apply pending_line_no_LF].
    cbn [decoder buffer] in E. now rewrite app_assoc, pending_line_app.
Qed.

End LoopFacts.

(** ** What the encoder writes *)

Lemma on_unit_writes (u : GenerateContentResponse) :
  on_unit u = map (fun t => write (content_frame t)) (delta_of u).
Proof.
  unfold on_unit, delta_of. destruct (first_text u) as [[|c t]|]; reflexivity.
Qed.

(** A controller that has not been cancelled accepts every call. *)
Lemma calls_on_open (xs : list controller_call) :
  forall c,
    refusal c = None ->
    calls_on c xs = (mkController (accepted c ++ xs) None, None).
Proof.
  induction xs as [|x r IH]; intros [a f] Hc; cbn [refusal accepted] in *; subst f.
  - cbn. now rewrite app_nil_r.
  - cbn [calls_on refusal accepted]. rewrite IH by reflexivity.
    cbn [accepted]. now rewrite <- app_assoc.
Qed.

(** A cancelled one accepts none, and stays as it is. *)
Lemma calls_on_refused (c : controller) (xs : list controller_call)
    (message : jsstring) :
  refusal c = Some message -> fst (calls_on c xs) = c.
Proof. intros Hc. destruct xs; cbn [calls_on]; [|rewrite Hc]; reflexivity. Qed.

Lemma await_unit_refused (reader : consumer) (pulled : nat) (c : controller)
    (message : jsstring) :
  refusal c = Some message ->
  accepted (await_unit reader pulled c) = accepted c /\
  exists message', refusal (await_unit reader pulled c) = Some message'.
Proof.
  intros Hc. destruct reader as [|n m]; cbn [await_unit]; [eauto|].
  destruct (Nat.eqb n pulled); cbn [accepted refusal]; eauto.
Qed.

Lemma for_await_refused (reader : consumer) (units : list GenerateContentResponse) :
  forall pulled c message,
    refusal c = Some message ->
    accepted (fst (for_await reader pulled units c)) = accepted c /\
    exists message', refusal (fst (for_await reader pulled units c)) = Some message'.
Proof.
  induction units as [|u rest IH]; intros pulled c message Hc; cbn [for_await fst].
  - eauto.
  - destruct (await_unit_refused reader pulled c Hc) as (Ha & m' & Hr).
    pose proof (calls_on_refused _ (on_unit u) Hr) as E.
    destruct (calls_on (await_unit reader pulled c) (on_unit u)) as [c' [e|]];
      cbn [fst] in *; subst c'.
    + cbn [fst]. eauto.
    + destruct (IH (S pulled) _ _ Hr) as (Ha' & Hr'). now rewrite Ha'.
Qed.

(** The loop, for a consumer that cancels when [n] units have been
    handled in all, when [pulled] of them have been handled already. *)
Lemma for_await_cancels (n : nat) (message : jsstring)
    (units : list GenerateContentResponse) :
  forall pulled c,
    refusal c = None -> (pulled <= n)%nat ->
    let r := for_await (cancels_after n message) pulled units c in
    if (Nat.ltb n (pulled + length units)) then
      accepted (fst r) = accepted c ++ flat_map on_unit (firstn (n - pulled) units)
      /\ exists message', refusal (fst r) = Some message'
    else
      r = (mkController (accepted c ++ flat_map on_unit units) None, None).
Proof.
  induction units as [|u rest IH]; intros pulled c Hc Hle; cbn [for_await length].
  - replace (Nat.ltb n (pulled + 0)) with false
      by (symmetry; apply Nat.ltb_ge; lia).
    cbn [flat_map]. rewrite app_nil_r. now destruct c as [a f]; cbn in *; subst f.
  - cbn [await_unit]. destruct (Nat.eqb_spec n pulled) as [->|Hne].
    + replace (Nat.ltb pulled (pulled + S (length rest))) with true
        by (symmetry; apply Nat.ltb_lt; lia).
      rewrite Nat.sub_diag. cbn [firstn flat_map]. rewrite app_nil_r.
      set (c0 := mkController (accepted c) (Some message)).
      pose proof (calls_on_refused c0 (on_unit u) eq_refl) as E.
      destruct (calls_on c0 (on_unit u)) as [c' [e|]]; cbn [fst] in *; subst c'.
      * cbn [fst accepted refusal c0]. eauto.
      * destruct (for_await_refused (cancels_after pulled message) rest
                    (S pulled) c0 eq_refl) as (Ha & Hr).
        rewrite Ha. cbn [accepted c0]. eauto.
    + rewrite calls_on_open by trivial.
      specialize (IH (S pulled) (mkController (accepted c ++ on_unit u) None)
                    eq_refl ltac:(lia)).
      cbv zeta in IH. cbn [accepted] in IH.
      replace (Nat.ltb n (pulled + S (length rest)))
        with (Nat.ltb n (S pulled + length rest)) by (f_equal; lia).
      destruct (Nat.ltb n (S pulled + length rest)).
      * replace (n - pulled)%nat with (S (n - S pulled)) by lia.
        cbn [firstn flat_map]. now rewrite app_assoc.
      * rewrite IH. cbn [flat_map]. now rewrite app_assoc.
Qed.

Lemma for_await_reads_to_end (units : list GenerateContentResponse) :
  forall pulled c,
    refusal c = None ->
    for_await reads_to_end pulled units c
    = (mkController (accepted c ++ flat_map on_unit units) None, None).
Proof.
  induction units as [|u rest IH]; intros pulled c Hc; cbn [for_await await_unit].
  - cbn [flat_map]. rewrite app_nil_r. now destruct c as [a f]; cbn in *; subst f.
  - rewrite calls_on_open, IH by trivial. cbn [accepted flat_map].
    now rewrite app_assoc.
Qed.

(** The calls that the controller accepts: all of them, or the ones
    made before the consumer cancelled. *)
Lemma start_calls (g : AsyncGenerator) (reader : consumer) :
  start g reader =
  match cancelled_at g reader with
  | None =>
      flat_map on_unit (yields g) ++
      [enqueue (UTF8.encode (frame_text (terminal_frame (finish g)))); close]
  | Some n => flat_map on_unit (firstn n (yields g))
  end.
Proof.
  unfold start, start_try, start_catch, cancelled_at.
  destruct reader as [|n message].
  - rewrite for_await_reads_to_end by reflexivity. cbn [await_unit accepted app].
    destruct (finish g) as [|error]; cbn [terminal_frame];
      rewrite calls_on_open by reflexivity; reflexivity.
  - pose proof (@for_await_cancels n message (yields g) 0
                  (mkController [] None) eq_refl ltac:(lia)) as H.
    cbv zeta in H. cbn [Nat.add accepted app] in H. rewrite Nat.sub_0_r in H.
    destruct (Nat.leb_spec n (length (yields g))) as [Hle|Hgt].
    + destruct (Nat.ltb_spec n (length (yields g))) as [Hlt|Hge].
      * destruct H as (Ha & m' & Hr).
        destruct (for_await (cancels_after n message) 0 (yields g)
                    (mkController [] None)) as [c1 [e|]]; cbn [fst] in *.
        -- now rewrite (calls_on_refused c1 _ Hr).
        -- destruct (await_unit_refused (cancels_after n message)
                       (length (yields g)) c1 Hr) as (Ha2 & m2 & Hr2).
           destruct (finish g) as [|error].
           ++ pose proof (calls_on_refused _
                [enqueue (UTF8.encode (frame_text done_frame)); close] Hr2) as E.
              destruct (calls_on _ _) as [c3 [e|]] in E |- *; cbn [fst] in E; subst c3.
              ** rewrite (calls_on_refused _ _ Hr2). now rewrite Ha2.
              ** now rewrite Ha2.
           ++ rewrite (calls_on_refused _ _ Hr2). now rewrite Ha2.
      * assert (n = length (yields g)) by lia. subst n. rewrite H.
        rewrite firstn_all. cbn [await_unit accepted]. rewrite Nat.eqb_refl.
        destruct (finish g) as [|error]; reflexivity.
    + destruct (Nat.ltb_spec n (length (yields g))) as [Hlt|Hge]; [lia|].
      rewrite H. cbn [await_unit accepted app].
      replace (Nat.eqb n (length (yields g))) with false
        by (symmetry; apply Nat.eqb_neq; lia).
      destruct (finish g) as [|error]; cbn [terminal_frame];
        rewrite calls_on_open by reflexivity; reflexivity.
Qed.

Lemma flat_map_on_unit (units : list GenerateContentResponse) :
  flat_map on_unit units
  = map (fun d => write (content_frame d)) (flat_map delta_of units).
Proof.
  induction units as [|u us IH]; [reflexivity|].
  cbn [flat_map]. now rewrite map_app, IH, on_unit_writes.
Qed.

Lemma start_writes (g : AsyncGenerator) :
  start g reads_to_end = map write (frames g) ++ [close].
Proof.
  rewrite start_calls. cbn [cancelled_at]. unfold frames, deltas.
  rewrite map_app, map_map, flat_map_on_unit, <- app_assoc. reflexivity.
Qed.

Lemma enqueued_writes (os : list object_literal) :
  enqueued (map write os ++ [close]) =
  map (fun o => UTF8.encode (frame_text o)) os.
Proof. induction os as [|o os IH]; cbn; [reflexivity|now rewrite IH]. Qed.

Lemma js_literal_wf (s : string) :
  forallb (fun c => c <? 128) (js s) = true -> wf_string (js s).
Proof.
  intros H. rewrite forallb_forall in H. apply Forall_forall.
  intros c Hc. apply H, N.ltb_lt in Hc. lia.
Qed.

Ltac solve_wf :=
  first [ exact I | assumption | now apply Forall_nil
        | now apply js_literal_wf ].

Lemma frames_two_fields (g : AsyncGenerator) :
  wf_generator g -> Forall two_fields (frames g).
Proof.
  intros [Hd He]. unfold frames. apply Forall_app; split.
  - apply Forall_map. revert Hd. apply Forall_impl. intros t Ht.
    exists (js "content"), (Str t), (js "done"), (Bool false).
    repeat split; solve_wf.
  - constructor; [|constructor].
    destruct (finish g) as [|[m|]]; cbn [terminal_frame].
    + exists (js "content"), (Str []), (js "done"), (Bool true).
      repeat split; solve_wf.
    + exists (js "error"), (Str m), (js "done"), (Bool true).
      repeat split; solve_wf.
    + exists (js "error"), (Str (js "Streaming failed")), (js "done"), (Bool true).
      repeat split; solve_wf.
Qed.

(** *** The text of a frame *)

Lemma ascii_text (s : jsstring) :
  forallb (fun c => (c <? 128) && negb (c =? LF)) s = true ->
  text_with not_LF s.
Proof.
  intros H. apply text_with_ascii. rewrite forallb_forall in H.
  apply Forall_forall. intros c Hc. apply H in Hc.
  apply andb_true_iff in Hc as [H1 H2].
  apply N.ltb_lt in H1. apply negb_true_iff, N.eqb_neq in H2. now split.
Qed.

Lemma quote_text (s : jsstring) : wf_string s -> text_with not_LF (quote s).
Proof.
  intros H. unfold quote. apply (@text_with_app not_LF [34]).
  - now apply ascii_text.
  - apply text_with_app; [now apply JSONFacts.quote_chars_text|].
    now apply ascii_text.
Qed.

Lemma stringify_value_text (v : field_value) :
  wf_field v -> text_with not_LF (stringify_value v).
Proof.
  destruct v as [s|[|]]; intros H; [now apply quote_text| |];
    now apply ascii_text.
Qed.

Lemma frame_line_text (o : object_literal) :
  two_fields o -> text_with not_LF (frame_line o).
Proof.
  intros (k1 & v1 & k2 & v2 & -> & Hk1 & Hk2 & Hv1 & Hv2).
  unfold frame_line, JSON.stringify. cbn [stringify_members].
  apply text_with_app; [now apply ascii_text|].
  apply (@text_with_app not_LF [123]); [now apply ascii_text|].
  apply text_with_app; [|now apply ascii_text].
  apply text_with_app; [now apply quote_text|].
  apply (@text_with_app not_LF [58]); [now apply ascii_text|].
  apply text_with_app; [now apply stringify_value_text|].
  apply (@text_with_app not_LF [44]); [now apply ascii_text|].
  apply text_with_app; [now apply quote_text|].
  apply (@text_with_app not_LF [58]); [now apply ascii_text|].
  now apply stringify_value_text.
Qed.

Lemma frame_text_line (o : object_literal) :
  frame_text o = frame_line o ++ [LF; LF].
Proof. unfold frame_text, frame_line. now rewrite app_assoc. Qed.

Lemma frame_text_text (o : object_literal) :
  two_fields o -> text_with any_unit (frame_text o).
Proof.
  intros H. rewrite frame_text_line. apply text_with_app.
  - apply text_with_weaken with (P := not_LF); [easy|now apply frame_line_text].
  - apply text_with_ascii. repeat constructor; unfold LF; lia.
Qed.

(** *** The stream of frames, decoded *)

Lemma decode_stream_frames (os : list object_literal) :
  Forall two_fields os ->
  forall seen,
    decode_stream (mkDecoder UTF8.initial seen) (wire_bytes os) =
    (mkDecoder UTF8.initial (match os with [] => seen | _ => true end),
     wire_text os).
Proof.
  induction 1 as [|o os Ho _ IH]; intros seen; [reflexivity|].
  unfold wire_bytes, wire_text in *. cbn [map concat flat_map].
  rewrite decode_stream_app.
  assert (Ht := frame_text_text Ho).
  assert (E : frame_text o = 100 :: tl (frame_text o)) by reflexivity.
  rewrite E in Ht |- *.
  rewrite (decode_stream_encode seen (c := 100) (r := tl (frame_text o)) (P := any_unit))
    by (trivial; lia).
  rewrite IH. destruct os; reflexivity.
Qed.

Lemma complete_lines_frames (os : list object_literal) :
  Forall two_fields os ->
  split_lines (wire_text os) =
  flat_map (fun o => [frame_line o; []]) os ++ [[]].
Proof.
  induction 1 as [|o os Ho _ IH]; [reflexivity|].
  unfold wire_text in *. cbn [flat_map].
  rewrite frame_text_line, <- app_assoc. cbn [app].
  rewrite split_lines_line
    by (apply text_without_LF, frame_line_text, Ho).
  now rewrite split_lines_LF, IH.
Qed.

(** ** The decoder on the frames of the encoder *)

Lemma slice_frame_line (o : object_literal) :
  slice 6 (frame_line o) = JSON.stringify o.
Proof. reflexivity. Qed.

Lemma startsWith_frame_line (o : object_literal) :
  startsWith (js "data: ") (frame_line o) = true.
Proof. reflexivity. Qed.

Lemma lookup_error_in_content (a b : json) :
  lookup (js "error") [(js "content", a); (js "done", b)] = None.
Proof. reflexivity. Qed.
Lemma lookup_content_in_content (a b : json) :
  lookup (js "content") [(js "content", a); (js "done", b)] = Some a.
Proof. reflexivity. Qed.
Lemma lookup_done_in_content (a b : json) :
  lookup (js "done") [(js "content", a); (js "done", b)] = Some b.
Proof. reflexivity. Qed.

Lemma js_content_wf : wf_string (js "content").
Proof. now apply js_literal_wf. Qed.
Lemma js_done_wf : wf_string (js "done").
Proof. now apply js_literal_wf. Qed.
Lemma js_error_wf : wf_string (js "error").
Proof. now apply js_literal_wf. Qed.

Section FrameFacts.
Context {platform : Platform}.

Lemma try_block_content (l : locals) (c : code_unit) (r : jsstring) :
  wf_string (c :: r) ->
  try_block l (frame_line (content_frame (c :: r))) =
  Normal (mkLocals (fullText l ++ c :: r)
                   (calls l ++ [onChunk (JString (c :: r))])).
Proof.
  intros Hwf. unfold try_block. rewrite slice_frame_line.
  unfold content_frame.
  rewrite JSONFacts.parse_stringify_two
    by (try exact js_content_wf; try exact js_done_wf; trivial; exact I).
  cbn [json_of_field lookup_property].
  rewrite lookup_error_in_content, lookup_content_in_content,
    lookup_done_in_content.
  reflexivity.
Qed.

Lemma try_block_done (l : locals) :
  try_block l (frame_line done_frame) =
  Return (mkLocals (fullText l) (calls l ++ [onComplete (fullText l)])).
Proof.
  unfold try_block. rewrite slice_frame_line. unfold done_frame.
  rewrite JSONFacts.parse_stringify_two
    by (try exact js_content_wf; try exact js_done_wf; try exact I;
        apply Forall_nil).
  reflexivity.
Qed.

(** An error frame makes the block throw, unless its message is the
    empty string. *)
Lemma try_block_error (l : locals) (c : code_unit) (r : jsstring) :
  wf_string (c :: r) ->
  try_block l (frame_line (error_frame (ErrorObject (c :: r)))) =
  Throw l (NewError (c :: r)).
Proof.
  intros Hwf. unfold try_block. rewrite slice_frame_line.
  unfold error_frame.
  rewrite JSONFacts.parse_stringify_two
    by (try exact js_error_wf; try exact js_done_wf; trivial; exact I).
  reflexivity.
Qed.

Lemma try_block_not_an_error (l : locals) :
  try_block l (frame_line (error_frame NotAnError)) =
  Throw l (NewError (js "Streaming failed")).
Proof.
  unfold try_block. rewrite slice_frame_line. unfold error_frame.
  rewrite JSONFacts.parse_stringify_two
    by (try exact js_error_wf; try exact js_done_wf; try exact I;
        now apply js_literal_wf).
  reflexivity.
Qed.

Lemma try_block_empty_error (l : locals) :
  try_block l (frame_line (error_frame (ErrorObject []))) =
  Return (mkLocals (fullText l) (calls l ++ [onComplete (fullText l)])).
Proof.
  unfold try_block. rewrite slice_frame_line. unfold error_frame.
  rewrite JSONFacts.parse_stringify_two
    by (try exact js_error_wf; try exact js_done_wf; try exact I;
        apply Forall_nil).
  reflexivity.
Qed.

Lemma for_body_frame (l : locals) (o : object_literal) :
  for_body l (frame_line o) =
  match try_block l (frame_line o) with
  | Normal l' => Continue l'
  | Return l' => Returned l'
  | Throw l' _ => Continue l'
  end.
Proof. unfold for_body. now rewrite startsWith_frame_line. Qed.

(** The content frames, each followed by its blank line. *)
Lemma for_lines_content (ds : list jsstring) :
  Forall wf_string ds -> Forall (fun t => t <> []) ds ->
  forall l,
    for_lines l (flat_map (fun o => [frame_line o; []]) (map content_frame ds)) =
    Continue (mkLocals (fullText l ++ concat ds) (calls l ++ chunk_calls ds)).
Proof.
  induction 1 as [|t ds Ht _ IH]; intros Hne l.
  - cbn. rewrite !app_nil_r. now destruct l.
  - inversion_clear Hne as [|? ? Hn Hne']. destruct t as [|c r]; [congruence|].
    cbn [map flat_map app for_lines].
    rewrite for_body_frame, try_block_content by trivial.
    change (for_body ?l []) with (Continue l). cbv iota.
    rewrite IH by trivial. cbn [fullText calls concat chunk_calls map].
    now rewrite <- !app_assoc.
Qed.

(** The terminal frame: every one of them either returns from the
    loop with a completion call, or is passed over. *)
Lemma for_lines_terminal (e : generator_end) (l : locals) :
  match e with Completes => True | Raises error => wf_thrown error end ->
  let done := mkLocals (fullText l) (calls l ++ [onComplete (fullText l)]) in
  for_lines l [frame_line (terminal_frame e); []] = Returned done \/
  for_lines l [frame_line (terminal_frame e); []] = Continue l.
Proof.
  intros Hwf. cbn [for_lines]. rewrite for_body_frame.
  destruct e as [|[[|c r]|]]; cbn [terminal_frame].
  - rewrite try_block_done. now left.
  - rewrite try_block_empty_error. now left.
  - rewrite try_block_error by trivial. now right.
  - rewrite try_block_not_an_error. now right.
Qed.

Lemma deltas_not_empty (g : AsyncGenerator) :
  Forall (fun t => t <> []) (deltas g).
Proof.
  unfold deltas. induction (yields g) as [|u us IH]; [constructor|].
  cbn [flat_map]. apply Forall_app; split; trivial.
  unfold delta_of. destruct (first_text u) as [[|c t]|]; repeat constructor.
  discriminate.
Qed.

(** All the lines of an encoded run. *)
Lemma for_lines_frames (g : AsyncGenerator) :
  wf_generator g ->
  let l := mkLocals (concat (deltas g)) (chunk_calls (deltas g)) in
  let done := mkLocals (fullText l) (calls l ++ [onComplete (fullText l)]) in
  let lines := flat_map (fun o => [frame_line o; []]) (frames g) in
  for_lines (mkLocals [] []) lines = Returned done \/
  for_lines (mkLocals [] []) lines = Continue l.
Proof.
  intros [Hd He] l done lines. subst lines. unfold frames.
  rewrite flat_map_app, for_lines_app.
  rewrite for_lines_content by (trivial; apply deltas_not_empty).
  cbn [flat_map app fullText calls].
  apply (for_lines_terminal (finish g) l He).
Qed.

(** Decoding the bytes of an encoded run, in any chunking, from a new
    processor: the chunk callback gets the deltas in order, the
    completion callback the whole text, once, and the text is the
    result. *)
Lemma processStream_encoded (g : AsyncGenerator) (values : list chunk) :
  wf_generator g ->
  concat values = wire_bytes (frames g) ->
  let r := processStream new_StreamProcessor
             (mkResponse true 200 (Some (mkStream values Eof))) in
  handler_calls r = chunk_calls (deltas g) ++ [onComplete (concat (deltas g))] /\
  result r = Resolved (concat (deltas g)).
Proof.
  intros Hwf Hbytes r. subst r. unfold processStream.
  cbn [body chunks ending].
  pose proof (@while_loop_lines _ values Eof new_StreamProcessor
                (mkLocals [] []) (Forall_nil _)) as Hloop.
  unfold decoded in Hloop. rewrite Hbytes in Hloop.
  change (decoder new_StreamProcessor)
    with (mkDecoder UTF8.initial false) in Hloop.
  change (buffer new_StreamProcessor) with (@nil N) in Hloop.
  cbn [app] in Hloop.
  rewrite decode_stream_frames in Hloop by now apply frames_two_fields.
  cbn [snd] in Hloop. unfold complete_lines in Hloop.
  rewrite complete_lines_frames, removelast_last in Hloop
    by now apply frames_two_fields.
  destruct (while_loop new_StreamProcessor (mkLocals [] []) values Eof)
    as [p' x].
  cbn [snd] in Hloop. subst x.
  destruct (for_lines_frames Hwf) as [-> | ->]; cbn; auto.
Qed.

End FrameFacts.

(** ** The example runs are well formed *)

Lemma stream_bytes (g : AsyncGenerator) :
  concat (enqueued (start g reads_to_end)) = wire_bytes (frames g).
Proof. now rewrite start_writes, enqueued_writes. Qed.

Lemma wf_scenario_A : wf_generator scenario_A.
Proof. split; [|exact I]. repeat constructor. Qed.

Lemma wf_scenario_B : wf_generator scenario_B.
Proof. split; repeat constructor. Qed.

Lemma wf_accented : wf_generator accented.
Proof. split; [|exact I]. repeat constructor. Qed.

(** ** C1: what is encoded decodes to the concatenation of the deltas *)

(** C1.  For every run of the generator that completes, with text
    deltas [d1, ..., dn]: decoding the response of
    [createStreamResponse] with [processStream] on a new processor
    resolves to [d1 ++ ... ++ dn], after one [onChunk] call per delta,
    in order, and one [onComplete] call with the whole text. *)
Theorem encode_then_decode {platform : Platform} (g : AsyncGenerator)
    (ds : list jsstring) :
  wf_generator g -> finish g = Completes -> deltas g = ds ->
  let r := processStream new_StreamProcessor (createStreamResponse g) in
  result r = Resolved (concat ds) /\
  handler_calls r =
    map (fun d => onChunk (JString d)) ds ++ [onComplete (concat ds)].
Proof.
  intros Hwf _ <- r.
  destruct (@processStream_encoded _ g (enqueued (start g reads_to_end)) Hwf (stream_bytes g))
    as [Hcalls Hres].
  split; assumption.
Qed.

Lemma encode_then_decode_scenario_A :
  let r := processStream (platform := example_engine) new_StreamProcessor
             (createStreamResponse scenario_A) in
  result r = Resolved (js "Hello world") /\
  handler_calls r =
    [onChunk (JString (js "Hello")); onChunk (JString (js " "));
     onChunk (JString (js "world")); onComplete (js "Hello world")].
Proof.
  apply (@encode_then_decode example_engine scenario_A
           [js "Hello"; js " "; js "world"]).
  - split; [|exact I]. repeat constructor.
  - reflexivity.
  - reflexivity.
Defined.

(** ** C2: an error frame on the way through the decoders *)

(** C2, on the code.  In scenario B the encoder writes the content
    frame and the error frame.  In [processStream] the error thrown for
    the error frame is caught by the inner [catch], which continues:
    [onError] is not called, and at the end of data [onComplete] is
    called with the partial text and the promise resolves to it.  [chatStream]
    passes over the error frame in the same way and resolves too. *)
Theorem error_frame_is_passed_over {platform : Platform} :
  enqueued (start scenario_B reads_to_end) =
    [UTF8.encode (js "data: {" ++ quoted "content" ++ js ":" ++ quoted "partial"
                  ++ js "," ++ quoted "done" ++ js ":false}" ++ [LF; LF]);
     UTF8.encode (js "data: {" ++ quoted "error" ++ js ":" ++ quoted "boom"
                  ++ js "," ++ quoted "done" ++ js ":true}" ++ [LF; LF])] /\
  (let r := processStream new_StreamProcessor (createStreamResponse scenario_B) in
   handler_calls r = [onChunk (JString (js "partial")); onComplete (js "partial")] /\
   result r = Resolved (js "partial")) /\
  (let h := chatStream (createStreamResponse scenario_B) in
   hook_calls h = [onStreamChunk (JString (js "partial"))] /\
   hook_result h = Resolved (js "partial")).
Proof. repeat split; vm_compute; reflexivity. Qed.

(** The line of the error frame alone: the block throws the error it
    was asked to report, and the loop body continues with the locals
    unchanged. *)
Lemma error_line_continues {platform : Platform} (l : locals) :
  let line := frame_line (error_frame (ErrorObject (js "boom"))) in
  try_block l line = Throw l (NewError (js "boom")) /\
  for_body l line = Continue l.
Proof.
  assert (Hwf : wf_string (js "boom")) by now apply js_literal_wf.
  split.
  - now apply try_block_error.
  - rewrite for_body_frame. change (js "boom") with [98; 111; 111; 109].
    now rewrite try_block_error.
Qed.

(** ** C3: the chunking of the encoded bytes does not matter *)

(** C3.  For every run of the generator and every way of cutting the
    bytes written by [createStreamResponse] into chunks,
    [processStream] on a new processor settles to the same value and
    makes the same calls as on the bytes in one piece; when the
    generator completed, that value is the concatenation of the
    deltas, whole. *)
Theorem chunk_boundaries_do_not_matter {platform : Platform}
    (g : AsyncGenerator) (values : list chunk) :
  wf_generator g ->
  concat values = concat (enqueued (start g reads_to_end)) ->
  let pieces := processStream new_StreamProcessor (delivered values) in
  let whole := processStream new_StreamProcessor (delivered [concat values]) in
  result pieces = result whole /\
  handler_calls pieces = handler_calls whole /\
  (finish g = Completes -> result pieces = Resolved (concat (deltas g))).
Proof.
  intros Hwf Hbytes pieces whole. rewrite stream_bytes in Hbytes.
  destruct (@processStream_encoded _ g values Hwf Hbytes) as [Hc Hr].
  assert (Hone : concat [concat values] = wire_bytes (frames g))
    by (cbn [concat]; now rewrite app_nil_r).
  destruct (@processStream_encoded _ g [concat values] Hwf Hone) as [Hc' Hr'].
  subst pieces whole. unfold delivered.
  rewrite Hc, Hr, Hc', Hr'. auto.
Qed.

(** The bytes of [accented] cut between the two bytes of U+00E9. *)
Lemma chunk_boundaries_in_a_character :
  let values := cut_at 22 accented in
  let pieces := processStream (platform := example_engine)
                  new_StreamProcessor (delivered values) in
  let whole := processStream (platform := example_engine)
                 new_StreamProcessor (delivered [concat values]) in
  nth 21 (concat values) 0 = 195 /\ nth 22 (concat values) 0 = 169 /\
  result pieces = result whole /\
  handler_calls pieces = handler_calls whole /\
  result pieces = Resolved [99; 97; 102; 233; 32; 55357; 56832].
Proof.
  split; [reflexivity|]. split; [reflexivity|].
  destruct (@chunk_boundaries_do_not_matter example_engine accented
              (cut_at 22 accented)) as (Hr & Hc & Hv).
  - split; [|exact I]. repeat constructor.
  - vm_compute. reflexivity.
  - split; [exact Hr|]. split; [exact Hc|]. exact (Hv eq_refl).
Defined.

(** ** C4: the loop of the hook against the frame decoder *)

(** C4, on the code.  The bytes of a run with the single delta [ab],
    cut in the middle of the content frame: [processStream] gives [ab],
    [chatStream] decodes each chunk on its own, keeps no pending line,
    and resolves to the empty string without a chunk call. *)
Theorem hook_loses_a_cut_frame {platform : Platform} :
  let g := mkGenerator [unit_with_text (js "ab")] Completes in
  let values := cut_at 20 g in
  concat values = concat (enqueued (start g reads_to_end)) /\
  (let r := processStream new_StreamProcessor (delivered values) in
   result r = Resolved (js "ab") /\
   handler_calls r = [onChunk (JString (js "ab")); onComplete (js "ab")]) /\
  (let h := chatStream (delivered values) in
   hook_result h = Resolved [] /\
   hook_calls h = [onStreamComplete []; onSuccess []]).
Proof. repeat split; vm_compute; reflexivity. Qed.

(** The same with a cut inside a character: the two halves of U+00E9
    are each replaced by U+FFFD by the hook's decoder, and the frame is
    lost as well. *)
Lemma hook_breaks_a_cut_character {platform : Platform} :
  let values := cut_at 22 accented in
  decode (nth 0 values []) =
    js "data: {" ++ quoted "content" ++ js ":" ++ [34] ++ js "caf" ++ [65533] /\
  hd 0 (decode (nth 1 values [])) = 65533 /\
  hook_result (chatStream (delivered values)) = Resolved [].
Proof. repeat split; vm_compute; reflexivity. Qed.

(** ** C5: one terminal frame, last, then one close *)







(** ** C9: one frame for a unit with a text, none otherwise *)



(** ** C6: the end of data is a completion *)

Section Completion.
Context {platform : Platform}.

Lemma accumulating_start : accumulating (mkLocals [] []).
Proof. exists [], []. repeat split. constructor. Qed.

Lemma accumulating_chunk (l : locals) (c : json) (t : jsstring) :
  accumulating l -> to_string c = Some t ->
  accumulating (mkLocals (fullText l ++ t) (calls l ++ [onChunk c])).
Proof.
  intros (cs & ts & H2 & Hc & Ht) Hs. exists (cs ++ [c]), (ts ++ [t]).
  cbn [calls fullText]. repeat split.
  - apply Forall2_app; trivial. now repeat constructor.
  - now rewrite Hc, map_app.
  - rewrite Ht, concat_app. cbn. now rewrite app_nil_r.
Qed.

Lemma try_block_accumulates (l : locals) (line : jsstring) :
  accumulating l ->
  match try_block l line with
  | Normal l' => accumulating l'
  | Return l' => completed l'
  | Throw l' _ => accumulating l'
  end.
Proof.
  intros Hl. unfold try_block.
  destruct (JSON.parse (slice 6 line)) as [data|]; [|exact Hl].
  assert (Hbody :
    match
      (let error := lookup_property data (js "error") in
       if truthy error then
         match error with
         | Some e =>
             match to_string e with
             | Some message => Throw l (NewError message)
             | None => Throw l TypeError
             end
         | None => Throw l TypeError
         end
       else
         let content := lookup_property data (js "content") in
         let after_content :=
           if truthy content then
             match content with
             | Some c =>
                 match to_string c with
                 | Some t =>
                     Normal (mkLocals (fullText l ++ t) (calls l ++ [onChunk c]))
                 | None => Throw l TypeError
                 end
             | None => Throw l TypeError
             end
           else Normal l in
         match after_content with
         | Normal l1 =>
             if truthy (lookup_property data (js "done")) then
               Return (mkLocals (fullText l1)
                                (calls l1 ++ [onComplete (fullText l1)]))
             else Normal l1
         | other => other
         end)
    with
    | Normal l' => accumulating l'
    | Return l' => completed l'
    | Throw l' _ => accumulating l'
    end).
  { cbv zeta.
    destruct (truthy (lookup_property data (js "error"))).
    - destruct (lookup_property data (js "error")) as [e|]; [|exact Hl].
      destruct (to_string e); exact Hl.
    - destruct (truthy (lookup_property data (js "content"))).
      + destruct (lookup_property data (js "content")) as [c|]; [|exact Hl].
        destruct (to_string c) as [t|] eqn:Et; [|exact Hl].
        assert (Hl' := accumulating_chunk c Hl Et).
        destruct (truthy (lookup_property data (js "done"))); [|exact Hl'].
        eexists; split; [exact Hl'|reflexivity].
      + destruct (truthy (lookup_property data (js "done"))); [|exact Hl].
        eexists; split; [exact Hl|reflexivity]. }
  destruct data; first [exact Hl | exact Hbody].
Qed.

Lemma for_body_accumulates (l : locals) (line : jsstring) :
  accumulating l ->
  match for_body l line with
  | Continue l' => accumulating l'
  | Returned l' => completed l'
  end.
Proof.
  intros Hl. unfold for_body.
  destruct (startsWith (js "data: ") line); [|exact Hl].
  pose proof (try_block_accumulates line Hl) as H.
  destruct (try_block l line); exact H.
Qed.

Lemma for_lines_accumulates (lines : list jsstring) :
  forall l,
    accumulating l ->
    match for_lines l lines with
    | Continue l' => accumulating l'
    | Returned l' => completed l'
    end.
Proof.
  induction lines as [|line rest IH]; intros l Hl; cbn [for_lines]; trivial.
  pose proof (for_body_accumulates line Hl) as H.
  destruct (for_body l line); [apply IH|]; exact H.
Qed.

Lemma while_loop_accumulates (values : list chunk) :
  forall p l,
    accumulating l ->
    match snd (while_loop p l values Eof) with
    | Break l' => accumulating l'
    | ReturnedInside l' => completed l'
    | ReadThrew _ _ => False
    end.
Proof.
  induction values as [|v rest IH]; intros p l Hl; cbn [while_loop snd]; trivial.
  destruct (decode_stream (decoder p) v) as [d t].
  pose proof (for_lines_accumulates
                (removelast (split_lines (buffer p ++ t))) Hl) as H.
  destruct (for_lines l (removelast (split_lines (buffer p ++ t))));
    [apply IH|]; exact H.
Qed.

End Completion.

(** ** A line feed is decoded from a line feed byte only *)

Module LineFeedFacts.
Import UTF8.

Lemma sound_initial : sound initial.
Proof. now left. Qed.

Lemma lead_sound (b : octet) :
  b <> 10 -> sound (fst (lead b)) /\ no_LF_point (snd (lead b)).
Proof.
  intros Hb. unfold lead.
  destruct (N.leb_spec b 127).
  { split; [apply sound_initial|]. now repeat constructor. }
  destruct (N.leb_spec 194 b); destruct (N.leb_spec b 223); cbn [andb fst snd].
  1: { split; [|constructor]. right. cbn. rewrite land_31. lia. }
  all: destruct (N.leb_spec 224 b); destruct (N.leb_spec b 239); cbn [andb fst snd].
  all: try (split; [|constructor]; right; cbn; rewrite land_15;
            destruct (N.eqb_spec b 224); destruct (N.eqb_spec b 237); lia).
  all: destruct (N.leb_spec 240 b); destruct (N.leb_spec b 244); cbn [andb fst snd].
  all: try (split; [|constructor]; right; cbn; rewrite land_7;
            destruct (N.eqb_spec b 240); destruct (N.eqb_spec b 244); lia).
  all: split; [apply sound_initial|]; repeat constructor; unfold REPLACEMENT; lia.
Qed.

Lemma step_sound (st : state) (b : octet) :
  sound st -> b <> 10 ->
  sound (fst (step st b)) /\ no_LF_point (snd (step st b)).
Proof.
  intros Hst Hb. unfold step.
  destruct (N.eqb_spec (bytes_needed st) 0) as [Hz|Hz]; [now apply lead_sound|].
  destruct Hst as [Hst|(Hseen & Hlo & Hhi & Hcp)]; [contradiction|].
  destruct (N.leb_spec (lower_boundary st) b);
    destruct (N.leb_spec b (upper_boundary st)); cbn [andb].
  - rewrite push_bits.
    destruct (N.eqb_spec (bytes_seen st + 1) (bytes_needed st)); cbn [fst snd].
    + split; [apply sound_initial|]. repeat constructor. lia.
    + split; [|constructor]. right. cbn. lia.
  - destruct (lead_sound Hb) as [H1 H2]. destruct (lead b) as [st' out].
    cbn [fst snd] in *. split; trivial. constructor; trivial.
    unfold REPLACEMENT; lia.
  - destruct (lead_sound Hb) as [H1 H2]. destruct (lead b) as [st' out].
    cbn [fst snd] in *. split; trivial. constructor; trivial.
    unfold REPLACEMENT; lia.
  - destruct (lead_sound Hb) as [H1 H2]. destruct (lead b) as [st' out].
    cbn [fst snd] in *. split; trivial. constructor; trivial.
    unfold REPLACEMENT; lia.
Qed.

(** Soundness is kept by every byte, line feed or not. *)
Lemma lead_sound_any (b : octet) : sound (fst (lead b)).
Proof.
  destruct (N.eq_dec b 10) as [->|Hb]; [now left|].
  now apply lead_sound.
Qed.

Lemma step_sound_any (st : state) (b : octet) :
  sound st -> sound (fst (step st b)).
Proof.
  intros Hst. destruct (N.eq_dec b 10) as [->|Hb]; [|now apply step_sound].
  unfold step.
  destruct (N.eqb_spec (bytes_needed st) 0) as [Hz|Hz]; [now left|].
  destruct Hst as [Hst|(Hseen & Hlo & Hhi & Hcp)]; [contradiction|].
  replace (lower_boundary st <=? 10) with false
    by (symmetry; apply N.leb_gt; lia).
  now left.
Qed.

Lemma run_sound (bs : chunk) :
  forall st, sound st -> sound (fst (run st bs)).
Proof.
  induction bs as [|b r IH]; intros st Hst; cbn [run]; trivial.
  pose proof (step_sound_any b Hst) as H1.
  destruct (step st b) as [st1 o1]. cbn [fst] in H1.
  specialize (IH st1 H1). destruct (run st1 r) as [st2 o2]. exact IH.
Qed.

Lemma run_no_LF (bs : chunk) :
  Forall (fun b => b <> 10) bs ->
  forall st, sound st -> no_LF_point (snd (run st bs)).
Proof.
  induction 1 as [|b r Hb _ IH]; intros st Hst; cbn [run]; [constructor|].
  destruct (step_sound Hst Hb) as [H1 H2].
  destruct (step st b) as [st1 o1]. cbn [fst snd] in *.
  specialize (IH st1 H1). destruct (run st1 r) as [st2 o2]. cbn [snd] in *.
  now apply Forall_app.
Qed.

Lemma code_units_no_LF (cp : N) : cp <> 10 -> no_LF (code_units cp).
Proof.
  intros H. unfold code_units. destruct (N.ltb_spec cp 65536).
  - now repeat constructor.
  - repeat constructor; unfold LF; lia.
Qed.

Lemma serialize_no_LF (cps : list N) :
  no_LF_point cps -> forall seen, no_LF (snd (serialize seen cps)).
Proof.
  induction 1 as [|cp r Hcp _ IH]; intros seen; cbn [serialize]; [constructor|].
  pose proof (IH true) as Hr.
  destruct (serialize true r) as [f out]. cbn [snd] in Hr.
  destruct seen; [|destruct (cp =? BOM)]; cbn [snd]; trivial;
    apply Forall_app; split; trivial; now apply code_units_no_LF.
Qed.

End LineFeedFacts.

Lemma decode_stream_sound (d : TextDecoder) (bs : chunk) :
  sound_decoder d -> sound_decoder (fst (decode_stream d bs)).
Proof.
  intros Hd. unfold decode_stream.
  pose proof (LineFeedFacts.run_sound bs Hd) as H.
  destruct (UTF8.run (utf8 d) bs) as [st cps].
  destruct (serialize (BOM_seen d) cps). exact H.
Qed.

Lemma decode_stream_no_LF (d : TextDecoder) (bs : chunk) :
  sound_decoder d -> Forall (fun b => b <> 10) bs ->
  no_LF (snd (decode_stream d bs)).
Proof.
  intros Hd Hbs. unfold decode_stream.
  pose proof (LineFeedFacts.run_no_LF Hbs Hd) as H.
  destruct (UTF8.run (utf8 d) bs) as [st cps]. cbn [snd] in H.
  pose proof (LineFeedFacts.serialize_no_LF H (BOM_seen d)) as H'.
  destruct (serialize (BOM_seen d) cps). exact H'.
Qed.

(** ** The calls and the result, from the way the loop is left *)

Lemma processStream_settle {platform : Platform}
    (p : StreamProcessor) (values : list chunk) (e : read_end) :
  let r := processStream p (mkResponse true 200 (Some (mkStream values e))) in
  (handler_calls r, result r) =
  settle (snd (while_loop p (mkLocals [] []) values e)).
Proof.
  cbv zeta. unfold processStream. cbn [body chunks ending].
  destruct (while_loop p (mkLocals [] []) values e) as [p' [l|l|l reason]];
    reflexivity.
Qed.

Lemma sound_new_decoder : sound_decoder new_TextDecoder.
Proof. now left. Qed.

(** ** C8: lines that do not parse are passed over *)

Lemma well_formed_lineb_sound (xs : list stream_line) :
  forallb well_formed_lineb xs = true -> Forall well_formed_line xs.
Proof.
  rewrite forallb_forall. intros H. apply Forall_forall. intros x Hx.
  apply H in Hx. destruct x as [line|d]; cbn [well_formed_lineb] in Hx;
    apply andb_true_iff in Hx as [H1 H2]; cbn [well_formed_line].
  - split.
    + rewrite forallb_forall in H1. apply Forall_forall. intros c Hc.
      apply H1 in Hc. now apply negb_true_iff, N.eqb_neq in Hc.
    + apply orb_true_iff in H2 as [H2|H2].
      * left. now apply negb_true_iff in H2.
      * right. now destruct (JSON.parse (slice 6 line)).
  - split.
    + rewrite forallb_forall in H1. apply Forall_forall. intros c Hc.
      now apply H1, N.ltb_lt in Hc.
    + now destruct d.
Qed.

Section Noise.
Context {platform : Platform}.

Lemma for_body_unparsable (l : locals) (line : jsstring) :
  unparsable line -> for_body l line = Continue l.
Proof.
  intros [_ [H|H]]; unfold for_body.
  - now rewrite H.
  - destruct (startsWith (js "data: ") line); [|reflexivity].
    unfold try_block. now rewrite H.
Qed.

Lemma content_frame_two_fields (d : jsstring) :
  wf_string d -> two_fields (content_frame d).
Proof.
  intros Hd. exists (js "content"), (Str d), (js "done"), (Bool false).
  repeat split; solve_wf.
Qed.



Lemma for_lines_with_noise (xs : list stream_line) :
  Forall well_formed_line xs ->
  forall l,
    for_lines l (map line_of xs) =
    Continue (mkLocals (fullText l ++ concat (contents xs))
                       (calls l ++ chunk_calls (contents xs))).
Proof.
  induction 1 as [|x xs Hx _ IH]; intros l.
  - cbn. rewrite !app_nil_r. now destruct l.
  - cbn [map for_lines]. destruct x as [line|d]; cbn [well_formed_line] in Hx.
    + cbn [line_of]. rewrite for_body_unparsable by trivial. apply IH.
    + destruct Hx as [Hd Hne]. destruct d as [|c r]; [congruence|].
      cbn [line_of]. rewrite for_body_frame, try_block_content by trivial.
      rewrite IH. cbn [fullText calls contents flat_map app concat chunk_calls map].
      now rewrite <- !app_assoc.
Qed.


(** ** Streams of lines, on any processor *)

(** The loop over a stream whose complete lines, with what the buffer
    held, are content frames and lines that do not parse. *)
Lemma while_loop_well_formed (p : StreamProcessor) (values : list chunk)
    (e : read_end) (xs : list stream_line) :
  no_LF (buffer p) -> Forall well_formed_line xs ->
  complete_lines (buffer p ++ decoded (decoder p) values) = map line_of xs ->
  snd (while_loop p (mkLocals [] []) values e) =
  exit_after e (Continue (mkLocals (concat (contents xs))
                                   (chunk_calls (contents xs)))).
Proof.
  intros Hb Hxs Hlines. rewrite while_loop_lines, Hlines by trivial.
  now rewrite for_lines_with_noise.
Qed.

(** ** C6: the end of the data *)

(** C6.  Whatever the processor holds and whatever the chunks are,
    when the reader reports the end of data [processStream] resolves:
    it has called [onChunk] for the values appended, then [onComplete]
    once, last, with the accumulated text (which may be empty), and
    the promise resolves to that text; it never calls [onError] for
    such a stream.  The text is the one of the stream: when the lines
    that the chunks complete, with what the buffer held, are content
    frames and lines that do not parse, in any chunking, [onChunk] is
    called with the text of each content frame, in order, and the text
    completed and returned is their concatenation. *)
Theorem end_of_data_completes (p : StreamProcessor) (values : list chunk) :
  let r := processStream p (delivered values) in
  (exists cs ts,
     chunk_texts cs ts /\
     handler_calls r = map onChunk cs ++ [onComplete (concat ts)] /\
     result r = Resolved (concat ts)) /\
  (forall xs,
     no_LF (buffer p) -> Forall well_formed_line xs ->
     complete_lines (buffer p ++ decoded (decoder p) values) = map line_of xs ->
     handler_calls r =
       map (fun d => onChunk (JString d)) (contents xs)
       ++ [onComplete (concat (contents xs))] /\
     result r = Resolved (concat (contents xs))).
Proof.
  intros r. split.
  - subst r. unfold processStream, delivered. cbn [body chunks ending].
    pose proof (while_loop_accumulates values p accumulating_start) as H.
    destruct (while_loop p (mkLocals [] []) values Eof) as [p' [l|l|l e]];
      cbn [snd] in H.
    + destruct H as (cs & ts & H2 & Hc & Ht). exists cs, ts.
      cbn [handler_calls result]. now rewrite Hc, Ht.
    + destruct H as (l1 & (cs & ts & H2 & Hc & Ht) & ->). exists cs, ts.
      cbn [handler_calls result fullText calls]. now rewrite Hc, Ht.
    + contradiction.
  - intros xs Hb Hxs Hlines.
    pose proof (processStream_settle p values Eof) as Hs.
    cbv zeta in Hs. fold (delivered values) in Hs. fold r in Hs.
    rewrite (@while_loop_well_formed p values Eof xs Hb Hxs Hlines) in Hs.
    cbn [exit_after settle fullText calls app] in Hs.
    now injection Hs as -> ->.
Qed.

(** ** C10: the line the stream stops in *)

(** Bytes after the last line feed of a stream change neither the
    calls nor the result. *)
Lemma tail_changes_nothing (values values' : list chunk) (tail : chunk) :
  Forall (fun b => b <> 10) tail ->
  concat values' = concat values ++ tail ->
  let r := processStream new_StreamProcessor (delivered values) in
  let r' := processStream new_StreamProcessor (delivered values') in
  handler_calls r' = handler_calls r /\ result r' = result r.
Proof.
  intros Htail Hbytes r r'.
  pose proof (processStream_settle new_StreamProcessor values Eof) as Hs.
  pose proof (processStream_settle new_StreamProcessor values' Eof) as Hs'.
  cbv zeta in Hs, Hs'. fold (delivered values) in Hs.
  fold (delivered values') in Hs'. fold r in Hs. fold r' in Hs'.
  rewrite while_loop_lines in Hs, Hs' by constructor.
  change (buffer new_StreamProcessor) with (@nil N) in Hs, Hs'.
  change (decoder new_StreamProcessor) with new_TextDecoder in Hs, Hs'.
  cbn [app] in Hs, Hs'.
  assert (E : complete_lines (decoded new_TextDecoder values') =
              complete_lines (decoded new_TextDecoder values)).
  { unfold decoded. rewrite Hbytes, decode_stream_app.
    pose proof (decode_stream_sound (concat values) sound_new_decoder) as Hd.
    destruct (decode_stream new_TextDecoder (concat values)) as [d1 t1].
    cbn [fst snd] in *.
    pose proof (decode_stream_no_LF Hd Htail) as Ht.
    destruct (decode_stream d1 tail) as [d2 t2]. cbn [snd] in *.
    rewrite complete_lines_app.
    rewrite (complete_lines_no_LF (s := pending_line t1 ++ t2)).
    - apply app_nil_r.
    - apply Forall_app. split; [apply pending_line_no_LF|exact Ht]. }
  rewrite E in Hs'. rewrite <- Hs in Hs'. now injection Hs' as -> ->.
Qed.

(** C10, amended.  Bytes after the last line feed of a stream, however
    they are cut into chunks, are not parsed by the call that receives
    them: on a new processor the calls made and the result are the
    ones of the stream without these bytes.  They are not discarded
    either: when the loop is left at the end of the data, the text
    after the last line feed is what the buffer of the processor
    holds, and the next call on that processor starts its first line
    with it.  So for every stream whose complete lines, with what the
    buffer held, are content frames and lines that do not parse, the
    calls and the result are those of the complete lines, and the
    unfinished line is in the buffer afterwards. *)
Theorem unfinished_line_waits_in_the_buffer :
  (forall (values values' : list chunk) (tail : chunk),
      Forall (fun b => b <> 10) tail ->
      concat values' = concat values ++ tail ->
      let r := processStream new_StreamProcessor (delivered values) in
      let r' := processStream new_StreamProcessor (delivered values') in
      handler_calls r' = handler_calls r /\ result r' = result r) /\
  (forall (p : StreamProcessor) (values : list chunk) (xs : list stream_line),
      no_LF (buffer p) -> Forall well_formed_line xs ->
      complete_lines (buffer p ++ decoded (decoder p) values) = map line_of xs ->
      let r := processStream p (delivered values) in
      handler_calls r =
        map (fun d => onChunk (JString d)) (contents xs)
        ++ [onComplete (concat (contents xs))] /\
      result r = Resolved (concat (contents xs)) /\
      buffer (processor r)
      = pending_line (buffer p ++ decoded (decoder p) values)).
Proof.
  split; [exact tail_changes_nothing|].
  intros p values xs Hb Hxs Hlines r.
  pose proof (@while_loop_well_formed p values Eof xs Hb Hxs Hlines) as Hw.
  subst r. unfold processStream, delivered. cbn [body chunks ending].
  destruct (while_loop p (mkLocals [] []) values Eof) as [p' x] eqn:E.
  cbn [snd exit_after] in Hw. subst x.
  apply while_loop_break in E; trivial. subst p'.
  cbn [handler_calls result processor buffer fullText calls app].
  repeat split.
Qed.

End Noise.

(** A frame and a second one that is complete but for its line feeds:
    only the first is seen, and the second is in the buffer. *)
Lemma unfinished_second_frame :
  let first := UTF8.encode (frame_text (content_frame (js "Hello"))) in
  let tail := UTF8.encode (frame_line (content_frame (js " world"))) in
  let r := processStream (platform := example_engine) new_StreamProcessor
             (delivered [first ++ tail]) in
  handler_calls r = [onChunk (JString (js "Hello")); onComplete (js "Hello")] /\
  result r = Resolved (js "Hello") /\
  buffer (processor r) = frame_line (content_frame (js " world")).
Proof.
  destruct (proj2 (@unfinished_line_waits_in_the_buffer example_engine)
              new_StreamProcessor
              [UTF8.encode (frame_text (content_frame (js "Hello"))) ++
               UTF8.encode (frame_line (content_frame (js " world")))]
              [content_of (js "Hello"); noise []]) as (Hc & Hr & Hb).
  - constructor.
  - apply well_formed_lineb_sound. vm_compute. reflexivity.
  - vm_compute. reflexivity.
  - cbv zeta. split; [exact Hc|]. split; [exact Hr|].
    rewrite Hb. vm_compute. reflexivity.
Defined.

(** C10, as the claim states it, fails.  The stream stops after a
    content frame and a second frame that lacks its line feeds; the
    second frame is not discarded: it is in the buffer of the
    processor, and when the next stream on that processor brings the
    line feeds, it is parsed as a frame and its text is given to
    [onChunk], completed and returned. *)
Lemma unfinished_line_is_parsed_later :
  let first :=
    delivered [UTF8.encode (frame_text (content_frame (js "Hello"))) ++
               UTF8.encode (frame_line (content_frame (js " world")))] in
  let p := processor (processStream (platform := example_engine)
                        new_StreamProcessor first) in
  let r := processStream (platform := example_engine) p (delivered [[10; 10]]) in
  buffer p = frame_line (content_frame (js " world")) /\
  handler_calls r =
    [onChunk (JString (js " world")); onComplete (js " world")] /\
  result r = Resolved (js " world").
Proof. repeat split; vm_compute; reflexivity. Qed.

(** Scenario C: two content frames, cut inside the first, then the
    transport closes. *)
Lemma end_of_data_after_two_frames :
  let bytes := UTF8.encode (frame_text (content_frame (js "Hel")))
               ++ UTF8.encode (frame_text (content_frame (js "lo"))) in
  let r := processStream (platform := example_engine) new_StreamProcessor
             (delivered [firstn 10 bytes; skipn 10 bytes]) in
  handler_calls r =
    [onChunk (JString (js "Hel")); onChunk (JString (js "lo"));
     onComplete (js "Hello")] /\
  result r = Resolved (js "Hello").
Proof.
  apply (proj2 (@end_of_data_completes example_engine new_StreamProcessor
                  [firstn 10 (UTF8.encode (frame_text (content_frame (js "Hel")))
                              ++ UTF8.encode (frame_text (content_frame (js "lo"))));
                   skipn 10 (UTF8.encode (frame_text (content_frame (js "Hel")))
                             ++ UTF8.encode (frame_text (content_frame (js "lo"))))])
               [content_of (js "Hel"); noise []; content_of (js "lo"); noise []]).
  - constructor.
  - apply well_formed_lineb_sound. vm_compute. reflexivity.
  - vm_compute. reflexivity.
Defined.


(** ** C7: the buffer belongs to the processor *)

Lemma decoded_app (d : TextDecoder) (pre post : list chunk) :
  decoded d (pre ++ post) =
  decoded d pre ++ decoded (decoder_after d pre) post.
Proof.
  unfold decoded, decoder_after. rewrite concat_app, decode_stream_app.
  destruct (decode_stream d (concat pre)) as [d1 t1]. cbn [fst snd].
  destruct (decode_stream d1 (concat post)); reflexivity.
Qed.

Lemma decoded_nil (d : TextDecoder) : decoded d [] = [].
Proof. unfold decoded. cbn [concat]. now rewrite decode_stream_nil. Qed.

Lemma decoder_after_nil (d : TextDecoder) : decoder_after d [] = d.
Proof. unfold decoder_after. cbn [concat]. now rewrite decode_stream_nil. Qed.


Section BufferFacts.
Context {platform : Platform}.

(** Where the loop stops: after some of the chunks, the processor holds
    the decoder as they left it and the pending line of the text so
    far; and if the loop returned, a line completed by these chunks
    made it return. *)
Lemma while_loop_processor (values : list chunk) (e : read_end) :
  forall (p p' : StreamProcessor) (l : locals) (x : while_exit),
    no_LF (buffer p) ->
    while_loop p l values e = (p', x) ->
    exists pre post,
      values = pre ++ post /\
      p' = mkProcessor (decoder_after (decoder p) pre)
                       (pending_line (buffer p ++ decoded (decoder p) pre)) /\
      match x with
      | ReturnedInside l' =>
          for_lines l (complete_lines (buffer p ++ decoded (decoder p) pre))
          = Returned l'
      | _ => post = []
      end.
Proof.
  induction values as [|v rest IH]; intros p p' l x Hb.
  - cbn [while_loop]. intros E. exists [], [].
    rewrite decoded_nil, decoder_after_nil, !app_nil_r, pending_line_id by trivial.
    destruct e; inversion E; subst; repeat split; now destruct p'.
  - cbn [while_loop].
    destruct (decode_stream (decoder p) v) as [d1 t1] eqn:Ev.
    fold (complete_lines (buffer p ++ t1)). fold (pending_line (buffer p ++ t1)).
    assert (Hd1 : decoder_after (decoder p) [v] = d1)
      by (unfold decoder_after; cbn [concat]; now rewrite app_nil_r, Ev).
    assert (Ht1 : decoded (decoder p) [v] = t1)
      by (unfold decoded; cbn [concat]; now rewrite app_nil_r, Ev).
    destruct (for_lines l (complete_lines (buffer p ++ t1))) as [l1|l1] eqn:El.
    + intros E. apply IH in E; [|apply pending_line_no_LF].
      destruct E as (pre & post & -> & -> & Hx). cbn [decoder buffer] in *.
      exists (v :: pre), post. split; [reflexivity|].
      change (v :: pre) with ([v] ++ pre).
      rewrite decoded_app, Hd1, Ht1.
      assert (Hdec : decoder_after (decoder p) ([v] ++ pre) = decoder_after d1 pre)
        by (cbn [app]; now rewrite decoder_after_cons, Ev).
      rewrite Hdec, app_assoc, (pending_line_app (buffer p ++ t1) (decoded d1 pre)).
      split; [reflexivity|].
      destruct x; trivial.
      now rewrite complete_lines_app, for_lines_app, El.
    + intros E. injection E as <- <-. exists [v], rest.
      now rewrite Hd1, Ht1.
Qed.


End BufferFacts.




(** * Further properties of the frame decoder *)

Section DecoderMore.
Context {platform : Platform}.

(** ** A failing read *)

Lemma while_loop_accumulates_any (values : list chunk) (e : read_end) :
  forall p l,
    accumulating l ->
    match snd (while_loop p l values e) with
    | Break l' => accumulating l' /\ e = Eof
    | ReturnedInside l' => completed l'
    | ReadThrew l' reason => accumulating l' /\ e = ReadFails reason
    end.
Proof.
  induction values as [|v rest IH]; intros p l Hl; cbn [while_loop].
  - destruct e; cbn [snd]; auto.
  - destruct (decode_stream (decoder p) v) as [d t].
    pose proof (for_lines_accumulates
                  (removelast (split_lines (buffer p ++ t))) Hl) as H.
    destruct (for_lines l (removelast (split_lines (buffer p ++ t))));
      [apply IH|]; exact H.
Qed.

(** When [read()] fails, [processStream] calls [onError] once, as its
    last call, with an [Error] (the one thrown, or a new one when what
    was thrown is not an [Error]) and rejects with that same error,
    after the [onChunk] calls of the frames read so far; the only other
    outcome is that a frame with [done] had already made it return.
    For a stream that holds no such frame the outcome is the first
    one: when the lines that the chunks complete, with what the buffer
    held, are content frames and lines that do not parse, [onChunk] is
    called with the text of each content frame, then [onError], and
    [onComplete] is not called. *)
Theorem read_failure_is_reported (p : StreamProcessor) (values : list chunk)
    (reason : thrown) :
  let r := processStream p (interrupted values reason) in
  (exists cs ts,
     chunk_texts cs ts /\
     ((handler_calls r = map onChunk cs ++ [onError (reported reason)] /\
       result r = Rejected (reported reason)) \/
      (handler_calls r = map onChunk cs ++ [onComplete (concat ts)] /\
       result r = Resolved (concat ts)))) /\
  (forall xs,
     no_LF (buffer p) -> Forall well_formed_line xs ->
     complete_lines (buffer p ++ decoded (decoder p) values) = map line_of xs ->
     handler_calls r =
       map (fun d => onChunk (JString d)) (contents xs)
       ++ [onError (reported reason)] /\
     result r = Rejected (reported reason)).
Proof.
  intros r. split.
  - subst r. unfold processStream, interrupted.
    cbn [body chunks ending].
    pose proof (while_loop_accumulates_any values (ReadFails reason) p
                  accumulating_start) as H.
    destruct (while_loop p (mkLocals [] []) values (ReadFails reason))
      as [p' [l|l|l e]]; cbn [snd] in H.
    + destruct H as [_ H]. discriminate.
    + destruct H as (l1 & (cs & ts & H2 & Hc & Ht) & ->). exists cs, ts.
      split; trivial. right. cbn [handler_calls result fullText calls].
      now rewrite Hc, Ht.
    + destruct H as [(cs & ts & H2 & Hc & Ht) E]. injection E as <-.
      exists cs, ts. split; trivial. left. cbn [handler_calls result].
      now rewrite Hc.
  - intros xs Hb Hxs Hlines.
    pose proof (processStream_settle p values (ReadFails reason)) as Hs.
    cbv zeta in Hs. fold (interrupted values reason) in Hs. fold r in Hs.
    rewrite (@while_loop_well_formed _ p values (ReadFails reason) xs Hb Hxs Hlines)
      in Hs.
    cbn [exit_after settle fullText calls app] in Hs.
    destruct reason; now injection Hs as -> ->.
Qed.

(** ** The chunking of any stream *)

(** The calls and the result of [processStream] depend on the bytes of
    the body and on how it ends, not on how the bytes are cut into
    chunks: this holds for every byte sequence, valid UTF-8 or not,
    frames or not, on any processor whose buffer holds no line feed. *)
Theorem outcome_depends_on_the_bytes (p : StreamProcessor)
    (values values' : list chunk) (e : read_end) :
  no_LF (buffer p) ->
  concat values = concat values' ->
  let r := processStream p (mkResponse true 200 (Some (mkStream values e))) in
  let r' := processStream p (mkResponse true 200 (Some (mkStream values' e))) in
  handler_calls r = handler_calls r' /\ result r = result r'.
Proof.
  intros Hb Hbytes r r'.
  pose proof (processStream_settle p values e) as Hs.
  pose proof (processStream_settle p values' e) as Hs'.
  cbv zeta in Hs, Hs'. fold r in Hs. fold r' in Hs'.
  rewrite while_loop_lines in Hs, Hs' by trivial.
  unfold decoded in Hs, Hs'. rewrite Hbytes in Hs. rewrite <- Hs' in Hs.
  now injection Hs as -> ->.
Qed.

(** ** The buffer between calls *)

Lemma processStream_processor (p : StreamProcessor) (response : Response) :
  processor (processStream p response) =
  match body response with
  | None => p
  | Some stream =>
      fst (while_loop p (mkLocals [] []) (chunks stream) (ending stream))
  end.
Proof.
  unfold processStream. destruct (body response) as [stream|]; trivial.
  now destruct (while_loop p (mkLocals [] []) (chunks stream) (ending stream))
    as [q [l|l|l reason]].
Qed.

(** [processStream] leaves in the buffer a text without line feed, and
    a decoder in a state it can reach from a new one, whenever it
    started so; a new processor starts so, and [reset()] keeps it. *)
Theorem buffer_holds_no_line_feed (p : StreamProcessor) (response : Response) :
  no_LF (buffer p) -> sound_decoder (decoder p) ->
  let p' := processor (processStream p response) in
  no_LF (buffer p') /\ sound_decoder (decoder p') /\
  no_LF (buffer (reset p')) /\ sound_decoder (decoder (reset p')).
Proof.
  intros Hb Hd p'.
  assert (H : no_LF (buffer p') /\ sound_decoder (decoder p')).
  { subst p'. rewrite processStream_processor.
    destruct (body response) as [stream|]; [|now split].
    destruct (while_loop p (mkLocals [] []) (chunks stream) (ending stream))
      as [q x] eqn:Ew.
    apply while_loop_processor in Ew; trivial.
    destruct Ew as (pre & post & _ & -> & _). cbn [fst buffer decoder]. split.
    - apply pending_line_no_LF.
    - apply decode_stream_sound, Hd. }
  destruct H as [H1 H2]. repeat split; trivial. constructor.
Qed.

End DecoderMore.

Lemma buffer_after_a_cut_stream :
  let p' := processor (processStream (platform := example_engine)
                         new_StreamProcessor
                         (delivered [[100; 97; 10; 116; 97; 195]])) in
  no_LF (buffer p') /\ sound_decoder (decoder p') /\
  no_LF (buffer (reset p')) /\ sound_decoder (decoder (reset p')).
Proof.
  apply (@buffer_holds_no_line_feed example_engine new_StreamProcessor
           (delivered [[100; 97; 10; 116; 97; 195]])).
  - constructor.
  - now left.
Defined.

(** Bytes that are no frames at all, with an unfinished character at
    the end, in three chunks and in one. *)
Lemma outcome_of_arbitrary_bytes :
  let a := [[255; 100]; [10; 226]; [130; 10; 240]] in
  let b := [[255; 100; 10; 226; 130; 10; 240]] in
  let r := processStream (platform := example_engine) new_StreamProcessor
             (mkResponse true 200 (Some (mkStream a (ReadFails NotAnError)))) in
  let r' := processStream (platform := example_engine) new_StreamProcessor
              (mkResponse true 200 (Some (mkStream b (ReadFails NotAnError)))) in
  handler_calls r = handler_calls r' /\ result r = result r'.
Proof.
  apply (@outcome_depends_on_the_bytes example_engine new_StreamProcessor
           [[255; 100]; [10; 226]; [130; 10; 240]]
           [[255; 100; 10; 226; 130; 10; 240]] (ReadFails NotAnError)).
  - constructor.
  - reflexivity.
Defined.

(** Two content frames cut inside the second, then [read()] fails with
    something that is not an [Error]. *)
Lemma read_failure_after_two_frames :
  let bytes := UTF8.encode (frame_text (content_frame (js "Hel")))
               ++ UTF8.encode (frame_text (content_frame (js "lo"))) in
  let r := processStream (platform := example_engine) new_StreamProcessor
             (interrupted [firstn 40 bytes; skipn 40 bytes] NotAnError) in
  handler_calls r =
    [onChunk (JString (js "Hel")); onChunk (JString (js "lo"));
     onError (ErrorObject (js "Unknown streaming error"))] /\
  result r = Rejected (ErrorObject (js "Unknown streaming error")).
Proof.
  apply (proj2 (@read_failure_is_reported example_engine new_StreamProcessor
                  [firstn 40 (UTF8.encode (frame_text (content_frame (js "Hel")))
                              ++ UTF8.encode (frame_text (content_frame (js "lo"))));
                   skipn 40 (UTF8.encode (frame_text (content_frame (js "Hel")))
                             ++ UTF8.encode (frame_text (content_frame (js "lo"))))]
                  NotAnError)
               [content_of (js "Hel"); noise []; content_of (js "lo"); noise []]).
  - constructor.
  - apply well_formed_lineb_sound. vm_compute. reflexivity.
  - vm_compute. reflexivity.
Defined.

(** * One processor, several streams *)

Lemma encode_frame_text (o : object_literal) :
  two_fields o ->
  UTF8.encode (frame_text o) = UTF8.encode (frame_line o) ++ [10; 10].
Proof.
  intros Ho. rewrite frame_text_line.
  now rewrite (CodecFacts.encode_app [LF; LF] (frame_line_text Ho)).
Qed.

Lemma decode_stream_frame_line (seen : bool) (o : object_literal) :
  two_fields o ->
  decode_stream (mkDecoder UTF8.initial seen) (UTF8.encode (frame_line o)) =
  (mkDecoder UTF8.initial true, frame_line o).
Proof.
  intros Ho. assert (Ht := frame_line_text Ho).
  assert (E : frame_line o = 100 :: tl (frame_line o)) by reflexivity.
  rewrite E in Ht |- *.
  now rewrite (decode_stream_encode seen (c := 100) (r := tl (frame_line o))
                 (P := not_LF)) by (trivial; lia).
Qed.

Lemma pending_line_after_LF (a : jsstring) : pending_line (a ++ [LF]) = [].
Proof.
  rewrite pending_line_app. unfold pending_line.
  now rewrite split_lines_line by apply pending_line_no_LF.
Qed.

Lemma wire_bytes_app (a b : list object_literal) :
  wire_bytes (a ++ b) = wire_bytes a ++ wire_bytes b.
Proof. unfold wire_bytes. now rewrite map_app, concat_app. Qed.

Lemma wire_text_app (a b : list object_literal) :
  wire_text (a ++ b) = wire_text a ++ wire_text b.
Proof. unfold wire_text. apply flat_map_app. Qed.

Lemma pending_line_frames (os : list object_literal) :
  Forall two_fields os -> pending_line (wire_text os) = [].
Proof.
  intros H. unfold pending_line. rewrite complete_lines_frames by trivial.
  apply last_last.
Qed.

Lemma complete_lines_of_frames (os : list object_literal) :
  Forall two_fields os ->
  complete_lines (wire_text os) = flat_map (fun o => [frame_line o; []]) os.
Proof.
  intros H. unfold complete_lines. rewrite complete_lines_frames by trivial.
  apply removelast_last.
Qed.

Section Reuse.
Context {platform : Platform}.

(** The bytes of a run up to its terminal frame, without the two line
    feeds that end it: whatever part of them has been read, the loop
    has not returned. *)
Lemma for_lines_before_terminal (g : AsyncGenerator) (seen : bool)
    (pre : list chunk) (m : chunk) :
  wf_generator g ->
  concat pre ++ m =
    wire_bytes (map content_frame (deltas g))
    ++ UTF8.encode (frame_line (terminal_frame (finish g))) ->
  exists l,
    for_lines (mkLocals [] [])
      (complete_lines (decoded (mkDecoder UTF8.initial seen) pre)) = Continue l.
Proof.
  intros Hwf Hbytes.
  assert (Hframes := frames_two_fields Hwf). unfold frames in Hframes.
  apply Forall_app in Hframes as [Hc Ht].
  inversion_clear Ht as [|? ? Ht' _].
  assert (Htext :
    snd (decode_stream (mkDecoder UTF8.initial seen) (concat pre ++ m)) =
    wire_text (map content_frame (deltas g))
    ++ frame_line (terminal_frame (finish g))).
  { rewrite Hbytes, decode_stream_app, decode_stream_frames by trivial.
    rewrite decode_stream_frame_line by trivial. reflexivity. }
  rewrite decode_stream_app in Htext. fold (decoded (mkDecoder UTF8.initial seen) pre).
  unfold decoded.
  destruct (decode_stream (mkDecoder UTF8.initial seen) (concat pre)) as [d1 t1].
  destruct (decode_stream d1 m) as [d2 t2]. cbn [snd] in *.
  assert (Hlines :
    complete_lines (t1 ++ t2) =
    flat_map (fun o => [frame_line o; []]) (map content_frame (deltas g))).
  { rewrite Htext, complete_lines_app, pending_line_frames by trivial.
    rewrite complete_lines_of_frames by trivial. cbn [app].
    rewrite complete_lines_no_LF
      by (apply text_without_LF, frame_line_text, Ht').
    apply app_nil_r. }
  destruct Hwf as [Hd _].
  pose proof (for_lines_content Hd (deltas_not_empty g) (mkLocals [] [])) as Hcont.
  rewrite <- Hlines, complete_lines_app, for_lines_app in Hcont.
  destruct (for_lines (mkLocals [] []) (complete_lines t1)) as [l|l];
    [eauto|discriminate].
Qed.

(** After the bytes of a run of the encoder, in any chunking, a
    processor that was at rest is at rest again. *)
Lemma rest_after_encoded (p : StreamProcessor) (g : AsyncGenerator)
    (values : list chunk) :
  at_rest p -> wf_generator g ->
  concat values = wire_bytes (frames g) ->
  at_rest (processor (processStream p (delivered values))).
Proof.
  intros [Hu Hb] Hwf Hbytes.
  destruct p as [[u seen] b]. cbn [decoder buffer utf8] in Hu, Hb. subst u b.
  rewrite processStream_processor. unfold delivered. cbn [body chunks ending].
  destruct (while_loop _ (mkLocals [] []) values Eof) as [q x] eqn:Ew.
  apply while_loop_processor in Ew; [|constructor].
  destruct Ew as (pre & post & Hv & -> & Hx).
  cbn [fst decoder buffer app] in *.
  assert (Hframes := frames_two_fields Hwf).
  assert (Hwhole : forall vs, concat vs = wire_bytes (frames g) ->
             at_rest (mkProcessor (decoder_after (mkDecoder UTF8.initial seen) vs)
                        (pending_line (decoded (mkDecoder UTF8.initial seen) vs)))).
  { intros vs E. unfold at_rest, decoder_after, decoded. cbn [decoder buffer].
    rewrite E, decode_stream_frames by trivial. cbn [fst snd utf8].
    split; [reflexivity|now apply pending_line_frames]. }
  assert (Hpost : post = [] -> at_rest
            (mkProcessor (decoder_after (mkDecoder UTF8.initial seen) pre)
               (pending_line (decoded (mkDecoder UTF8.initial seen) pre)))).
  { intros ->. rewrite app_nil_r in Hv. subst pre. now apply Hwhole. }
  destruct x as [l'|l'|l' reason]; [now apply Hpost| |now apply Hpost].
  (* the loop returned *)
  assert (Hsplit :
    concat pre ++ concat post =
    (wire_bytes (map content_frame (deltas g))
     ++ UTF8.encode (frame_line (terminal_frame (finish g)))) ++ [10; 10]).
  { rewrite <- concat_app, <- Hv, Hbytes. unfold frames.
    rewrite wire_bytes_app, <- app_assoc. f_equal.
    unfold wire_bytes. cbn [map concat]. rewrite app_nil_r.
    apply encode_frame_text.
    unfold frames in Hframes. apply Forall_app in Hframes as [_ Ht].
    now inversion Ht. }
  apply app_eq_app in Hsplit as (m & [[E1 E2]|[E1 E2]]).
  - destruct m as [|a [|b [|c m]]].
    + rewrite app_nil_r in E1.
      destruct (@for_lines_before_terminal g seen pre [] Hwf) as [l Hl].
      * now rewrite app_nil_r.
      * rewrite Hl in Hx. discriminate.
    + cbn [app] in E2. injection E2 as <- _.
      unfold at_rest, decoder_after, decoded. cbn [decoder buffer].
      unfold frames in Hframes. apply Forall_app in Hframes as [Hc Ht].
      inversion_clear Ht as [|? ? Ht' _].
      rewrite E1, !decode_stream_app, decode_stream_frames by trivial.
      rewrite decode_stream_frame_line by trivial.
      cbn [fst snd utf8]. split; [reflexivity|].
      change (decode_stream (mkDecoder UTF8.initial true) [10])
        with (mkDecoder UTF8.initial true, [LF]).
      cbn [snd]. apply pending_line_after_LF.
    + cbn [app] in E2. injection E2 as <- <- _.
      apply Hwhole. rewrite E1. unfold frames.
      rewrite wire_bytes_app, <- app_assoc. f_equal.
      unfold wire_bytes. cbn [map concat]. rewrite app_nil_r.
      symmetry. apply encode_frame_text.
      unfold frames in Hframes. apply Forall_app in Hframes as [_ Ht].
      now inversion Ht.
    + cbn [app] in E2. injection E2 as _ _ E2. discriminate.
  - destruct (@for_lines_before_terminal g seen pre m Hwf) as [l Hl].
    + now symmetry.
    + rewrite Hl in Hx. discriminate.
Qed.

(** The calls and the result on a processor at rest are those on a new
    processor. *)
Lemma processStream_encoded_at_rest (p : StreamProcessor) (g : AsyncGenerator)
    (values : list chunk) :
  at_rest p -> wf_generator g ->
  concat values = wire_bytes (frames g) ->
  let r := processStream p (delivered values) in
  handler_calls r = chunk_calls (deltas g) ++ [onComplete (concat (deltas g))] /\
  result r = Resolved (concat (deltas g)).
Proof.
  intros [Hu Hb] Hwf Hbytes r.
  destruct p as [[u seen] b]. cbn [decoder buffer utf8] in Hu, Hb. subst u b.
  pose proof (processStream_settle
                (mkProcessor (mkDecoder UTF8.initial seen) []) values Eof) as Hs.
  cbv zeta in Hs. fold (delivered values) in Hs. fold r in Hs.
  rewrite while_loop_lines in Hs by constructor.
  cbn [buffer decoder app] in Hs. unfold decoded in Hs.
  rewrite Hbytes, decode_stream_frames in Hs by now apply frames_two_fields.
  cbn [snd] in Hs. rewrite complete_lines_of_frames in Hs
    by now apply frames_two_fields.
  destruct (for_lines_frames Hwf) as [E|E]; rewrite E in Hs;
    cbn [exit_after settle fullText calls] in Hs;
    now injection Hs as -> ->.
Qed.

End Reuse.

Section ReuseTheorems.
Context {platform : Platform}.

(** A processor at rest (a new one is) that decodes the body of a run
    of the encoder, in any chunking, is at rest again afterwards; and
    when the run completed, it has called [onChunk] for each delta,
    then [onComplete], and resolved to the text.  So one processor can
    decode one such body after the other without [reset()]. *)
Theorem processor_can_be_reused (p : StreamProcessor) (g : AsyncGenerator)
    (values : list chunk) :
  at_rest p -> wf_generator g ->
  concat values = concat (enqueued (start g reads_to_end)) ->
  let r := processStream p (delivered values) in
  at_rest (processor r) /\
  (finish g = Completes ->
   result r = Resolved (concat (deltas g)) /\
   handler_calls r =
     map (fun d => onChunk (JString d)) (deltas g)
     ++ [onComplete (concat (deltas g))]).
Proof.
  intros Hp Hwf Hbytes r. rewrite stream_bytes in Hbytes. split.
  - now apply rest_after_encoded with (g := g).
  - intros _.
    destruct (@processStream_encoded_at_rest _ p g values Hp Hwf Hbytes)
      as [Hc Hr].
    split; assumption.
Qed.

(** After [reset()], a processor whose decoder has no sequence open
    decodes the body of a completed run as a new processor does,
    whatever its buffer held before. *)
Theorem reset_discards_the_pending_line (p : StreamProcessor)
    (g : AsyncGenerator) (values : list chunk) :
  utf8 (decoder p) = UTF8.initial ->
  wf_generator g -> finish g = Completes ->
  concat values = concat (enqueued (start g reads_to_end)) ->
  let r := processStream (reset p) (delivered values) in
  result r = Resolved (concat (deltas g)) /\
  handler_calls r =
    map (fun d => onChunk (JString d)) (deltas g)
    ++ [onComplete (concat (deltas g))].
Proof.
  intros Hu Hwf _ Hbytes r. rewrite stream_bytes in Hbytes.
  assert (Hp : at_rest (reset p)) by (split; [exact Hu|reflexivity]).
  destruct (@processStream_encoded_at_rest _ (reset p) g values Hp Hwf Hbytes)
    as [Hc Hr].
  split; assumption.
Qed.

(** ** After the completion frame *)

Lemma for_lines_frames_completed (g : AsyncGenerator) :
  wf_generator g -> finish g = Completes ->
  for_lines (mkLocals [] []) (flat_map (fun o => [frame_line o; []]) (frames g))
  = Returned (mkLocals (concat (deltas g))
                (chunk_calls (deltas g) ++ [onComplete (concat (deltas g))])).
Proof.
  intros [Hd _] Hfin. unfold frames.
  rewrite flat_map_app, for_lines_app.
  rewrite for_lines_content by (trivial; apply deltas_not_empty).
  rewrite Hfin. cbn [flat_map app terminal_frame for_lines fullText calls].
  now rewrite for_body_frame, try_block_done.
Qed.

(** Once the completion frame of a run has been read, [processStream]
    has returned: bytes that follow it in the body, and the way the
    body ends (end of data or a failing read), change nothing. *)
Theorem nothing_is_read_after_completion (g : AsyncGenerator)
    (values : list chunk) (extra : chunk) (e : read_end) :
  wf_generator g -> finish g = Completes ->
  concat values = concat (enqueued (start g reads_to_end)) ++ extra ->
  let r := processStream new_StreamProcessor
             (mkResponse true 200 (Some (mkStream values e))) in
  result r = Resolved (concat (deltas g)) /\
  handler_calls r =
    map (fun d => onChunk (JString d)) (deltas g)
    ++ [onComplete (concat (deltas g))].
Proof.
  intros Hwf Hfin Hbytes r. rewrite stream_bytes in Hbytes.
  pose proof (processStream_settle new_StreamProcessor values e) as Hs.
  cbv zeta in Hs. fold r in Hs.
  rewrite while_loop_lines in Hs by constructor.
  change (buffer new_StreamProcessor) with (@nil N) in Hs.
  change (decoder new_StreamProcessor) with (mkDecoder UTF8.initial false) in Hs.
  cbn [app] in Hs. unfold decoded in Hs.
  rewrite Hbytes, decode_stream_app, decode_stream_frames in Hs
    by now apply frames_two_fields.
  destruct (decode_stream _ extra) as [d2 t2]. cbn [snd] in Hs.
  rewrite complete_lines_app, complete_lines_of_frames, for_lines_app in Hs
    by now apply frames_two_fields.
  rewrite for_lines_frames_completed in Hs by trivial.
  cbn [exit_after settle fullText calls] in Hs.
  now injection Hs as -> ->.
Qed.

End ReuseTheorems.

(** ** The lines of the body *)

(** Whatever the deltas hold (line feeds, quotes, surrogates on their
    own), the body of the response, decoded, is one line per frame,
    [data: ] and the object, each followed by an empty line. *)
Theorem every_frame_is_one_line (g : AsyncGenerator) :
  wf_generator g ->
  split_lines (decoded new_TextDecoder (enqueued (start g reads_to_end))) =
  flat_map (fun o => [js "data: " ++ JSON.stringify o; []])
    (map content_frame (deltas g) ++ [terminal_frame (finish g)])
  ++ [[]].
Proof.
  intros Hwf. unfold decoded. rewrite stream_bytes.
  change new_TextDecoder with (mkDecoder UTF8.initial false).
  rewrite decode_stream_frames by now apply frames_two_fields.
  cbn [snd]. now rewrite complete_lines_frames by now apply frames_two_fields.
Qed.

Lemma awkward_frame_is_one_line :
  split_lines (decoded new_TextDecoder (enqueued (start awkward reads_to_end))) =
  [js "data: {" ++ quoted "content" ++ js ":" ++ [34]
   ++ [92; 110; 92; 34; 92; 92; 92] ++ js "ud83d" ++ [34]
   ++ js "," ++ quoted "done" ++ js ":false}";
   [];
   js "data: {" ++ quoted "content" ++ js ":" ++ [34; 34]
   ++ js "," ++ quoted "done" ++ js ":true}";
   []; []].
Proof.
  rewrite (@every_frame_is_one_line awkward).
  - vm_compute. reflexivity.
  - split; [|exact I]. repeat constructor.
Defined.

(** Scenario A cut between its last two line feeds, then [accented] cut
    inside a character, on the same processor. *)
Lemma two_streams_on_one_processor :
  let p1 := processor (processStream (platform := example_engine)
                         new_StreamProcessor (delivered (cut_at 149 scenario_A))) in
  let r := processStream (platform := example_engine) p1
             (delivered (cut_at 22 accented)) in
  at_rest (processor r) /\
  result r = Resolved [99; 97; 102; 233; 32; 55357; 56832].
Proof.
  destruct (@processor_can_be_reused example_engine
              (processor (processStream (platform := example_engine)
                            new_StreamProcessor (delivered (cut_at 149 scenario_A))))
              accented (cut_at 22 accented)) as [Hrest Hrun].
  - split; vm_compute; reflexivity.
  - split; [|exact I]. repeat constructor.
  - vm_compute. reflexivity.
  - split; [exact Hrest|]. exact (proj1 (Hrun eq_refl)).
Defined.

(** The processor that kept an unfinished frame in its buffer, reset,
    then scenario A. *)
Lemma reset_then_scenario_A :
  let p := processor (processStream (platform := example_engine)
              new_StreamProcessor
              (delivered [UTF8.encode (frame_line (content_frame (js "x")))])) in
  buffer p <> [] /\
  result (processStream (platform := example_engine) (reset p)
            (delivered (cut_at 60 scenario_A))) =
  Resolved (js "Hello world").
Proof.
  split; [vm_compute; discriminate|].
  apply (@reset_discards_the_pending_line example_engine
           (processor (processStream (platform := example_engine)
              new_StreamProcessor
              (delivered [UTF8.encode (frame_line (content_frame (js "x")))])))
           scenario_A (cut_at 60 scenario_A)).
  - vm_compute. reflexivity.
  - split; [|exact I]. repeat constructor.
  - reflexivity.
  - vm_compute. reflexivity.
Defined.

(** Scenario A, then bytes that look like a further frame, and a
    failing read. *)
Lemma frame_after_completion :
  let extra := UTF8.encode (frame_text (content_frame (js "late"))) in
  let values := [concat (enqueued (start scenario_A reads_to_end)) ++ extra] in
  let r := processStream (platform := example_engine) new_StreamProcessor
             (mkResponse true 200 (Some (mkStream values (ReadFails NotAnError)))) in
  result r = Resolved (js "Hello world") /\
  handler_calls r =
    [onChunk (JString (js "Hello")); onChunk (JString (js " "));
     onChunk (JString (js "world")); onComplete (js "Hello world")].
Proof.
  apply (@nothing_is_read_after_completion example_engine scenario_A
           [concat (enqueued (start scenario_A reads_to_end))
            ++ UTF8.encode (frame_text (content_frame (js "late")))]
           (UTF8.encode (frame_text (content_frame (js "late"))))
           (ReadFails NotAnError)).
  - split; [|exact I]. repeat constructor.
  - reflexivity.
  - cbn [concat]. apply app_nil_r.
Defined.

(** * [simulateTypingEffect] *)

Lemma map_char_at (pre text : jsstring) :
  map (char_at (pre ++ text)) (seq (length pre) (length text))
  = map (fun c => Some [c]) text.
Proof.
  revert pre. induction text as [|c text IH]; intros pre; [reflexivity|].
  cbn [length seq map]. f_equal.
  - unfold char_at. rewrite nth_error_app2 by lia.
    rewrite Nat.sub_diag. reflexivity.
  - specialize (IH (pre ++ [c])). rewrite <- app_assoc in IH. cbn [app] in IH.
    rewrite length_app in IH. cbn [length] in IH.
    replace (length pre + 1)%nat with (S (length pre)) in IH by lia.
    exact IH.
Qed.

(** The typing effect yields the code units of the text one by
    one, in order and none of them undefined, so that the yields give
    the text back when joined. *)
Theorem typing_yields_every_code_unit (text : jsstring) :
  simulateTypingEffect text = map (fun c => Some [c]) text
  /\ typed_text (simulateTypingEffect text) = text.
Proof.
  assert (E : simulateTypingEffect text = map (fun c => Some [c]) text)
    by exact (map_char_at [] text).
  split; [exact E|]. rewrite E. unfold typed_text.
  induction text as [|c text IH]; [reflexivity|].
  cbn [map concat app]. f_equal. apply IH.
  exact (map_char_at [] text).
Qed.

(** * [debounceStream] *)

Section DebounceFacts.
Variable T : Type.

Lemma one_timer_start : one_timer (debounceStream T) Timers.none.
Proof. exact I. Qed.

Lemma remove_single (id : nat) : List.remove Nat.eq_dec id [id] = [].
Proof. cbn. destruct (Nat.eq_dec id id); [reflexivity|contradiction]. Qed.

(** After a call exactly the new timer is pending. *)
Lemma debounced_call_pending (v : T) (c : debouncer T) (t : Timers.timers) :
  one_timer c t ->
  Timers.pending (snd (debounced_call v c t)) = [Timers.next_id t]
  /\ fst (debounced_call v c t) = mkDebouncer (Some (Timers.next_id t)) (Some v)
  /\ Timers.next_id (snd (debounced_call v c t)) = S (Timers.next_id t).
Proof.
  unfold one_timer, debounced_call. intros H.
  destruct t as [p n]. cbn [Timers.pending Timers.next_id] in *.
  destruct p as [|id [|? ?]]; [| |contradiction].
  - destruct (timeoutId c); cbn; auto.
  - destruct H as [-> _]. cbn [Timers.clearTimeout Timers.pending Timers.next_id].
    rewrite remove_single. cbn. auto.
Qed.

Lemma debounced_call_one_timer (v : T) (c : debouncer T) (t : Timers.timers) :
  one_timer c t ->
  one_timer (fst (debounced_call v c t)) (snd (debounced_call v c t)).
Proof.
  intros H. destruct (debounced_call_pending v c t H) as (Hp & Hc & _).
  unfold one_timer. rewrite Hp, Hc. cbn. split; [reflexivity|discriminate].
Qed.

(** A run of a timer: nothing if it is not the pending one, else the
    call of [callback] with the stored value, and no timer is left. *)
Lemma timer_runs_cases (id : nat) (c : debouncer T) (t : Timers.timers) :
  one_timer c t ->
  (timer_runs id c t = (None, t))
  \/ (exists v, latestValue c = Some v
        /\ fst (timer_runs id c t) = Some (Some v)
        /\ Timers.pending (snd (timer_runs id c t)) = []
        /\ Timers.next_id (snd (timer_runs id c t)) = Timers.next_id t
        /\ Timers.pending t = [id]).
Proof.
  unfold one_timer, timer_runs, Timers.is_pending, Timers.done. intros H.
  destruct t as [p n]. cbn [Timers.pending Timers.next_id] in *.
  destruct p as [|id' [|? ?]]; [| |contradiction].
  - left. reflexivity.
  - destruct H as [_ Hv]. cbn [existsb]. rewrite orb_false_r.
    destruct (Nat.eqb_spec id id') as [->|Hne].
    + right. destruct (latestValue c) as [v|]; [|congruence].
      exists v. cbn [fst snd Timers.pending Timers.next_id].
      rewrite remove_single. auto 6.
    + left. reflexivity.
Qed.

Lemma timer_runs_one_timer (id : nat) (c : debouncer T) (t : Timers.timers) :
  one_timer c t -> one_timer c (snd (timer_runs id c t)).
Proof.
  intros H. destruct (timer_runs_cases id c t H) as [E|(v & _ & _ & Hp & _ & _)].
  - rewrite E. exact H.
  - unfold one_timer. rewrite Hp. exact I.
Qed.

Lemma debounce_run_app (c : debouncer T) (t : Timers.timers)
    (pre post : list (debounce_event T)) :
  exists c' t',
    debounce_run c t (pre ++ post)
    = debounce_run c t pre ++ debounce_run c' t' post
    /\ latestValue c' = last_invoked (latestValue c) pre
    /\ (one_timer c t -> one_timer c' t')
    /\ length (debounce_run c t pre) = length pre.
Proof.
  revert c t. induction pre as [|e pre IH]; intros c t.
  - exists c, t. cbn. auto.
  - destruct e as [v|id].
    + cbn [app debounce_run].
      pose proof (debounced_call_one_timer v c t) as Hinv.
      assert (Hl : latestValue (fst (debounced_call v c t)) = Some v).
      { unfold debounced_call. destruct (Timers.setTimeout _). reflexivity. }
      destruct (debounced_call v c t) as [c1 t1]. cbn [fst snd] in *.
      destruct (IH c1 t1) as (c' & t' & E & L & Inv & Len).
      exists c', t'. rewrite E. cbn [app length]. repeat split; auto.
      rewrite L, Hl. reflexivity.
    + cbn [app debounce_run].
      pose proof (timer_runs_one_timer id c t) as Hinv.
      destruct (timer_runs id c t) as [out t1]. cbn [fst snd] in *.
      destruct (IH c t1) as (c' & t' & E & L & Inv & Len).
      exists c', t'. rewrite E. cbn [app length]. repeat split; auto.
Qed.

Lemma callbacks_none (outs : list (option (option T))) :
  callbacks (None :: outs) = callbacks outs.
Proof. reflexivity. Qed.

Lemma callbacks_some (x : option T) (outs : list (option (option T))) :
  callbacks (Some x :: outs) = S (callbacks outs).
Proof. reflexivity. Qed.

Lemma invocations_invoke (v : T) (events : list (debounce_event T)) :
  invocations (Invoke v :: events) = S (invocations events).
Proof. reflexivity. Qed.

Lemma invocations_elapse (id : nat) (events : list (debounce_event T)) :
  invocations (Elapse id :: events) = invocations events.
Proof. reflexivity. Qed.

Lemma callbacks_bound (c : debouncer T) (t : Timers.timers)
    (events : list (debounce_event T)) :
  one_timer c t ->
  (callbacks (debounce_run c t events)
   <= length (Timers.pending t) + invocations events)%nat.
Proof.
  revert c t. induction events as [|e events IH]; intros c t H.
  - cbn. lia.
  - destruct e as [v|id].
    + cbn [debounce_run].
      pose proof (debounced_call_one_timer v c t H) as Hinv.
      destruct (debounced_call_pending v c t H) as (Hp & _ & _).
      destruct (debounced_call v c t) as [c1 t1]. cbn [fst snd] in *.
      specialize (IH c1 t1 Hinv). rewrite Hp in IH. cbn [length] in IH.
      rewrite callbacks_none, invocations_invoke. lia.
    + cbn [debounce_run].
      pose proof (timer_runs_one_timer id c t H) as Hinv.
      destruct (timer_runs_cases id c t H) as [E|(v & _ & Ho & Hp & _ & Hq)].
      * rewrite E in *. cbn [snd] in Hinv. specialize (IH c t Hinv).
        rewrite callbacks_none, invocations_elapse. exact IH.
      * destruct (timer_runs id c t) as [out t1]. cbn [fst snd] in *.
        subst out. specialize (IH c t1 Hinv). rewrite Hp in IH.
        cbn [length] in IH.
        rewrite callbacks_some, invocations_elapse.
        rewrite Hq. cbn [length]. lia.
Qed.

Lemma one_timer_pending (c : debouncer T) (t : Timers.timers) :
  one_timer c t -> (length (Timers.pending t) <= 1)%nat.
Proof.
  unfold one_timer. destruct (Timers.pending t) as [|? [|? ?]]; cbn; intros; try lia; try contradiction.
Qed.

(** The callback of a debouncer is only called when a timer runs,
    and then with the value of the most recent call of the debounced
    function, never with the undefined initial value. *)
Theorem callback_gets_the_latest_value
    (before after : list (debounce_event T)) (e : debounce_event T)
    (argument : option T) :
  nth_error (debounced (before ++ e :: after)) (length before) = Some (Some argument) ->
  (exists id, e = Elapse id)
  /\ argument = last_invoked None before
  /\ argument <> None.
Proof.
  unfold debounced.
  destruct (debounce_run_app (debounceStream T) Timers.none before (e :: after))
    as (c & t & E & L & Inv & Len).
  specialize (Inv one_timer_start).
  rewrite E, nth_error_app2 by lia. rewrite Len, Nat.sub_diag.
  cbn [latestValue debounceStream] in L.
  destruct e as [v|id]; cbn [debounce_run].
  - destruct (debounced_call v c t). cbn. discriminate.
  - destruct (timer_runs_cases id c t Inv) as [Eq|(v & Hv & Ho & _)].
    + rewrite Eq. cbn. discriminate.
    + destruct (timer_runs id c t) as [out t1]. cbn [fst] in Ho. subst out.
      cbn [nth_error]. intros [= <-]. split; [eauto|].
      rewrite <- L, Hv. split; [reflexivity|discriminate].
Qed.

(** However the timers run, a stretch of events causes at most
    one call of the callback more than it has calls of the debounced
    function: between two calls of the callback the debounced function
    was called. *)
Theorem at_most_one_callback_per_call (before events : list (debounce_event T)) :
  (callbacks (skipn (length before) (debounced (before ++ events)))
   <= 1 + invocations events)%nat.
Proof.
  unfold debounced.
  destruct (debounce_run_app (debounceStream T) Timers.none before events)
    as (c & t & E & _ & Inv & Len).
  specialize (Inv one_timer_start).
  rewrite E, <- Len, skipn_app, Nat.sub_diag, skipn_all. cbn [app skipn].
  pose proof (callbacks_bound c t events Inv). pose proof (one_timer_pending c t Inv). lia.
Qed.

Lemma burst_state (vs : list T) (v : T) (c : debouncer T) (t : Timers.timers)
    (rest : list (debounce_event T)) :
  one_timer c t ->
  exists c' t',
    debounce_run c t (map (@Invoke T) (vs ++ [v]) ++ rest)
    = map (fun _ => None) (vs ++ [v]) ++ debounce_run c' t' rest
    /\ Timers.pending t' = [(Timers.next_id t + length vs)%nat]
    /\ latestValue c' = Some v.
Proof.
  revert c t. induction vs as [|w vs IH]; intros c t H.
  - cbn [app map debounce_run length].
    destruct (debounced_call_pending v c t H) as (Hp & Hc & _).
    destruct (debounced_call v c t) as [c1 t1]. cbn [fst snd] in *.
    exists c1, t1. rewrite Hp, Hc, Nat.add_0_r. auto.
  - cbn [app map debounce_run length].
    pose proof (debounced_call_one_timer w c t H) as Hinv.
    destruct (debounced_call_pending w c t H) as (_ & _ & Hn).
    destruct (debounced_call w c t) as [c1 t1]. cbn [fst snd] in *.
    destruct (IH c1 t1 Hinv) as (c' & t' & E & Hp & Hv).
    exists c', t'. rewrite E, Hp, Hn. repeat split; auto.
    f_equal. lia.
Qed.

Lemma no_timer_no_callback (c : debouncer T) (t : Timers.timers) (ids : list nat) :
  Timers.pending t = [] ->
  debounce_run c t (map (@Elapse T) ids) = map (fun _ => None) ids.
Proof.
  intros Hp. induction ids as [|id ids IH]; [reflexivity|].
  cbn [map debounce_run]. unfold timer_runs, Timers.is_pending.
  rewrite Hp. cbn [existsb]. rewrite IH. reflexivity.
Qed.

Lemma last_timer_runs (last : nat) (v : T) (c : debouncer T) (t : Timers.timers)
    (ids : list nat) :
  Timers.pending t = [last] -> latestValue c = Some v ->
  debounce_run c t (map (@Elapse T) ids) = after_burst last v ids.
Proof.
  intros Hp Hv. induction ids as [|id ids IH]; [reflexivity|].
  cbn [map debounce_run after_burst]. unfold timer_runs, Timers.is_pending.
  rewrite Hp. cbn [existsb]. rewrite orb_false_r.
  destruct (Nat.eqb_spec id last) as [->|Hne].
  - rewrite Hv. f_equal. apply no_timer_no_callback.
    unfold Timers.done. rewrite Hp. cbn [Timers.pending]. apply remove_single.
  - rewrite IH. reflexivity.
Qed.

(** After a burst of calls only the timer of the last call is
    pending: when the timers then run, in any order and any number of
    times, the callback is called once, with the last value, at the
    first run of that timer.  (Timers are numbered in the order in
    which they are set.) *)
Theorem burst_gives_one_callback (vs : list T) (v : T) (ids : list nat) :
  debounced (map (@Invoke T) (vs ++ [v]) ++ map (@Elapse T) ids)
  = map (fun _ => None) (vs ++ [v]) ++ after_burst (length vs) v ids.
Proof.
  unfold debounced.
  destruct (burst_state vs v (debounceStream T) Timers.none
              (map (@Elapse T) ids) one_timer_start) as (c & t & E & Hp & Hv).
  rewrite E. f_equal. apply last_timer_runs; assumption.
Qed.

End DebounceFacts.

(** Two calls, then both timers run: the first one was cleared, the
    second one calls back with the second value. *)
Lemma callback_after_two_calls :
  nth_error
    (debounced ([Invoke (js "a"); Invoke (js "ab"); Elapse 0%nat] ++ [Elapse 1%nat]))
    3
  = Some (Some (Some (js "ab")))
  /\ ((exists id, @Elapse jsstring 1%nat = Elapse id)
      /\ Some (js "ab")
         = last_invoked None [Invoke (js "a"); Invoke (js "ab"); Elapse 0%nat]
      /\ Some (js "ab") <> None).
Proof.
  split; [reflexivity|].
  apply (callback_gets_the_latest_value
           [Invoke (js "a"); Invoke (js "ab"); Elapse 0%nat] [] (Elapse 1%nat)).
  reflexivity.
Defined.

(** * The decode loop of the hook *)

(** [decoder.decode(value)] on whole frames. *)
Lemma decode_whole_frames (os : list object_literal) :
  Forall two_fields os -> decode (wire_bytes os) = wire_text os.
Proof.
  intros H. pose proof (decode_stream_frames H false) as E.
  unfold decode_stream, decode in *. cbn [utf8 BOM_seen] in E.
  destruct (UTF8.run UTF8.initial (wire_bytes os)) as [st cps].
  destruct (serialize false cps) as [seen text] eqn:Es.
  injection E as -> _ ->.
  change (UTF8.flush UTF8.initial) with (@nil N).
  rewrite app_nil_r, Es. reflexivity.
Qed.

Section HookFacts.
Context {platform : Platform}.

Lemma hook_for_lines_app (l : hook_locals) (a b : list jsstring) :
  hook_for_lines l (a ++ b) =
  match hook_for_lines l a with
  | HContinue l' => hook_for_lines l' b
  | HReturned l' => HReturned l'
  end.
Proof.
  revert l. induction a as [|x a IH]; intros l; [reflexivity|].
  cbn [app hook_for_lines]. destruct (hook_for_body l x); [apply IH|reflexivity].
Qed.

Lemma hook_try_block_content (l : hook_locals) (c : code_unit) (r : jsstring) :
  wf_string (c :: r) ->
  hook_try_block l (frame_line (content_frame (c :: r))) =
  HNormal (mkHookLocals (fullResponse l ++ c :: r)
                        (option_calls l ++ [onStreamChunk (JString (c :: r))])).
Proof.
  intros Hwf. unfold hook_try_block. rewrite slice_frame_line.
  unfold content_frame.
  rewrite JSONFacts.parse_stringify_two
    by (try exact js_content_wf; try exact js_done_wf; trivial; exact I).
  cbn [json_of_field lookup_property].
  rewrite lookup_error_in_content, lookup_content_in_content,
    lookup_done_in_content.
  reflexivity.
Qed.

Lemma hook_try_block_done (l : hook_locals) :
  hook_try_block l (frame_line done_frame) =
  HReturn (mkHookLocals (fullResponse l)
             (option_calls l ++ completion_calls (fullResponse l))).
Proof.
  unfold hook_try_block. rewrite slice_frame_line. unfold done_frame.
  rewrite JSONFacts.parse_stringify_two
    by (try exact js_content_wf; try exact js_done_wf; try exact I;
        apply Forall_nil).
  reflexivity.
Qed.

Lemma hook_for_body_frame (l : hook_locals) (o : object_literal) :
  hook_for_body l (frame_line o) =
  match hook_try_block l (frame_line o) with
  | HNormal l' => HContinue l'
  | HReturn l' => HReturned l'
  | HThrow l' _ => HContinue l'
  end.
Proof. unfold hook_for_body. now rewrite startsWith_frame_line. Qed.

Lemma hook_for_lines_content (ds : list jsstring) :
  Forall wf_string ds -> Forall (fun t => t <> []) ds ->
  forall l,
    hook_for_lines l (flat_map (fun o => [frame_line o; []]) (map content_frame ds)) =
    HContinue (mkHookLocals (fullResponse l ++ concat ds)
                            (option_calls l ++ stream_calls ds)).
Proof.
  induction 1 as [|t ds Ht _ IH]; intros Hne l.
  - cbn. rewrite !app_nil_r. now destruct l.
  - inversion_clear Hne as [|? ? Hn Hne']. destruct t as [|c r]; [congruence|].
    cbn [map flat_map app hook_for_lines].
    rewrite hook_for_body_frame, hook_try_block_content by trivial.
    change (hook_for_body ?l []) with (HContinue l). cbv iota.
    rewrite IH by trivial. cbn [fullResponse option_calls concat stream_calls map].
    now rewrite <- !app_assoc.
Qed.

(** Chunks of whole frames: the loop sees the lines of all the frames,
    in order. *)
Lemma hook_while_loop_whole_frames (groups : list (list object_literal))
    (e : read_end) :
  Forall (Forall two_fields) groups ->
  forall l,
    hook_while_loop l (whole_frames groups) e =
    hook_exit_after e
      (hook_for_lines l (flat_map (fun o => [frame_line o; []]) (concat groups))).
Proof.
  induction 1 as [|os groups Hos _ IH]; intros l.
  - destruct e; reflexivity.
  - cbn [whole_frames map hook_while_loop concat].
    rewrite decode_whole_frames, complete_lines_frames by trivial.
    rewrite flat_map_app, !hook_for_lines_app.
    destruct (hook_for_lines l (flat_map (fun o => [frame_line o; []]) os))
      as [l'|l']; [|reflexivity].
    change (hook_for_lines l' [[]]) with (HContinue l'). cbv iota.
    apply IH.
Qed.

Lemma Forall_concat_inv (A : Type) (P : A -> Prop) (ls : list (list A)) :
  Forall P (concat ls) -> Forall (Forall P) ls.
Proof.
  induction ls as [|x ls IH]; cbn [concat]; intros H; [constructor|].
  apply Forall_app in H. destruct H. constructor; auto.
Qed.

(** The lines of the frames of a completed run. *)
Lemma hook_for_lines_frames (g : AsyncGenerator) :
  wf_generator g -> finish g = Completes ->
  hook_for_lines (mkHookLocals [] [])
    (flat_map (fun o => [frame_line o; []]) (frames g))
  = HReturned (mkHookLocals (concat (deltas g))
                 (stream_calls (deltas g) ++ completion_calls (concat (deltas g)))).
Proof.
  intros [Hd _] Hfin. unfold frames.
  rewrite Hfin, flat_map_app, hook_for_lines_app.
  rewrite hook_for_lines_content by (trivial; apply deltas_not_empty).
  cbn [flat_map app hook_for_lines terminal_frame].
  rewrite hook_for_body_frame, hook_try_block_done.
  reflexivity.
Qed.

(** When every chunk that arrives holds whole frames, as the encoder
    enqueues them, the hook decodes a completed run: one
    [onStreamChunk] per delta, then [onStreamComplete] and [onSuccess]
    with the whole text, which is the result; how the stream ends after
    the frame with [done] does not matter. *)
Theorem hook_decodes_whole_frames (g : AsyncGenerator)
    (groups : list (list object_literal)) (e : read_end) :
  wf_generator g -> finish g = Completes ->
  concat groups = frames g ->
  chatStream (mkResponse true 200 (Some (mkStream (whole_frames groups) e)))
  = mkHookRun (stream_calls (deltas g) ++ completion_calls (concat (deltas g)))
              (Resolved (concat (deltas g))).
Proof.
  intros Hwf Hfin Hg. unfold chatStream. cbn [ok negb body chunks ending].
  rewrite hook_while_loop_whole_frames
    by (apply Forall_concat_inv; rewrite Hg; now apply frames_two_fields).
  rewrite Hg, hook_for_lines_frames by trivial.
  reflexivity.
Qed.

(** A stream of whole content frames that ends without a frame with
    [done]: the hook resolves to the text, and calls neither
    [onStreamComplete] nor [onSuccess]. *)
Theorem hook_end_of_data_is_silent (ds : list jsstring)
    (groups : list (list object_literal)) :
  Forall wf_string ds -> Forall (fun t => t <> []) ds ->
  concat groups = map content_frame ds ->
  chatStream (delivered (whole_frames groups))
  = mkHookRun (stream_calls ds) (Resolved (concat ds)).
Proof.
  intros Hwf Hne Hg. unfold chatStream, delivered. cbn [ok negb body chunks ending].
  rewrite hook_while_loop_whole_frames.
  - rewrite Hg, hook_for_lines_content by trivial. reflexivity.
  - apply Forall_concat_inv. rewrite Hg. apply Forall_map.
    revert Hwf. apply Forall_impl. intros d Hd. now apply content_frame_two_fields.
Qed.

End HookFacts.

Section HookOutcomes.
Context {platform : Platform}.

Lemma hook_accumulating_start : hook_accumulating (mkHookLocals [] []).
Proof. exists [], []. repeat split. constructor. Qed.

Lemma hook_accumulating_chunk (l : hook_locals) (c : json) (t : jsstring) :
  hook_accumulating l -> to_string c = Some t ->
  hook_accumulating (mkHookLocals (fullResponse l ++ t)
                                  (option_calls l ++ [onStreamChunk c])).
Proof.
  intros (cs & ts & H2 & Hc & Ht) Hs. exists (cs ++ [c]), (ts ++ [t]).
  cbn [option_calls fullResponse]. repeat split.
  - apply Forall2_app; trivial. now repeat constructor.
  - now rewrite Hc, map_app.
  - rewrite Ht, concat_app. cbn. now rewrite app_nil_r.
Qed.

Lemma hook_try_block_accumulates (l : hook_locals) (line : jsstring) :
  hook_accumulating l ->
  match hook_try_block l line with
  | HNormal l' => hook_accumulating l'
  | HReturn l' => hook_completed l'
  | HThrow l' _ => hook_accumulating l'
  end.
Proof.
  intros Hl. unfold hook_try_block.
  destruct (JSON.parse (slice 6 line)) as [data|]; [|exact Hl].
  assert (Hbody :
    match
      (let error := lookup_property data (js "error") in
       if truthy error then
         match error with
         | Some e =>
             match to_string e with
             | Some message => HThrow l (NewError message)
             | None => HThrow l TypeError
             end
         | None => HThrow l TypeError
         end
       else
         let content := lookup_property data (js "content") in
         let after_content :=
           if truthy content then
             match content with
             | Some c =>
                 match to_string c with
                 | Some t =>
                     HNormal (mkHookLocals (fullResponse l ++ t)
                                           (option_calls l ++ [onStreamChunk c]))
                 | None => HThrow l TypeError
                 end
             | None => HThrow l TypeError
             end
           else HNormal l in
         match after_content with
         | HNormal l1 =>
             if truthy (lookup_property data (js "done")) then
               HReturn (mkHookLocals (fullResponse l1)
                          (option_calls l1 ++
                           [onStreamComplete (fullResponse l1);
                            onSuccess (fullResponse l1)]))
             else HNormal l1
         | other => other
         end)
    with
    | HNormal l' => hook_accumulating l'
    | HReturn l' => hook_completed l'
    | HThrow l' _ => hook_accumulating l'
    end).
  { cbv zeta.
    destruct (truthy (lookup_property data (js "error"))).
    - destruct (lookup_property data (js "error")) as [e|]; [|exact Hl].
      destruct (to_string e); exact Hl.
    - destruct (truthy (lookup_property data (js "content"))).
      + destruct (lookup_property data (js "content")) as [c|]; [|exact Hl].
        destruct (to_string c) as [t|] eqn:Et; [|exact Hl].
        assert (Hl' := hook_accumulating_chunk c Hl Et).
        destruct (truthy (lookup_property data (js "done"))); [|exact Hl'].
        eexists; split; [exact Hl'|reflexivity].
      + destruct (truthy (lookup_property data (js "done"))); [|exact Hl].
        eexists; split; [exact Hl|reflexivity]. }
  destruct data; first [exact Hl | exact Hbody].
Qed.

Lemma hook_for_body_accumulates (l : hook_locals) (line : jsstring) :
  hook_accumulating l ->
  match hook_for_body l line with
  | HContinue l' => hook_accumulating l'
  | HReturned l' => hook_completed l'
  end.
Proof.
  intros Hl. unfold hook_for_body.
  destruct (startsWith (js "data: ") line); [|exact Hl].
  pose proof (hook_try_block_accumulates line Hl) as H.
  destruct (hook_try_block l line); exact H.
Qed.

Lemma hook_for_lines_accumulates (lines : list jsstring) :
  forall l,
    hook_accumulating l ->
    match hook_for_lines l lines with
    | HContinue l' => hook_accumulating l'
    | HReturned l' => hook_completed l'
    end.
Proof.
  induction lines as [|line rest IH]; intros l Hl; cbn [hook_for_lines]; trivial.
  pose proof (hook_for_body_accumulates line Hl) as H.
  destruct (hook_for_body l line); [apply IH|]; exact H.
Qed.

Lemma hook_while_loop_accumulates (values : list chunk) (e : read_end) :
  forall l,
    hook_accumulating l ->
    match hook_while_loop l values e with
    | HBreak l' => hook_accumulating l'
    | HReturnedInside l' => hook_completed l'
    | HReadThrew l' _ => hook_accumulating l'
    end.
Proof.
  induction values as [|v rest IH]; intros l Hl; cbn [hook_while_loop].
  - destruct e; exact Hl.
  - pose proof (hook_for_lines_accumulates (split_lines (decode v)) Hl) as H.
    destruct (hook_for_lines l (split_lines (decode v))); [apply IH|]; exact H.
Qed.

(** Every outcome of [chatStream], for any response.  The values
    passed to [onStreamChunk] are the ones whose texts make up the
    result.  Either a frame with [done] was honoured: then
    [onStreamComplete] and [onSuccess] are called with the text, last,
    and it is the result; or the data ended: then the text is the
    result and no further callback is made; or the call is rejected:
    then [onError] is called once, last, with the message of what it is
    rejected with.  [onError] and [onSuccess] are never both called. *)
Theorem chatStream_outcomes (response : Response) :
  let r := chatStream response in
  exists cs ts,
    chunk_texts cs ts /\
    ((hook_calls r = map onStreamChunk cs ++ completion_calls (concat ts) /\
      hook_result r = Resolved (concat ts)) \/
     (hook_calls r = map onStreamChunk cs /\
      hook_result r = Resolved (concat ts)) \/
     (exists err,
        hook_calls r = map onStreamChunk cs ++ [options_onError (error_message err)] /\
        hook_result r = Rejected err)).
Proof.
  intros r. subst r. unfold chatStream.
  destruct (negb (ok response)).
  { exists [], []. split; [constructor|]. right. right. eexists. split; reflexivity. }
  destruct (body response) as [stream|].
  2:{ exists [], []. split; [constructor|]. right. right. eexists. split; reflexivity. }
  pose proof (hook_while_loop_accumulates (chunks stream) (ending stream)
                hook_accumulating_start) as H.
  destruct (hook_while_loop (mkHookLocals [] []) (chunks stream) (ending stream))
    as [l|l|l reason].
  - destruct H as (cs & ts & H2 & Hc & Ht). exists cs, ts. split; trivial.
    right. left. cbn [hook_calls hook_result]. now rewrite Hc, Ht.
  - destruct H as (l1 & (cs & ts & H2 & Hc & Ht) & ->). exists cs, ts.
    split; trivial. left. cbn [hook_calls hook_result fullResponse option_calls].
    now rewrite Hc, Ht.
  - destruct H as (cs & ts & H2 & Hc & Ht). exists cs, ts. split; trivial.
    right. right. exists reason. unfold hook_catch. cbn [hook_calls hook_result].
    now rewrite Hc.
Qed.

End HookOutcomes.

(** Scenario A with its first two frames in one chunk, an empty chunk,
    then the third frame and the frame with [done] in one chunk. *)
Lemma hook_decodes_scenario_A :
  chatStream (platform := example_engine)
    (mkResponse true 200
       (Some (mkStream
                (whole_frames [firstn 2 (frames scenario_A); [];
                               skipn 2 (frames scenario_A)])
                Eof)))
  = mkHookRun (stream_calls (deltas scenario_A)
               ++ completion_calls (concat (deltas scenario_A)))
              (Resolved (concat (deltas scenario_A))).
Proof.
  apply (@hook_decodes_whole_frames example_engine scenario_A
           [firstn 2 (frames scenario_A); []; skipn 2 (frames scenario_A)] Eof).
  - exact wf_scenario_A.
  - reflexivity.
  - reflexivity.
Defined.

(** Two content frames and then the end of the data. *)
Lemma hook_after_two_content_frames :
  chatStream (platform := example_engine)
    (delivered (whole_frames [[content_frame (js "Hello")];
                              [content_frame (js "world")]]))
  = mkHookRun (stream_calls [js "Hello"; js "world"])
              (Resolved (concat [js "Hello"; js "world"])).
Proof.
  apply (@hook_end_of_data_is_silent example_engine
           [js "Hello"; js "world"]
           [[content_frame (js "Hello")]; [content_frame (js "world")]]).
  - repeat constructor.
  - repeat constructor; discriminate.
  - reflexivity.
Defined.

(** * Requests through the routes *)

(** ** Bodies that are [JSON.stringify] of an object literal *)

Lemma parse_stringify_one (k : jsstring) (v : field_value) :
  wf_string k -> wf_field v ->
  JSON.parse (JSON.stringify [(k, v)]) = Some (JObject [(k, json_of_field v)]).
Proof.
  intros Hk Hv. unfold JSON.parse, JSON.stringify.
  cbn [stringify_members].
  set (n := (2 * _)%nat). cbn [Nat.add].
  repeat (rewrite <- app_assoc; cbn [app]).
  rewrite JSONFacts.parse_value_object, JSONFacts.parse_members_step by trivial.
  assert (Hn : n <> O) by (subst n; cbn [length]; lia).
  clearbody n. destruct n as [|m]; [congruence|].
  rewrite JSONFacts.parse_value_field by trivial.
  reflexivity.
Qed.

Lemma stringify_members_text (o : object_literal) :
  Forall wf_field_of o -> text_with not_LF (stringify_members o).
Proof.
  induction 1 as [|[k v] o [Hk Hv] Ho IH]; [constructor|].
  cbn [fst snd] in *.
  assert (H1 : text_with not_LF (quote k ++ 58 :: stringify_value v)).
  { apply text_with_app; [now apply quote_text|].
    apply (@text_with_app not_LF [58]); [now apply ascii_text|].
    now apply stringify_value_text. }
  destruct o as [|kv r]; [exact H1|].
  change (stringify_members ((k, v) :: kv :: r))
    with (quote k ++ 58 :: stringify_value v ++ 44 :: stringify_members (kv :: r)).
  apply text_with_app; [now apply quote_text|].
  apply (@text_with_app not_LF [58]); [now apply ascii_text|].
  apply text_with_app; [now apply stringify_value_text|].
  apply (@text_with_app not_LF [44]); [now apply ascii_text|].
  exact IH.
Qed.

Lemma stringify_text (o : object_literal) :
  Forall wf_field_of o -> text_with any_unit (JSON.stringify o).
Proof.
  intros H. apply text_with_weaken with (P := not_LF); [easy|].
  unfold JSON.stringify.
  apply (@text_with_app not_LF [123]); [now apply ascii_text|].
  apply text_with_app; [now apply stringify_members_text|now apply ascii_text].
Qed.

(** [decode] gives back a text that was encoded, when it starts with
    an ASCII character. *)
Lemma decode_encode P (c : code_unit) (r : jsstring) :
  c < 128 -> text_with P (c :: r) -> decode (UTF8.encode (c :: r)) = c :: r.
Proof.
  intros Hc Ht. pose proof (decode_stream_encode false Hc Ht) as E.
  unfold decode_stream, decode in *. cbn [utf8 BOM_seen] in E.
  destruct (UTF8.run UTF8.initial (UTF8.encode (c :: r))) as [st cps].
  destruct (serialize false cps) as [seen text] eqn:Es.
  injection E as -> _ ->.
  change (UTF8.flush UTF8.initial) with (@nil N).
  rewrite app_nil_r, Es. reflexivity.
Qed.

Lemma decode_encode_stringify (o : object_literal) :
  Forall wf_field_of o -> decode (UTF8.encode (JSON.stringify o)) = JSON.stringify o.
Proof.
  intros H. apply stringify_text in H. unfold JSON.stringify in *.
  apply (decode_encode (P := any_unit)); [reflexivity|exact H].
Qed.

Section Bodies.
Context {engine : Engine}.

Lemma Body_json_two (k1 k2 : jsstring) (v1 v2 : field_value) :
  wf_string k1 -> wf_string k2 -> wf_field v1 -> wf_field v2 ->
  Body_json (UTF8.encode (JSON.stringify [(k1, v1); (k2, v2)]))
  = Fulfils (JObject [(k1, json_of_field v1); (k2, json_of_field v2)]).
Proof.
  intros Hk1 Hk2 Hv1 Hv2. unfold Body_json.
  rewrite decode_encode_stringify by (repeat constructor; trivial).
  now rewrite JSONFacts.parse_stringify_two.
Qed.

Lemma Body_json_one (k : jsstring) (v : field_value) :
  wf_string k -> wf_field v ->
  Body_json (UTF8.encode (JSON.stringify [(k, v)]))
  = Fulfils (JObject [(k, json_of_field v)]).
Proof.
  intros Hk Hv. unfold Body_json.
  rewrite decode_encode_stringify by (repeat constructor; trivial).
  now rewrite parse_stringify_one.
Qed.

Lemma Response_json_two (k1 k2 : jsstring) (v1 v2 : field_value) (status : N) :
  wf_string k1 -> wf_string k2 -> wf_field v1 -> wf_field v2 ->
  Response_json (json_response [(k1, v1); (k2, v2)] status)
  = Fulfils (JObject [(k1, json_of_field v1); (k2, json_of_field v2)]).
Proof.
  intros. unfold Response_json, json_response. cbn [body ending chunks concat].
  rewrite app_nil_r. now apply Body_json_two.
Qed.

End Bodies.

Section RoundTrips.
Context {platform : Platform} {engine : Engine}.
Variable service : GenAIService.t.

Lemma prompt_for_strings (c m : jsstring) :
  prompt_for (Some (JString c)) m = Fulfils (prompt_text c m).
Proof. destruct c; reflexivity. Qed.

(** The chat route on the request of the pages. *)
Lemma chat_route_on_request (m c : jsstring) :
  wf_string m -> wf_string c ->
  ChatRoute.POST service (UTF8.encode (JSON.stringify (chat_request m c))) =
  match m with
  | [] => json_response [(js "success", Bool false);
                         (js "error", Str (js "Message is required"))] 400
  | _ :: _ =>
      match generateContent (GenAIService.models service) [(user, prompt_text c m)] with
      | Fulfils result =>
          json_response [(js "success", Bool true);
                         (js "message", Str (GenAIService.response_text result))] 200
      | Rejects _ =>
          json_response [(js "success", Bool false);
                         (js "error", Str (js "Failed to generate AI response"))] 500
      end
  end.
Proof.
  intros Hm Hc. unfold ChatRoute.POST, chat_request.
  rewrite Body_json_two by (trivial; now apply js_literal_wf).
  cbn [json_of_field]. cbv beta iota.
  change (lookup_property
            (JObject [(js "message", JString m); (js "context", JString c)])
            (js "message")) with (Some (JString m)).
  change (lookup_property
            (JObject [(js "message", JString m); (js "context", JString c)])
            (js "context")) with (Some (JString c)).
  destruct m as [|a m]; [reflexivity|].
  rewrite prompt_for_strings. unfold GenAIService.generateResponse.
  destruct (generateContent _ _); reflexivity.
Qed.

Lemma response_text_not_empty (result : GenerateContentResponse) :
  GenAIService.response_text result <> [].
Proof.
  unfold GenAIService.response_text.
  destruct (first_text result) as [[|c r]|]; discriminate.
Qed.

(** ** What the hook makes of the two kinds of response *)

Lemma request_run_success (fetch : UseGenAI.Fetch) (url fallback : jsstring)
    (request : object_literal) (t : jsstring) (status : N) :
  wf_string t ->
  fetch url (UTF8.encode (JSON.stringify request))
  = Fulfils (json_response [(js "success", Bool true); (js "message", Str t)] status) ->
  UseGenAI.request_run fetch url fallback request = fulfilled (JString t).
Proof.
  intros Ht E. unfold UseGenAI.request_run, UseGenAI.try_block. rewrite E.
  rewrite Response_json_two by (trivial; try exact I; now apply js_literal_wf).
  cbn [json_of_field]. cbv beta iota.
  change (lookup_property
            (JObject [(js "success", JBool true); (js "message", JString t)])
            (js "success")) with (Some (JBool true)).
  cbn [truthy]. unfold UseGenAI.message_or_empty.
  change (lookup_property
            (JObject [(js "success", JBool true); (js "message", JString t)])
            (js "message")) with (Some (JString t)).
  destruct t; reflexivity.
Qed.

Lemma request_run_failure (fetch : UseGenAI.Fetch) (url fallback : jsstring)
    (request : object_literal) (e : jsstring) (status : N) :
  wf_string e ->
  fetch url (UTF8.encode (JSON.stringify request))
  = Fulfils (json_response [(js "success", Bool false); (js "error", Str e)] status) ->
  UseGenAI.request_run fetch url fallback request
  = rejected (match e with [] => fallback | _ :: _ => e end).
Proof.
  intros He E. unfold UseGenAI.request_run, UseGenAI.try_block. rewrite E.
  rewrite Response_json_two by (trivial; try exact I; now apply js_literal_wf).
  cbn [json_of_field]. cbv beta iota.
  change (lookup_property
            (JObject [(js "success", JBool false); (js "error", JString e)])
            (js "success")) with (Some (JBool false)).
  cbn [truthy]. cbv zeta.
  change (lookup_property
            (JObject [(js "success", JBool false); (js "error", JString e)])
            (js "error")) with (Some (JString e)).
  destruct e; reflexivity.
Qed.

(** The request of the pages, sent by [chat] to the chat route: the
    hook resolves to the first text of the answer of the model, or to
    the text that stands for an answer without text, after
    [setResponse] and [onSuccess] with it; when the model fails it is
    rejected with the message of the service, and with the message of
    the route when the message is empty, after [setError] and
    [onError] with that message.  The loading flag is reset in every
    case. *)
Theorem chat_round_trip (m c : jsstring) :
  wf_string m -> wf_string c -> wf_answers service ->
  UseGenAI.chat (served_by (ChatRoute.POST service)) (chat_request m c) =
  match m with
  | [] => rejected (js "Message is required")
  | _ :: _ =>
      match generateContent (GenAIService.models service) [(user, prompt_text c m)] with
      | Fulfils result => fulfilled (JString (GenAIService.response_text result))
      | Rejects _ => rejected (js "Failed to generate AI response")
      end
  end.
Proof.
  intros Hm Hc Hs. unfold UseGenAI.chat.
  pose proof (chat_route_on_request Hm Hc) as E.
  destruct m as [|a m].
  - apply request_run_failure with (e := js "Message is required") (status := 400);
      [now apply js_literal_wf|].
    unfold served_by. now rewrite E.
  - destruct (generateContent (GenAIService.models service)
                [(user, prompt_text c (a :: m))]) as [result|reason] eqn:Eg.
    + apply request_run_success with (status := 200); [now apply (Hs _ _ Eg)|].
      unfold served_by. now rewrite E.
    + apply request_run_failure with (e := js "Failed to generate AI response") (status := 500);
        [now apply js_literal_wf|].
      unfold served_by. now rewrite E.
Qed.

(** The generate route on a request that holds a prompt. *)
Lemma generate_route_on_request (p : jsstring) :
  wf_string p ->
  GenerateRoute.POST service (UTF8.encode (JSON.stringify (generate_request p))) =
  match p with
  | [] => json_response [(js "success", Bool false);
                         (js "error", Str (js "Prompt is required"))] 400
  | _ :: _ =>
      match generateContent (GenAIService.models service) [(user, p)] with
      | Fulfils result =>
          json_response [(js "success", Bool true);
                         (js "message", Str (GenAIService.response_text result))] 200
      | Rejects _ =>
          json_response [(js "success", Bool false);
                         (js "error", Str (js "Failed to generate AI response"))] 500
      end
  end.
Proof.
  intros Hp. unfold GenerateRoute.POST, generate_request.
  rewrite Body_json_one by (trivial; now apply js_literal_wf).
  cbn [json_of_field]. cbv beta iota.
  change (lookup_property (JObject [(js "prompt", JString p)]) (js "prompt"))
    with (Some (JString p)).
  destruct p as [|a p]; [reflexivity|].
  unfold GenAIService.generateResponse.
  destruct (generateContent _ _); reflexivity.
Qed.

(** A prompt sent by [generate] to the generate route: as for [chat],
    with the prompt passed to the model as it is. *)
Theorem generate_round_trip (p : jsstring) :
  wf_string p -> wf_answers service ->
  UseGenAI.generate (served_by (GenerateRoute.POST service)) (generate_request p) =
  match p with
  | [] => rejected (js "Prompt is required")
  | _ :: _ =>
      match generateContent (GenAIService.models service) [(user, p)] with
      | Fulfils result => fulfilled (JString (GenAIService.response_text result))
      | Rejects _ => rejected (js "Failed to generate AI response")
      end
  end.
Proof.
  intros Hp Hs. unfold UseGenAI.generate.
  pose proof (generate_route_on_request Hp) as E.
  destruct p as [|a p].
  - apply request_run_failure with (e := js "Prompt is required") (status := 400);
      [now apply js_literal_wf|].
    unfold served_by. now rewrite E.
  - destruct (generateContent (GenAIService.models service) [(user, a :: p)])
      as [result|reason] eqn:Eg.
    + apply request_run_success with (status := 200); [now apply (Hs _ _ Eg)|].
      unfold served_by. now rewrite E.
    + apply request_run_failure with (e := js "Failed to generate AI response") (status := 500);
        [now apply js_literal_wf|].
      unfold served_by. now rewrite E.
Qed.

(** ** The streaming route *)

Lemma enqueued_whole_frames (g : AsyncGenerator) :
  enqueued (start g reads_to_end) = whole_frames (map (fun o => [o]) (frames g)).
Proof.
  rewrite start_writes, enqueued_writes. unfold whole_frames.
  rewrite map_map. apply map_ext. intros o. unfold wire_bytes.
  cbn [map concat]. now rewrite app_nil_r.
Qed.

Lemma concat_singletons (A : Type) (l : list A) :
  concat (map (fun x => [x]) l) = l.
Proof. induction l as [|x l IH]; cbn; [reflexivity|now rewrite IH]. Qed.

Lemma chatStream_of_encoded (g : AsyncGenerator) :
  wf_generator g -> finish g = Completes ->
  chatStream (createStreamResponse g)
  = mkHookRun (stream_calls (deltas g) ++ completion_calls (concat (deltas g)))
              (Resolved (concat (deltas g))).
Proof.
  intros Hwf Hfin. unfold createStreamResponse, chatStream.
  cbn [ok negb body chunks ending].
  rewrite enqueued_whole_frames, hook_while_loop_whole_frames.
  - rewrite concat_singletons, hook_for_lines_frames by trivial. reflexivity.
  - apply Forall_concat_inv. rewrite concat_singletons.
    now apply frames_two_fields.
Qed.

Lemma chat_stream_route_on_request (m c : jsstring) :
  wf_string m -> wf_string c ->
  ChatStreamRoute.POST service (UTF8.encode (JSON.stringify (chat_request m c))) =
  match m with
  | [] => json_response [(js "error", Str (js "Message is required"))] 400
  | _ :: _ =>
      match generateContentStream (GenAIService.models service)
              [(user, prompt_text c m)] with
      | Fulfils stream => createStreamResponse stream
      | Rejects _ =>
          json_response
            [(js "error", Str (js "Failed to process streaming chat message"))] 500
      end
  end.
Proof.
  intros Hm Hc. unfold ChatStreamRoute.POST, chat_request.
  rewrite Body_json_two by (trivial; now apply js_literal_wf).
  cbn [json_of_field]. cbv beta iota.
  change (lookup_property
            (JObject [(js "message", JString m); (js "context", JString c)])
            (js "message")) with (Some (JString m)).
  change (lookup_property
            (JObject [(js "message", JString m); (js "context", JString c)])
            (js "context")) with (Some (JString c)).
  destruct m as [|a m]; [reflexivity|].
  rewrite prompt_for_strings. unfold GenAIService.chatStream.
  destruct (generateContentStream _ _); reflexivity.
Qed.

(** The request of the pages, sent by [chatStream] to the chat-stream
    route, with the frames arriving as the route enqueues them: the
    hook resolves to the whole text of the stream of the model after
    one [onStreamChunk] per delta, [onStreamComplete] and [onSuccess].
    When the route answers with an error, the hook is rejected with a
    message that names the status only: the message in the body of
    the response is not read. *)
Theorem chatStream_round_trip (m c : jsstring) :
  wf_string m -> wf_string c -> completing_streams service ->
  UseGenAI.chatStream_fetch (served_by (ChatStreamRoute.POST service))
    (chat_request m c) =
  match m with
  | [] => stream_rejected (js "HTTP error! status: 400")
  | _ :: _ =>
      match generateContentStream (GenAIService.models service)
              [(user, prompt_text c m)] with
      | Fulfils stream =>
          mkHookRun (stream_calls (deltas stream)
                     ++ completion_calls (concat (deltas stream)))
                    (Resolved (concat (deltas stream)))
      | Rejects _ => stream_rejected (js "HTTP error! status: 500")
      end
  end.
Proof.
  intros Hm Hc Hs. unfold UseGenAI.chatStream_fetch, served_by.
  rewrite (chat_stream_route_on_request Hm Hc).
  destruct m as [|a m]; [reflexivity|].
  destruct (generateContentStream (GenAIService.models service)
              [(user, prompt_text c (a :: m))]) as [stream|reason] eqn:Eg;
    [|reflexivity].
  destruct (Hs _ _ Eg) as [Hwf Hfin]. now apply chatStream_of_encoded.
Qed.

End RoundTrips.

Lemma wf_answers_example : wf_answers example_service.
Proof.
  intros contents result E. injection E as <-.
  change (wf_string (js "Hi there")). now apply js_literal_wf.
Qed.

Lemma completing_streams_example : completing_streams example_service.
Proof.
  intros contents stream E. injection E as <-. split; [exact wf_scenario_A|reflexivity].
Qed.

(** A message and a context through the chat route. *)
Lemma chat_round_trip_example :
  UseGenAI.chat (platform := example_engine) (engine := example_messages)
    (served_by (ChatRoute.POST (platform := example_engine)
                               (engine := example_messages) example_service))
    (chat_request (js "Hello") (js "Be brief"))
  = fulfilled (JString (js "Hi there")).
Proof.
  apply (@chat_round_trip example_engine example_messages example_service
           (js "Hello") (js "Be brief")).
  - now apply js_literal_wf.
  - now apply js_literal_wf.
  - exact wf_answers_example.
Defined.

(** A prompt through the generate route, with a model that fails. *)
Lemma generate_round_trip_example :
  UseGenAI.generate (platform := example_engine) (engine := example_messages)
    (served_by (GenerateRoute.POST (engine := example_messages) failing_service))
    (generate_request (js "Write a haiku"))
  = rejected (js "Failed to generate AI response").
Proof.
  apply (@generate_round_trip example_engine example_messages failing_service
           (js "Write a haiku")).
  - now apply js_literal_wf.
  - intros contents result E. discriminate E.
Defined.

(** A message and a context through the chat-stream route, with the
    stream of scenario A. *)
Lemma chatStream_round_trip_example :
  UseGenAI.chatStream_fetch (platform := example_engine)
    (served_by (ChatStreamRoute.POST (platform := example_engine)
                                     (engine := example_messages) example_service))
    (chat_request (js "Hello") (js "Be brief"))
  = mkHookRun (stream_calls (deltas scenario_A)
               ++ completion_calls (concat (deltas scenario_A)))
              (Resolved (concat (deltas scenario_A))).
Proof.
  apply (@chatStream_round_trip example_engine example_messages example_service
           (js "Hello") (js "Be brief")).
  - now apply js_literal_wf.
  - now apply js_literal_wf.
  - exact completing_streams_example.
Defined.

(** ** Every response of the routes *)

Section RouteResponses.
Context {platform : Platform} {engine : Engine}.
Variable service : GenAIService.t.

Lemma answer_reports (prompt : jsstring) :
  reports_success
    match GenAIService.generateResponse service prompt with
    | Fulfils response =>
        json_response [(js "success", Bool true); (js "message", Str response)] 200
    | Rejects error => ChatRoute.catch_block error
    end.
Proof.
  unfold GenAIService.generateResponse.
  destruct (generateContent (GenAIService.models service) [(user, prompt)])
    as [result|reason].
  - left. exists (GenAIService.response_text result).
    split; [apply response_text_not_empty|reflexivity].
  - right. exists (js "Failed to generate AI response"), 500.
    split; [right; reflexivity|].
    cbv beta iota delta [ChatRoute.catch_block route_error_message]. reflexivity.
Qed.

Lemma catch_reports (error : thrown) : reports_success (ChatRoute.catch_block error).
Proof.
  right. exists (route_error_message error), 500.
  split; [right; reflexivity|]. unfold ChatRoute.catch_block. reflexivity.
Qed.

Lemma refusal_reports (e : jsstring) :
  reports_success
    (json_response [(js "success", Bool false); (js "error", Str e)] 400).
Proof. right. exists e, 400. split; [left; reflexivity|reflexivity]. Qed.

(** Whatever the bytes of the request and whatever the SDK does, the
    chat route and the generate route answer with a JSON object whose
    [success] agrees with the status: 200 goes with [success: true]
    and a message that is not empty, and every other response has
    status 400 or 500, [success: false] and an error text.  No
    exception leaves the handlers. *)
Theorem json_routes_report_success (request : chunk) :
  reports_success (ChatRoute.POST service request) /\
  reports_success (GenerateRoute.POST service request).
Proof.
  split.
  - unfold ChatRoute.POST.
    destruct (Body_json request) as [body|error]; [|apply catch_reports].
    assert (H : reports_success
      match lookup_property body (js "message") with
      | Some (JString (c :: r)) =>
          match prompt_for (lookup_property body (js "context")) (c :: r) with
          | Fulfils prompt =>
              match GenAIService.generateResponse service prompt with
              | Fulfils response =>
                  json_response [(js "success", Bool true);
                                 (js "message", Str response)] 200
              | Rejects error => ChatRoute.catch_block error
              end
          | Rejects error => ChatRoute.catch_block error
          end
      | _ => json_response [(js "success", Bool false);
                            (js "error", Str (js "Message is required"))] 400
      end).
    { destruct (lookup_property body (js "message")) as [[| | |[|c r]| |]|];
        try apply refusal_reports.
      destruct (prompt_for _ _); [apply answer_reports|apply catch_reports]. }
    destruct body; first [apply catch_reports | exact H].
  - unfold GenerateRoute.POST.
    destruct (Body_json request) as [body|error]; [|apply catch_reports].
    assert (H : reports_success
      match lookup_property body (js "prompt") with
      | Some (JString (c :: r)) =>
          match GenAIService.generateResponse service (c :: r) with
          | Fulfils response =>
              json_response [(js "success", Bool true);
                             (js "message", Str response)] 200
          | Rejects error => GenerateRoute.catch_block error
          end
      | _ => json_response [(js "success", Bool false);
                            (js "error", Str (js "Prompt is required"))] 400
      end).
    { destruct (lookup_property body (js "prompt")) as [[| | |[|c r]| |]|];
        try apply refusal_reports.
      apply answer_reports. }
    destruct body; first [apply catch_reports | exact H].
Qed.

(** The chat-stream route answers either with the stream that
    [createStreamResponse] makes of a stream of the SDK, or with a
    JSON object that holds an error text, with status 400 or 500. *)
Theorem stream_route_responses (request : chunk) :
  (exists contents stream,
     generateContentStream (GenAIService.models service) contents = Fulfils stream /\
     ChatStreamRoute.POST service request = createStreamResponse stream) \/
  (exists e s,
     (s = 400 \/ s = 500) /\
     ChatStreamRoute.POST service request = json_response [(js "error", Str e)] s).
Proof.
  unfold ChatStreamRoute.POST.
  assert (Hc : forall error,
    (exists contents stream,
       generateContentStream (GenAIService.models service) contents = Fulfils stream /\
       ChatStreamRoute.catch_block error = createStreamResponse stream) \/
    (exists e s,
       (s = 400 \/ s = 500) /\
       ChatStreamRoute.catch_block error = json_response [(js "error", Str e)] s)).
  { intros error. right. exists (route_error_message error), 500.
    split; [right; reflexivity|]. unfold ChatStreamRoute.catch_block. reflexivity. }
  destruct (Body_json request) as [body|error]; [|apply Hc].
  assert (H :
    (exists contents stream,
       generateContentStream (GenAIService.models service) contents = Fulfils stream /\
       match lookup_property body (js "message") with
       | Some (JString (c :: r)) =>
           match prompt_for (lookup_property body (js "context")) (c :: r) with
           | Fulfils prompt =>
               match GenAIService.chatStream service [(user, prompt)] with
               | Fulfils stream => createStreamResponse stream
               | Rejects error => ChatStreamRoute.catch_block error
               end
           | Rejects error => ChatStreamRoute.catch_block error
           end
       | _ => json_response [(js "error", Str (js "Message is required"))] 400
       end = createStreamResponse stream) \/
    (exists e s,
       (s = 400 \/ s = 500) /\
       match lookup_property body (js "message") with
       | Some (JString (c :: r)) =>
           match prompt_for (lookup_property body (js "context")) (c :: r) with
           | Fulfils prompt =>
               match GenAIService.chatStream service [(user, prompt)] with
               | Fulfils stream => createStreamResponse stream
               | Rejects error => ChatStreamRoute.catch_block error
               end
           | Rejects error => ChatStreamRoute.catch_block error
           end
       | _ => json_response [(js "error", Str (js "Message is required"))] 400
       end = json_response [(js "error", Str e)] s)).
  { destruct (lookup_property body (js "message")) as [[| | |[|c r]| |]|];
      try (right; exists (js "Message is required"), 400;
           split; [left; reflexivity|reflexivity]).
    destruct (prompt_for _ _) as [prompt|error]; [|apply Hc].
    unfold GenAIService.chatStream.
    destruct (generateContentStream (GenAIService.models service) [(user, prompt)])
      as [stream|reason] eqn:E; [|apply Hc].
    left. exists [(user, prompt)], stream. split; [exact E|reflexivity]. }
  destruct body; first [apply Hc | exact H].
Qed.

End RouteResponses.
